(** * Quiescent-state-based reclamation (qsbr.c): a shallow embedding

    The C file keeps one [struct qsbr] per instance: the global epoch, a
    pthread TLS key and the head of an intrusive singly-linked list of
    per-thread records ([qsbr_tls_t]).  The embedding below keeps the
    same data: records live in a heap indexed by addresses, the list is
    threaded through the [next] fields of the records, and the value a
    thread has stored under the TLS key is a finite map from thread
    identifiers to addresses.  [NULL] is [None].

    Epochs are [unsigned long], 64 bits wide (the source asserts
    [sizeof(qsbr_epoch_t) == 8]); they are integers with the wrap-around
    of the increment written out.

    Threads are interleaved at the granularity of calls, and inside
    [qsbr_register] at the granularity of its accesses to shared memory;
    memory is sequentially consistent, so the fences of the source
    ([atomic_thread_fence]) have no counterpart here. *)

From Stdlib Require Import ZArith List Lia Bool.
From stdpp Require Import base option gmap list.

Local Open Scope Z_scope.

(** ** Data model *)

Definition thread := nat.
Definition loc := positive.

(** [qsbr_epoch_t] is [unsigned long]; arithmetic on it is modulo 2^64. *)
Definition EPOCH_MODULUS : Z := 2 ^ 64.
Definition wrap64 (z : Z) : Z := z mod EPOCH_MODULUS.

(** [errno.h] *)
Definition ENOMEM : Z := 12.

(** [typedef struct qsbr_tls { local_epoch; next } qsbr_tls_t] *)
Record qsbr_tls_t : Type := mk_tls {
  local_epoch : Z;
  next : option loc
}.

(** [struct qsbr { global_epoch; tls_key; list }], together with the
    memory that holds the per-thread records.  [tls_key] is the slot
    table of the pthread key: the value each thread has stored under it
    (no entry means NULL).  The field [list] of the source is [qs_list]
    here. *)
Record qsbr_t : Type := mk_qsbr {
  global_epoch : Z;
  tls_key : gmap thread loc;
  qs_list : option loc;
  mem : gmap loc qsbr_tls_t
}.

Definition set_global_epoch (e : Z) (qs : qsbr_t) : qsbr_t :=
  mk_qsbr e (tls_key qs) (qs_list qs) (mem qs).
Definition set_tls_key (k : gmap thread loc) (qs : qsbr_t) : qsbr_t :=
  mk_qsbr (global_epoch qs) k (qs_list qs) (mem qs).
Definition set_qs_list (l : option loc) (qs : qsbr_t) : qsbr_t :=
  mk_qsbr (global_epoch qs) (tls_key qs) l (mem qs).
Definition set_mem (h : gmap loc qsbr_tls_t) (qs : qsbr_t) : qsbr_t :=
  mk_qsbr (global_epoch qs) (tls_key qs) (qs_list qs) h.

(** The value reserved for the extended quiescent state: the source writes
    the literal 1 in [qsbr_thread_offline] and in [qsbr_sync]. *)
Definition OFFLINE_EPOCH : Z := 1.

(** ** Outcomes

    A call either returns, or stops the program (a failed assertion, a
    dereference of NULL or of a freed record), or is still looping when
    the fuel of the model is used up. *)

Inductive fault : Type :=
  | AssertFailed
  | NullDeref
  | UseAfterFree.

Inductive result (A : Type) : Type :=
  | Ok (a : A)
  | Fault (f : fault)
  | NoFuel.

Arguments Ok {A} a.
Arguments Fault {A} f.
Arguments NoFuel {A}.

Definition bind {A B : Type} (m : result A) (k : A -> result B) : result B :=
  match m with
  | Ok a => k a
  | Fault f => Fault f
  | NoFuel => NoFuel
  end.

Notation "'do' x <- m ; k" := (bind m (fun x => k))
  (at level 10, x name, m at level 100, k at level 200).
Notation "'do' ' ( x , y ) <- m ; k" := (bind m (fun '(x, y) => k))
  (at level 10, x name, y name, m at level 100, k at level 200).

Definition is_ok {A : Type} (m : result A) : bool :=
  match m with Ok _ => true | _ => false end.

(** ** Memory and thread-local storage *)

(** Reading through a pointer: NULL and freed records stop the program. *)
Definition deref (h : gmap loc qsbr_tls_t) (t : option loc)
  : result (loc * qsbr_tls_t) :=
  match t with
  | None => Fault NullDeref
  | Some p =>
      match h !! p with
      | Some r => Ok (p, r)
      | None => Fault UseAfterFree
      end
  end.

(** [t->local_epoch = e] *)
Definition store_local_epoch (t : option loc) (e : Z) (qs : qsbr_t)
  : result qsbr_t :=
  do '(p, r) <- deref (mem qs) t;
  Ok (set_mem (<[p := mk_tls e (next r)]> (mem qs)) qs).

(** [t->next = n] *)
Definition store_next (t : option loc) (n : option loc) (qs : qsbr_t)
  : result qsbr_t :=
  do '(p, r) <- deref (mem qs) t;
  Ok (set_mem (<[p := mk_tls (local_epoch r) n]> (mem qs)) qs).

(** [memset(t, 0, sizeof(qsbr_tls_t))]: epoch 0 and a NULL link. *)
Definition memset_zero (t : option loc) (qs : qsbr_t) : result qsbr_t :=
  do '(p, _) <- deref (mem qs) t;
  Ok (set_mem (<[p := mk_tls 0 None]> (mem qs)) qs).

(** What [malloc] hands out is not initialised; the only caller clears it
    with [memset] before reading it. *)
Definition UNINITIALISED : qsbr_tls_t := mk_tls 0xdeadbeef None.

(** [malloc(sizeof(qsbr_tls_t))] when the allocator answers [p]. *)
Definition malloc_at (p : loc) (qs : qsbr_t) : qsbr_t :=
  set_mem (<[p := UNINITIALISED]> (mem qs)) qs.

(** [free(t)]; [free(NULL)] does nothing. *)
Definition free (t : option loc) (qs : qsbr_t) : qsbr_t :=
  match t with
  | None => qs
  | Some p => set_mem (delete p (mem qs)) qs
  end.

Definition pthread_getspecific (qs : qsbr_t) (tid : thread) : option loc :=
  tls_key qs !! tid.

Definition pthread_setspecific (tid : thread) (v : option loc) (qs : qsbr_t)
  : qsbr_t :=
  match v with
  | Some p => set_tls_key (<[tid := p]> (tls_key qs)) qs
  | None => set_tls_key (delete tid (tls_key qs)) qs
  end.

(** Modelled from the spec: the macros of utils.h, which is not among the
    sources.  The spec has insertion at the head of the registry done by
    compare-and-swap, and the barrier an atomic read-modify-write.  The
    source passes the expected head by value, so the swap reports success
    or failure and writes nothing back. *)
Definition atomic_compare_exchange_weak
    (qs : qsbr_t) (expected desired : option loc) : bool * qsbr_t :=
  if decide (qs_list qs = expected)
  then (true, set_qs_list desired qs)
  else (false, qs).

Definition atomic_fetch_add (qs : qsbr_t) (n : Z) : Z * qsbr_t :=
  (global_epoch qs, set_global_epoch (wrap64 (global_epoch qs + n)) qs).

(** ** The interface of qsbr.c *)

Section Build.

(** The Makefile builds with -DDEBUG or with -DNDEBUG. *)
Variable DEBUG : bool.

(** Modelled from the spec: the macro ASSERT of utils.h, which is not among
    the sources.  A contract violation fails hard on the assertion; in a
    release build the assertion is compiled out and the program goes on
    (here: to the dereference of NULL that follows). *)
Definition ASSERT (c : bool) : result unit :=
  if DEBUG && negb c then Fault AssertFailed else Ok tt.

(** [qsbr_create]: [calloc_ok] says whether [calloc] returned memory,
    [key_rc] is what [pthread_key_create] returned. *)
Definition qsbr_create (calloc_ok : bool) (key_rc : Z) : option qsbr_t :=
  if negb calloc_ok then None
  else if negb (key_rc =? 0) then None
  else Some (set_global_epoch 2 (mk_qsbr 0 ∅ None ∅)).

Definition qsbr_unregister (tid : thread) (qs : qsbr_t) : qsbr_t :=
  let t := pthread_getspecific qs tid in
  let qs := free t qs in
  pthread_setspecific tid None qs.

(** [qsbr_destroy] deletes the key and frees the instance; what is left is
    the memory of the records (key deletion runs no destructor). *)
Definition qsbr_destroy (qs : qsbr_t) : gmap loc qsbr_tls_t := mem qs.

(** The loop [do { head = qs->list; t->next = head; } while (!CAS(...))]. *)
Fixpoint register_loop (fuel : nat) (t : loc) (qs : qsbr_t) : result qsbr_t :=
  match fuel with
  | O => NoFuel
  | S fuel' =>
      let head := qs_list qs in
      do qs1 <- store_next (Some t) head qs;
      let '(swapped, qs2) := atomic_compare_exchange_weak qs1 head (Some t) in
      if swapped then Ok qs2 else register_loop fuel' t qs2
  end.

(** [qsbr_register]: [m] is what [malloc] returns if it is called. *)
Definition qsbr_register (fuel : nat) (tid : thread) (m : option loc)
    (qs : qsbr_t) : result (Z * qsbr_t) :=
  let link (t : loc) (qs : qsbr_t) :=
    do qs1 <- memset_zero (Some t) qs;
    do qs2 <- register_loop fuel t qs1;
    Ok (0, qs2) in
  match pthread_getspecific qs tid with
  | None =>
      match m with
      | None => Ok (ENOMEM, qs)
      | Some p => link p (pthread_setspecific tid (Some p) (malloc_at p qs))
      end
  | Some t => link t qs
  end.

Definition qsbr_checkpoint (tid : thread) (qs : qsbr_t) : result qsbr_t :=
  let t := pthread_getspecific qs tid in
  do _ <- ASSERT (bool_decide (t ≠ None));
  store_local_epoch t (global_epoch qs) qs.

Definition qsbr_get_epoch (tid : thread) (qs : qsbr_t) : result Z :=
  let t := pthread_getspecific qs tid in
  do _ <- ASSERT (bool_decide (t ≠ None));
  do '(_, r) <- deref (mem qs) t;
  Ok (local_epoch r).

Definition qsbr_barrier (qs : qsbr_t) : Z * qsbr_t :=
  let '(old, qs') := atomic_fetch_add qs 1 in
  (wrap64 (old + 1), qs').

(** The registry scan of [qsbr_sync]: [while (t) { ... t = t->next; }]. *)
Fixpoint sync_scan (fuel : nat) (h : gmap loc qsbr_tls_t) (t : option loc)
    (target : Z) : result bool :=
  match t with
  | None => Ok true
  | Some p =>
      match fuel with
      | O => NoFuel
      | S fuel' =>
          do '(_, r) <- deref h t;
          if negb (local_epoch r =? 1) && (local_epoch r <? target)
          then Ok false
          else sync_scan fuel' h (next r) target
      end
  end.

Definition qsbr_sync (fuel : nat) (tid : thread) (target : Z) (qs : qsbr_t)
  : result (bool * qsbr_t) :=
  do qs1 <- qsbr_checkpoint tid qs;
  do b <- sync_scan fuel (mem qs1) (qs_list qs1) target;
  Ok (b, qs1).

(** [qsbr_wait]: the sleep between two polls has no effect on the
    instance; [polls] bounds the number of polls. *)
Fixpoint wait_loop (polls fuel : nat) (tid : thread) (new_epoch : Z)
    (qs : qsbr_t) : result qsbr_t :=
  match polls with
  | O => NoFuel
  | S polls' =>
      do '(done, qs1) <- qsbr_sync fuel tid new_epoch qs;
      if done then Ok qs1 else wait_loop polls' fuel tid new_epoch qs1
  end.

Definition qsbr_wait (polls fuel : nat) (tid : thread) (qs : qsbr_t)
  : result qsbr_t :=
  let '(new_epoch, qs1) := qsbr_barrier qs in
  wait_loop polls fuel tid new_epoch qs1.

Definition qsbr_thread_offline (tid : thread) (qs : qsbr_t) : result qsbr_t :=
  let t := pthread_getspecific qs tid in
  do _ <- ASSERT (bool_decide (t ≠ None));
  store_local_epoch t 1 qs.

Definition qsbr_thread_online (tid : thread) (qs : qsbr_t) : result qsbr_t :=
  let t := pthread_getspecific qs tid in
  do _ <- ASSERT (bool_decide (t ≠ None));
  store_local_epoch t (global_epoch qs) qs.

End Build.

(** ** Registration, step by step

    Threads that register at the same time interleave between the
    accesses to shared memory.  A call of [qsbr_register] is cut at these
    accesses: the code up to [memset] (which touches the slot of the key
    and the caller's record), the read of [qs->list], the write of
    [t->next], and the compare-and-swap.  [reg_pc] is where a thread is in
    its call, with the values of its local variables [t] and [head]. *)

Inductive reg_pc : Type :=
  | RegStart
  | RegLoad (t : loc)
  | RegStore (t : loc) (head : option loc)
  | RegCas (t : loc) (head : option loc)
  | RegReturned (rc : Z).

(** One step of the call of thread [tid]; [m] is what [malloc] answers if
    the step calls it. *)
Definition reg_step (tid : thread) (m : option loc) (pc : reg_pc)
    (qs : qsbr_t) : result (reg_pc * qsbr_t) :=
  match pc with
  | RegStart =>
      match pthread_getspecific qs tid with
      | None =>
          match m with
          | None => Ok (RegReturned ENOMEM, qs)
          | Some p =>
              do qs1 <- memset_zero (Some p)
                          (pthread_setspecific tid (Some p) (malloc_at p qs));
              Ok (RegLoad p, qs1)
          end
      | Some t =>
          do qs1 <- memset_zero (Some t) qs;
          Ok (RegLoad t, qs1)
      end
  | RegLoad t => Ok (RegStore t (qs_list qs), qs)
  | RegStore t head =>
      do qs1 <- store_next (Some t) head qs;
      Ok (RegCas t head, qs1)
  | RegCas t head =>
      let '(swapped, qs1) := atomic_compare_exchange_weak qs head (Some t) in
      if swapped then Ok (RegReturned 0, qs1) else Ok (RegLoad t, qs1)
  | RegReturned rc => Ok (RegReturned rc, qs)
  end.

(** The steps of one call run without interruption. *)
Fixpoint reg_steps (n : nat) (tid : thread) (m : option loc) (pc : reg_pc)
    (qs : qsbr_t) : result (reg_pc * qsbr_t) :=
  match n with
  | O => Ok (pc, qs)
  | S n' =>
      do '(pc1, qs1) <- reg_step tid m pc qs;
      reg_steps n' tid m pc1 qs1
  end.

(** The instance and, for every thread that is calling [qsbr_register],
    where it is in its call. *)
Record config : Type := mk_config {
  shared : qsbr_t;
  pcs : gmap thread reg_pc
}.

Definition has_returned (pc : reg_pc) : bool :=
  match pc with RegReturned _ => true | _ => false end.

(** The allocator's answer at the step of a thread at [pc]. *)
Definition reg_malloc_freshb (pc : reg_pc) (m : option loc) (qs : qsbr_t)
  : bool :=
  match pc, m with
  | RegStart, Some p => match mem qs !! p with None => true | _ => false end
  | _, _ => true
  end.

(** A schedule says which thread takes the next step, and what [malloc]
    answers it.  [race sched c] is the configuration after the steps of
    [sched], or [None] when the schedule picks a thread that is not in a
    call or has returned, a step stops the program, or the allocator's
    answer is not possible. *)
Fixpoint race (sched : list (thread * option loc)) (c : config)
  : option config :=
  match sched with
  | [] => Some c
  | (tid, m) :: sched' =>
      match pcs c !! tid with
      | None => None
      | Some pc =>
          if has_returned pc then None
          else if reg_malloc_freshb pc m (shared c) then
            match reg_step tid m pc (shared c) with
            | Ok (pc', qs') =>
                race sched' (mk_config qs' (<[tid := pc']> (pcs c)))
            | _ => None
            end
          else None
      end
  end.

(** All the threads [ts] are about to call [qsbr_register] on [qs]. *)
Definition all_start (ts : list thread) (qs : qsbr_t) : config :=
  mk_config qs (list_to_map ((fun t => (t, RegStart)) <$> ts)).

(** ** Calls and runs

    One constructor per function of qsbr.h, with the calling thread where
    the function reads the TLS key and with what the allocator answers
    where the function may allocate.  A call is one step of a run.  A
    call of [qsbr_wait] that the calls of other threads interleave with
    is, in a run, its barrier followed by its polls, each a call of
    [qsbr_sync]; [OpWait] is the call that nothing interrupts. *)

Inductive op : Type :=
  | OpRegister (tid : thread) (m : option loc)
  | OpUnregister (tid : thread)
  | OpCheckpoint (tid : thread)
  | OpGetEpoch (tid : thread)
  | OpBarrier
  | OpSync (tid : thread) (target : Z)
  | OpWait (tid : thread)
  | OpThreadOffline (tid : thread)
  | OpThreadOnline (tid : thread).

(** What a call hands back, by the return type in qsbr.h. *)
Inductive retval : Type :=
  | RVoid
  | RInt (rc : Z)
  | REpoch (e : Z)
  | RBool (b : bool).

Section Runs.

Variable DEBUG : bool.
(** Bounds on the loops of the model: iterations of a registry scan or of
    the compare-and-swap loop, and polls of [qsbr_wait]. *)
Variable fuel polls : nat.

Definition exec (o : op) (qs : qsbr_t) : result (retval * qsbr_t) :=
  match o with
  | OpRegister tid m =>
      do '(rc, qs') <- qsbr_register fuel tid m qs; Ok (RInt rc, qs')
  | OpUnregister tid => Ok (RVoid, qsbr_unregister tid qs)
  | OpCheckpoint tid =>
      do qs' <- qsbr_checkpoint DEBUG tid qs; Ok (RVoid, qs')
  | OpGetEpoch tid =>
      do e <- qsbr_get_epoch DEBUG tid qs; Ok (REpoch e, qs)
  | OpBarrier => let '(e, qs') := qsbr_barrier qs in Ok (REpoch e, qs')
  | OpSync tid target =>
      do '(b, qs') <- qsbr_sync DEBUG fuel tid target qs; Ok (RBool b, qs')
  | OpWait tid =>
      do qs' <- qsbr_wait DEBUG polls fuel tid qs; Ok (RVoid, qs')
  | OpThreadOffline tid =>
      do qs' <- qsbr_thread_offline DEBUG tid qs; Ok (RVoid, qs')
  | OpThreadOnline tid =>
      do qs' <- qsbr_thread_online DEBUG tid qs; Ok (RVoid, qs')
  end.

(** The allocator never hands out memory that is still allocated (it may
    hand out again what has been freed). *)
Definition malloc_fresh (o : op) (qs : qsbr_t) : Prop :=
  match o with
  | OpRegister _ (Some p) => mem qs !! p = None
  | _ => True
  end.

(** A run: calls made one after the other, each one returning, with the
    value each call returned.  [G] restricts the calls that may occur,
    given the state they are made in. *)
Inductive run_where (G : op -> qsbr_t -> Prop)
  : qsbr_t -> list (op * retval) -> qsbr_t -> Prop :=
  | run_nil qs : run_where G qs [] qs
  | run_cons qs o v qs1 tr qs2 :
      G o qs ->
      malloc_fresh o qs ->
      exec o qs = Ok (v, qs1) ->
      run_where G qs1 tr qs2 ->
      run_where G qs ((o, v) :: tr) qs2.

Definition run : qsbr_t -> list (op * retval) -> qsbr_t -> Prop :=
  run_where (fun _ _ => True).

End Runs.

(** ** The registry as a list

    [seg h t l u]: following [next] from [t] in the heap [h] visits the
    live records at the addresses [l], in this order, and then arrives at
    the pointer [u]. *)

Fixpoint seg (h : gmap loc qsbr_tls_t) (t : option loc) (l : list loc)
    (u : option loc) : Prop :=
  match l with
  | [] => t = u
  | p :: l' => t = Some p /\ exists r, h !! p = Some r /\ seg h (next r) l' u
  end.

(** A registry that is a list: the walk ends at NULL. *)
Definition chain (h : gmap loc qsbr_tls_t) (t : option loc) (l : list loc)
  : Prop := seg h t l None.

(** A registry that is a cycle through [p]: the walk from [p] visits [p]
    and the records [c], and is back at [p]. *)
Definition cycle (h : gmap loc qsbr_tls_t) (p : loc) (c : list loc) : Prop :=
  seg h (Some p) (p :: c) (Some p).

(** The walk to NULL as a function, [None] when NULL is not reached within
    [fuel] records or a record on the way has been freed. *)
Fixpoint walk (fuel : nat) (h : gmap loc qsbr_tls_t) (t : option loc)
  : option (list loc) :=
  match t with
  | None => Some []
  | Some p =>
      match fuel with
      | O => None
      | S fuel' =>
          match h !! p with
          | None => None
          | Some r =>
              match walk fuel' h (next r) with
              | Some l => Some (p :: l)
              | None => None
              end
          end
      end
  end.

(** The condition under which [qsbr_sync] does not wait for a record: the
    thread is offline, or it has observed the target epoch. *)
Definition grace (target : Z) (r : qsbr_tls_t) : Prop :=
  local_epoch r = OFFLINE_EPOCH \/ target <= local_epoch r.

Definition graceb (target : Z) (r : qsbr_tls_t) : bool :=
  (local_epoch r =? OFFLINE_EPOCH) || (target <=? local_epoch r).

(** The epoch a thread has published, if it has a live record. *)
Definition local_epoch_of (qs : qsbr_t) (tid : thread) : option Z :=
  match tls_key qs !! tid with
  | None => None
  | Some p =>
      match mem qs !! p with
      | None => None
      | Some r => Some (local_epoch r)
      end
  end.

(** Every thread that has a record under the key has a live one. *)
Definition tls_live (qs : qsbr_t) : Prop :=
  forall tid p, tls_key qs !! tid = Some p -> is_Some (mem qs !! p).

(** Values of type [qsbr_epoch_t]. *)
Definition epoch_in_range (e : Z) : Prop := 0 <= e < EPOCH_MODULUS.

(** No two threads have the same record under the key. *)
Definition tls_inj (qs : qsbr_t) : Prop :=
  forall t1 t2 p,
    tls_key qs !! t1 = Some p -> tls_key qs !! t2 = Some p -> t1 = t2.

Definition tls_ok (qs : qsbr_t) : Prop := tls_live qs /\ tls_inj qs.

(** The calls that advance the global epoch. *)
Definition advances_epoch (o : op) : bool :=
  match o with
  | OpBarrier | OpWait _ => true
  | _ => false
  end.

Definition barriers (tr : list (op * retval)) : nat :=
  length (List.filter (fun e => advances_epoch (fst e)) tr).

(** The thread a call reads the TLS key of, if it reads it. *)
Definition caller (o : op) : option thread :=
  match o with
  | OpRegister tid _ | OpUnregister tid | OpCheckpoint tid | OpGetEpoch tid
  | OpSync tid _ | OpWait tid | OpThreadOffline tid | OpThreadOnline tid =>
      Some tid
  | OpBarrier => None
  end.

(** The instance [qsbr_create] returns when both allocations succeed. *)
Definition fresh_qsbr : qsbr_t := mk_qsbr 2 ∅ None ∅.

(** The instance after [tid] has registered with the record at [p]: the
    record is cleared, linked in front of the old head, and is the new
    head. *)
Definition registered_state (tid : thread) (p : loc) (qs : qsbr_t) : qsbr_t :=
  mk_qsbr (global_epoch qs) (<[tid := p]> (tls_key qs)) (Some p)
          (<[p := mk_tls 0 (qs_list qs)]> (mem qs)).

(** A call by [tid] that stores the epoch [e] in the caller's record and
    does nothing else. *)
Definition published (tid : thread) (e : Z) (qs qs' : qsbr_t) : Prop :=
  exists p r, tls_key qs !! tid = Some p /\ mem qs !! p = Some r /\
    qs' = set_mem (<[p := mk_tls e (next r)]> (mem qs)) qs.

(** The effect of each call that returns, as a relation between the state
    before and the state after. *)
Definition effect (o : op) (v : retval) (qs qs' : qsbr_t) : Prop :=
  match o with
  | OpRegister tid m =>
      (v = RInt ENOMEM /\ qs' = qs /\ tls_key qs !! tid = None /\ m = None)
      \/ (v = RInt 0 /\ exists p, qs' = registered_state tid p qs /\
            ((tls_key qs !! tid = None /\ m = Some p)
             \/ (tls_key qs !! tid = Some p /\ is_Some (mem qs !! p))))
  | OpUnregister tid => v = RVoid /\ qs' = qsbr_unregister tid qs
  | OpCheckpoint tid | OpThreadOnline tid =>
      v = RVoid /\ published tid (global_epoch qs) qs qs'
  | OpThreadOffline tid => v = RVoid /\ published tid OFFLINE_EPOCH qs qs'
  | OpGetEpoch tid =>
      exists e, v = REpoch e /\ qs' = qs /\ local_epoch_of qs tid = Some e
  | OpBarrier =>
      v = REpoch (wrap64 (global_epoch qs + 1)) /\
      qs' = set_global_epoch (wrap64 (global_epoch qs + 1)) qs
  | OpSync tid target =>
      (exists b, v = RBool b) /\ published tid (global_epoch qs) qs qs'
  | OpWait tid =>
      v = RVoid /\
      published tid (wrap64 (global_epoch qs + 1))
        (set_global_epoch (wrap64 (global_epoch qs + 1)) qs) qs'
  end.

(** The calls by threads other than [R] that keep the registry a list in
    front of the record of [R]: no thread unregisters, and only threads
    without a record register. *)
Definition undisturbed (R : thread) (o : op) (qs : qsbr_t) : Prop :=
  caller o <> Some R /\
  match o with
  | OpUnregister _ => False
  | OpRegister tid _ => tls_key qs !! tid = None
  | _ => True
  end.


(** The calls by which [R] itself lowers or gives up its local epoch:
    going offline (the epoch becomes 1), registering again (the record is
    cleared) and unregistering (the record is freed). *)
Definition lowers_epoch (R : thread) (o : op) : bool :=
  match o with
  | OpThreadOffline tid | OpRegister tid _ | OpUnregister tid =>
      bool_decide (tid = R)
  | _ => false
  end.

(** The record [p] of [R] holds epoch 0 and is linked in the registry
    behind at most [k] live records. *)
Definition waiting_record (R : thread) (p : loc) (k : nat) (qs : qsbr_t)
  : Prop :=
  tls_key qs !! R = Some p /\
  (exists r, mem qs !! p = Some r /\ local_epoch r = 0) /\
  exists l, seg (mem qs) (qs_list qs) l (Some p) /\ (p ∉ l) /\
    (length l <= k)%nat.

(** The calls that write no link of the registry: all but
    [qsbr_register] and [qsbr_unregister]. *)
Definition keeps_links (o : op) (qs : qsbr_t) : Prop :=
  match o with
  | OpRegister _ _ | OpUnregister _ => False
  | _ => True
  end.

(** The registry holds exactly the records of the threads [ds], each one
    once and cleared: it is a list [l] of as many distinct records as
    there are threads, every thread of [ds] has its record in [l], and
    every record of [l] is the record of a thread of [ds]. *)
Definition registry_of (ds : list thread) (qs : qsbr_t) : Prop :=
  exists l,
    chain (mem qs) (qs_list qs) l /\
    length l = length ds /\
    NoDup l /\
    (forall t, is_Some (tls_key qs !! t) -> t ∈ ds) /\
    (forall t, t ∈ ds -> exists p r,
       tls_key qs !! t = Some p /\ p ∈ l /\
       mem qs !! p = Some r /\ local_epoch r = 0) /\
    (forall p, p ∈ l -> exists t, t ∈ ds /\ tls_key qs !! t = Some p).

(** The trace of the threads [ts] registering one after the other, each
    call returning 0; every thread comes with what [malloc] answers. *)
Definition registrations (ts : list (thread * option loc))
  : list (op * retval) :=
  map (fun tm => (OpRegister (fst tm) (snd tm), RInt 0)) ts.

(** What holds of a configuration reached by threads that register for
    the first time: the threads [ds] have returned 0 and their records
    [l] make up the registry, in this order; every thread that is past
    the start of its call and has not returned has a cleared record of
    its own that is not linked yet. *)
Definition pending (l : list loc) (qs : qsbr_t) (t : thread) (p : loc)
    (link : option (option loc)) : Prop :=
  tls_key qs !! t = Some p /\ (p ∉ l) /\
  exists r, mem qs !! p = Some r /\ local_epoch r = 0 /\
    match link with Some h => next r = h | None => True end.

Definition race_inv (ts : list thread) (c : config) : Prop :=
  exists ds l,
    chain (mem (shared c)) (qs_list (shared c)) l /\
    NoDup ds /\ NoDup l /\
    Forall2 (fun t p => tls_key (shared c) !! t = Some p) ds l /\
    Forall (fun p => exists r, mem (shared c) !! p = Some r /\
                                local_epoch r = 0) l /\
    tls_ok (shared c) /\
    (forall t, is_Some (pcs c !! t) <-> t ∈ ts) /\
    (forall t, is_Some (tls_key (shared c) !! t) -> t ∈ ts) /\
    (forall t, t ∈ ds <-> pcs c !! t = Some (RegReturned 0)) /\
    (forall t pc, pcs c !! t = Some pc ->
       match pc with
       | RegStart => tls_key (shared c) !! t = None
       | RegLoad p | RegStore p _ => pending l (shared c) t p None
       | RegCas p h => pending l (shared c) t p (Some h)
       | RegReturned rc =>
           rc = 0 \/ (rc = ENOMEM /\ tls_key (shared c) !! t = None)
       end).

(** ** Runs as a function *)

Definition malloc_freshb (o : op) (qs : qsbr_t) : bool :=
  match o with
  | OpRegister _ (Some p) =>
      match mem qs !! p with None => true | Some _ => false end
  | _ => true
  end.

(** The calls [os] made in this order from [qs]: the trace and the final
    state, or [None] when a call does not return or the allocator's answer
    is not possible. *)
Fixpoint run_ops (DEBUG : bool) (fuel polls : nat) (os : list op)
    (qs : qsbr_t) : option (list (op * retval) * qsbr_t) :=
  match os with
  | [] => Some ([], qs)
  | o :: os' =>
      if malloc_freshb o qs then
        match exec DEBUG fuel polls o qs with
        | Ok (v, qs1) =>
            match run_ops DEBUG fuel polls os' qs1 with
            | Some (tr, qs2) => Some ((o, v) :: tr, qs2)
            | None => None
            end
        | _ => None
        end
      else None
  end.

Definition final_state (DEBUG : bool) (fuel polls : nat) (os : list op)
    (qs : qsbr_t) : qsbr_t :=
  match run_ops DEBUG fuel polls os qs with
  | Some (_, qs') => qs'
  | None => qs
  end.

Definition trace_of (DEBUG : bool) (fuel polls : nat) (os : list op)
    (qs : qsbr_t) : list (op * retval) :=
  match run_ops DEBUG fuel polls os qs with
  | Some (tr, _) => tr
  | None => []
  end.

(** ** Instances used in the examples *)

(** Threads 0 and 1 have registered, in this order, with records at
    addresses 1 and 2. *)
Definition two_threads : qsbr_t :=
  final_state true 1 1
    [OpRegister 0%nat (Some 1%positive); OpRegister 1%nat (Some 2%positive)]
    fresh_qsbr.

(** Thread 0 has registered, with the record at address 1. *)
Definition one_thread : qsbr_t :=
  final_state true 1 1 [OpRegister 0%nat (Some 1%positive)] fresh_qsbr.

(** Instances whose epoch counter has reached the last value of its type:
    one without threads, one where thread 0 has registered. *)
Definition last_epoch_qsbr : qsbr_t := set_global_epoch (2 ^ 64 - 1) fresh_qsbr.
Definition last_epoch_one_thread : qsbr_t :=
  set_global_epoch (2 ^ 64 - 1) one_thread.

(** A writer (thread 0) and four readers (threads 1 to 4) have
    registered and the readers have published a checkpoint; readers 3 and
    4 have then gone offline and the writer has issued a barrier. *)
Definition two_readers_offline : qsbr_t :=
  final_state true 1 1
    [OpRegister 0%nat (Some 1%positive); OpRegister 1%nat (Some 2%positive);
     OpRegister 2%nat (Some 3%positive); OpRegister 3%nat (Some 4%positive);
     OpRegister 4%nat (Some 5%positive);
     OpCheckpoint 1%nat; OpCheckpoint 2%nat; OpCheckpoint 3%nat;
     OpCheckpoint 4%nat;
     OpThreadOffline 3%nat; OpThreadOffline 4%nat; OpBarrier]
    fresh_qsbr.

(** The instance with two threads after thread 0 has unregistered. *)
Definition after_unregister : qsbr_t :=
  final_state true 1 1 [OpUnregister 0%nat] two_threads.

(** Thread 0 has registered and then registered a second time, with the
    same record. *)
Definition registered_twice : qsbr_t :=
  final_state true 1 1 [OpRegister 0%nat None] one_thread.



(** Threads 0 and 1 register at the same time, with records 1 and 2: both
    read the empty list and write their link, thread 0 swaps its record
    in, the compare-and-swap of thread 1 fails and thread 1 goes round the
    loop once more. *)
Definition contended_schedule : list (thread * option loc) :=
  [(0%nat, Some 1%positive); (1%nat, Some 2%positive);
   (0%nat, None); (1%nat, None); (0%nat, None); (1%nat, None);
   (0%nat, None); (1%nat, None);
   (1%nat, None); (1%nat, None); (1%nat, None)].

Definition race_final (sched : list (thread * option loc)) (c : config)
  : config :=
  match race sched c with
  | Some c' => c'
  | None => c
  end.

(** A round-robin scheduler: in every round each thread that has not
    returned takes one step; thread [t] is given the address [t + 1] by
    the allocator.  [round_robin] is the schedule of [rounds] rounds. *)
Fixpoint one_round (ts : list thread) (c : config)
  : list (thread * option loc) * config :=
  match ts with
  | [] => ([], c)
  | t :: ts' =>
      match pcs c !! t with
      | Some pc =>
          if has_returned pc then one_round ts' c
          else
            let m := Some (Pos.of_succ_nat t) in
            match reg_step t m pc (shared c) with
            | Ok (pc', qs') =>
                let '(sched, c') :=
                  one_round ts' (mk_config qs' (<[t := pc']> (pcs c))) in
                ((t, m) :: sched, c')
            | _ => ([], c)
            end
      | None => one_round ts' c
      end
  end.

Fixpoint round_robin (rounds : nat) (ts : list thread) (c : config)
  : list (thread * option loc) :=
  match rounds with
  | O => []
  | S rounds' =>
      let '(sched, c') := one_round ts c in
      sched ++ round_robin rounds' ts c'
  end.

(** The 64 threads of the registration scenario. *)
Definition threads64 : list thread := seq 0 64.

(** The trace of [n] calls of [qsbr_barrier] from global epoch [g]. *)
Fixpoint barrier_trace (g : Z) (n : nat) : list (op * retval) :=
  match n with
  | O => []
  | S n' =>
      (OpBarrier, REpoch (wrap64 (g + 1))) :: barrier_trace (wrap64 (g + 1)) n'
  end.

(** ** Contract violations, stale records and bounded epochs *)

(** How a call by a thread that has no record stops the program: on the
    assertion in a debug build, on the dereference of NULL that follows it
    in a release build. *)
Definition contract_violation (DEBUG : bool) : fault :=
  if DEBUG then AssertFailed else NullDeref.

(** The record [p] of [R] holds the epoch [e] and is linked in the
    registry behind at most [k] live records. *)
Definition stale_record (R : thread) (p : loc) (e : Z) (k : nat)
    (qs : qsbr_t) : Prop :=
  tls_key qs !! R = Some p /\
  (exists r, mem qs !! p = Some r /\ local_epoch r = e) /\
  exists l, seg (mem qs) (qs_list qs) l (Some p) /\ (p ∉ l) /\
    (length l <= k)%nat.

(** No live record holds an epoch above the global epoch, and the global
    epoch is above the sentinel. *)
Definition epochs_bounded (qs : qsbr_t) : Prop :=
  OFFLINE_EPOCH < global_epoch qs /\
  forall p r, mem qs !! p = Some r -> 0 <= local_epoch r <= global_epoch qs.

(** Threads 0 and 1 have registered and published a checkpoint, and a
    barrier has been issued since. *)
Definition readers_online : qsbr_t :=
  final_state true 1 1 [OpCheckpoint 0%nat; OpCheckpoint 1%nat; OpBarrier]
    two_threads.

(** ** The stress test (t_stress.c)

    The test starts one writer (the thread with id 0) and readers, all
    running [qsbr_stress]: each registers, waits for the others at a
    pthread barrier, and then loops until the alarm handler sets [stop].
    The writer hides an object, waits for a grace period and sets the
    object's pointer to NULL; a reader that finds an object visible reads
    through its pointer and then passes a checkpoint.

    The threads are interleaved at the granularity of their accesses to
    shared memory: [stress_pc] says where a thread is in [qsbr_stress]
    after the first [pthread_barrier_wait], with the values of its local
    variables.  The calls of qsbr.c are cut at their accesses in the same
    way: the checkpoint into the read of the global epoch and the write of
    the local epoch, the registry scan into its reads of every record. *)

Definition DS_COUNT : Z := 4.
Definition MAGIC_VAL : Z := 0x5a5a5a5a.

(** [static unsigned magic_val = MAGIC_VAL]; nothing writes it. *)
Definition magic_val : Z := MAGIC_VAL.

(** The values of the field [ptr]: NULL (after [memset], and once the
    writer has retired the object) or [&magic_val]. *)
Inductive pointer : Type :=
  | NULL
  | addr_magic_val.

(** [data_struct_t] without its padding. *)
Record data_struct_t : Type := mk_ds {
  ptr : pointer;
  visible : Z;
  gc_epoch : Z
}.

(** The globals of the test that [qsbr_stress] uses. *)
Record globals : Type := mk_globals {
  qsbr : qsbr_t;
  ds : list data_struct_t;
  stop : bool
}.

(** How the test can stop short: inside a call of qsbr.c, on the
    dereference of a NULL [ptr], in [abort()], on an [assert] of
    t_stress.c, or on an access outside [ds].  [OutOfFuel] stands for an
    access of qsbr.c that the model could not finish. *)
Inductive crash : Type :=
  | InQsbr (f : fault)
  | OutOfFuel
  | NullPointer
  | Aborted
  | AssertionFailed
  | OutOfRange.

Inductive outcome (A : Type) : Type :=
  | Runs (a : A)
  | Crashes (c : crash).

Arguments Runs {A} a.
Arguments Crashes {A} c.

(** The result of an access of qsbr.c inside a step.  Every such access
    is a single read or write and none loops; an access that did not
    finish counts as a crash, so that a safe run has none. *)
Definition in_qsbr {A : Type} (m : result A) : outcome A :=
  match m with
  | Ok a => Runs a
  | Fault f => Crashes (InQsbr f)
  | NoFuel => Crashes OutOfFuel
  end.

Definition obind {A B : Type} (m : outcome A) (k : A -> outcome B)
  : outcome B :=
  match m with
  | Runs a => k a
  | Crashes c => Crashes c
  end.

Notation "'perform' x <- m ; k" := (obind m (fun x => k))
  (at level 10, x name, m at level 100, k at level 200).
Notation "'perform' ' ( x , y ) <- m ; k" := (obind m (fun '(x, y) => k))
  (at level 10, x name, y name, m at level 100, k at level 200).

(** [unsigned] arithmetic is modulo 2^32. *)
Definition wrap32 (z : Z) : Z := z mod 2 ^ 32.

(** [n = ++n & (DS_COUNT - 1)] *)
Definition next_target (n : Z) : Z := Z.land (wrap32 (n + 1)) (DS_COUNT - 1).

(** [ds[n]] *)
Definition ds_get (n : Z) (g : globals) : outcome data_struct_t :=
  match ds g !! Z.to_nat n with
  | Some d => Runs d
  | None => Crashes OutOfRange
  end.

Definition ds_set (n : Z) (d : data_struct_t) (g : globals) : globals :=
  mk_globals (qsbr g) (<[Z.to_nat n := d]> (ds g)) (stop g).

Definition set_qsbr (qs : qsbr_t) (g : globals) : globals :=
  mk_globals qs (ds g) (stop g).

(** [assert] of assert.h is compiled out by -DNDEBUG, which the Makefile
    passes exactly when it does not pass -DDEBUG. *)
Definition assert (DEBUG : bool) (c : bool) : outcome unit :=
  if DEBUG && negb c then Crashes AssertionFailed else Runs tt.

(** Where a thread is in [qsbr_stress]; [n] is its local variable [n],
    [new_epoch] the local variable of [wait], [t] the cursor of the
    registry scan of [qsbr_sync] and [e] the epoch a checkpoint has read
    and not yet written. *)
Inductive stress_pc : Type :=
  | AtLoop (n : Z)
      (* while (!stop) *)
  | WrVisible (n : Z)
      (* qsbr_writer: if (obj->visible) *)
  | WrHide (n : Z)
      (* assert(obj->visible); obj->visible = false; *)
  | WrBarrier (n : Z)
      (* wait: new_epoch = qsbr_barrier(qsbr) *)
  | WrSyncLoad (n new_epoch : Z)
      (* qsbr_sync, qsbr_checkpoint: reads qs->global_epoch *)
  | WrSyncStore (n new_epoch e : Z)
      (* qsbr_checkpoint: t->local_epoch = e *)
  | WrSyncHead (n new_epoch : Z)
      (* qsbr_sync: t = qs->list *)
  | WrScan (n new_epoch : Z) (t : option loc)
      (* while (t) { if (t->local_epoch != 1 ... *)
  | WrScanLess (n new_epoch : Z) (t : loc)
      (* ... && t->local_epoch < target) return false; *)
  | WrScanNext (n new_epoch : Z) (t : loc)
      (* t = t->next; } *)
  | WrRetire (n : Z)
      (* obj->ptr = NULL; *)
  | WrSetPtr (n : Z)
      (* obj->ptr = &magic_val; *)
  | WrShow (n : Z)
      (* assert(!obj->visible); obj->visible = true; *)
  | RdVisible (n : Z)
      (* if (ds[n].visible ... *)
  | RdDeref (n : Z)
      (* ... && *ds[n].ptr != MAGIC_VAL) abort(); *)
  | RdCkLoad (n : Z)
      (* qsbr_checkpoint: reads qs->global_epoch *)
  | RdCkStore (n e : Z)
      (* qsbr_checkpoint: t->local_epoch = e *)
  | FinCkLoad
      (* the checkpoint after the loop: reads qs->global_epoch *)
  | FinCkStore (e : Z)
      (* the checkpoint after the loop: t->local_epoch = e *)
  | AtBarrier.
      (* pthread_barrier_wait(&barrier) *)

(** The first half of [qsbr_checkpoint]: the caller's record is looked up
    and asserted, and the global epoch is read. *)
Definition checkpoint_load (DEBUG : bool) (id : thread) (qs : qsbr_t)
  : result Z :=
  let t := pthread_getspecific qs id in
  do _ <- ASSERT DEBUG (bool_decide (t ≠ None));
  Ok (global_epoch qs).

(** The second half: the epoch read is written to the caller's record. *)
Definition checkpoint_store (id : thread) (e : Z) (qs : qsbr_t)
  : result qsbr_t :=
  store_local_epoch (pthread_getspecific qs id) e qs.

(** One step of the thread [id] at [pc].  [AtLoop], the steps of a
    reader and the last checkpoint are the code of [qsbr_stress]; the
    steps of the writer are the code of [qsbr_writer], with [wait] and
    the [qsbr_barrier] and [qsbr_sync] it calls in line. *)
Definition stress_step (DEBUG : bool) (id : thread) (pc : stress_pc)
    (g : globals) : outcome (stress_pc * globals) :=
  match pc with
  | AtLoop n =>
      if stop g then Runs (FinCkLoad, g)
      else
        let n := next_target n in
        if (id =? 0)%nat then Runs (WrVisible n, g) else Runs (RdVisible n, g)
  | WrVisible n =>
      perform obj <- ds_get n g;
      if negb (visible obj =? 0) then Runs (WrHide n, g)
      else Runs (WrSetPtr n, g)
  | WrHide n =>
      perform obj <- ds_get n g;
      perform _ <- assert DEBUG (negb (visible obj =? 0));
      Runs (WrBarrier n, ds_set n (mk_ds (ptr obj) 0 (gc_epoch obj)) g)
  | WrBarrier n =>
      let '(new_epoch, qs) := qsbr_barrier (qsbr g) in
      Runs (WrSyncLoad n new_epoch, set_qsbr qs g)
  | WrSyncLoad n new_epoch =>
      perform e <- in_qsbr (checkpoint_load DEBUG id (qsbr g));
      Runs (WrSyncStore n new_epoch e, g)
  | WrSyncStore n new_epoch e =>
      perform qs <- in_qsbr (checkpoint_store id e (qsbr g));
      Runs (WrSyncHead n new_epoch, set_qsbr qs g)
  | WrSyncHead n new_epoch =>
      Runs (WrScan n new_epoch (qs_list (qsbr g)), g)
  | WrScan n new_epoch None =>
      (* qsbr_sync returns true and wait returns *)
      Runs (WrRetire n, g)
  | WrScan n new_epoch (Some t) =>
      perform '(_, r) <- in_qsbr (deref (mem (qsbr g)) (Some t));
      if negb (local_epoch r =? 1) then Runs (WrScanLess n new_epoch t, g)
      else Runs (WrScanNext n new_epoch t, g)
  | WrScanLess n new_epoch t =>
      perform '(_, r) <- in_qsbr (deref (mem (qsbr g)) (Some t));
      if local_epoch r <? new_epoch
      then (* qsbr_sync returns false: nanosleep, and the next poll *)
        Runs (WrSyncLoad n new_epoch, g)
      else Runs (WrScanNext n new_epoch t, g)
  | WrScanNext n new_epoch t =>
      perform '(_, r) <- in_qsbr (deref (mem (qsbr g)) (Some t));
      Runs (WrScan n new_epoch (next r), g)
  | WrRetire n =>
      perform obj <- ds_get n g;
      Runs (AtLoop n, ds_set n (mk_ds NULL (visible obj) (gc_epoch obj)) g)
  | WrSetPtr n =>
      perform obj <- ds_get n g;
      Runs (WrShow n,
            ds_set n (mk_ds addr_magic_val (visible obj) (gc_epoch obj)) g)
  | WrShow n =>
      perform obj <- ds_get n g;
      perform _ <- assert DEBUG (visible obj =? 0);
      Runs (AtLoop n, ds_set n (mk_ds (ptr obj) 1 (gc_epoch obj)) g)
  | RdVisible n =>
      perform obj <- ds_get n g;
      if negb (visible obj =? 0) then Runs (RdDeref n, g)
      else Runs (RdCkLoad n, g)
  | RdDeref n =>
      perform obj <- ds_get n g;
      match ptr obj with
      | NULL => Crashes NullPointer
      | addr_magic_val =>
          if negb (magic_val =? MAGIC_VAL) then Crashes Aborted
          else Runs (RdCkLoad n, g)
      end
  | RdCkLoad n =>
      perform e <- in_qsbr (checkpoint_load DEBUG id (qsbr g));
      Runs (RdCkStore n e, g)
  | RdCkStore n e =>
      perform qs <- in_qsbr (checkpoint_store id e (qsbr g));
      Runs (AtLoop n, set_qsbr qs g)
  | FinCkLoad =>
      perform e <- in_qsbr (checkpoint_load DEBUG id (qsbr g));
      Runs (FinCkStore e, g)
  | FinCkStore e =>
      perform qs <- in_qsbr (checkpoint_store id e (qsbr g));
      Runs (AtBarrier, set_qsbr qs g)
  | AtBarrier => Runs (AtBarrier, g)
  end.

(** The globals and where every thread of the test is. *)
Record stress_config : Type := mk_stress {
  shared_globals : globals;
  threads : gmap thread stress_pc
}.

(** What the scheduler picks next: a step of a thread, or the delivery of
    SIGALRM, whose handler [ding] sets [stop]. *)
Inductive event : Type :=
  | Step (id : thread)
  | Ding.

(** [ding] *)
Definition ding (g : globals) : globals := mk_globals (qsbr g) (ds g) true.

(** The test under a schedule; a step of a thread that does not exist
    does nothing. *)
Fixpoint stress_run (DEBUG : bool) (sched : list event) (c : stress_config)
  : outcome stress_config :=
  match sched with
  | [] => Runs c
  | Ding :: sched' =>
      stress_run DEBUG sched' (mk_stress (ding (shared_globals c)) (threads c))
  | Step id :: sched' =>
      match threads c !! id with
      | None => stress_run DEBUG sched' c
      | Some pc =>
          perform '(pc', g) <- stress_step DEBUG id pc (shared_globals c);
          stress_run DEBUG sched' (mk_stress g (<[id := pc']> (threads c)))
      end
  end.

(** [run_test] clears [ds] and [stop]; the threads [ts] have registered
    on [qs] and are past the first [pthread_barrier_wait], with [n = 0]. *)
Definition stress_start (ts : list thread) (qs : qsbr_t) : stress_config :=
  mk_stress (mk_globals qs (replicate (Z.to_nat DS_COUNT) (mk_ds NULL 0 0)) false)
            (list_to_map ((fun t => (t, AtLoop 0)) <$> ts)).

(** *** What holds of every state of the test *)

(** The object a thread is at. *)
Definition pc_target (pc : stress_pc) : option Z :=
  match pc with
  | AtLoop n | WrVisible n | WrHide n | WrBarrier n | WrSyncLoad n _
  | WrSyncStore n _ _ | WrSyncHead n _ | WrScan n _ _ | WrScanLess n _ _
  | WrScanNext n _ _ | WrRetire n | WrSetPtr n | WrShow n | RdVisible n
  | RdDeref n | RdCkLoad n | RdCkStore n _ => Some n
  | FinCkLoad | FinCkStore _ | AtBarrier => None
  end.

(** The epoch a checkpoint has read and is about to write. *)
Definition pending_epoch (pc : stress_pc) : option Z :=
  match pc with
  | WrSyncStore _ _ e | RdCkStore _ e | FinCkStore e => Some e
  | _ => None
  end.

(** The code of [qsbr_writer], which only the thread with id 0 runs, and
    the code only the other threads run. *)
Definition writer_pc (pc : stress_pc) : bool :=
  match pc with
  | WrVisible _ | WrHide _ | WrBarrier _ | WrSyncLoad _ _ | WrSyncStore _ _ _
  | WrSyncHead _ _ | WrScan _ _ _ | WrScanLess _ _ _ | WrScanNext _ _ _
  | WrRetire _ | WrSetPtr _ | WrShow _ => true
  | _ => false
  end.

Definition reader_pc (pc : stress_pc) : bool :=
  match pc with
  | RdVisible _ | RdDeref _ | RdCkLoad _ | RdCkStore _ _ => true
  | _ => false
  end.

(** The object the writer has hidden and not yet retired: it is in
    [wait]. *)
Definition hiding (pc : stress_pc) : option Z :=
  match pc with
  | WrBarrier n | WrSyncLoad n _ | WrSyncStore n _ _ | WrSyncHead n _
  | WrScan n _ _ | WrScanLess n _ _ | WrScanNext n _ _ => Some n
  | _ => None
  end.

(** The epoch [wait] is waiting for, once its barrier is issued. *)
Definition wait_epoch (pc : stress_pc) : option Z :=
  match pc with
  | WrSyncLoad _ e | WrSyncStore _ e _ | WrSyncHead _ e | WrScan _ e _
  | WrScanLess _ e _ | WrScanNext _ e _ => Some e
  | _ => None
  end.

(** The records [rem] of the registry [l] that the current poll of the
    writer has not found up to date yet. *)
Definition unpassed (h : gmap loc qsbr_tls_t) (l : list loc) (pc : stress_pc)
    (rem : list loc) : Prop :=
  match pc with
  | WrScan _ _ t => (exists l1, l = l1 ++ rem) /\ chain h t rem
  | WrScanLess _ _ p => exists l1 l2, l = l1 ++ p :: l2 /\ rem = p :: l2
  | WrScanNext _ _ p => exists l1, l = l1 ++ p :: rem
  | _ => rem = l
  end.

Definition slot (n : Z) (c : stress_config) : option data_struct_t :=
  ds (shared_globals c) !! Z.to_nat n.

(** What the writer knows of its object at each point of [qsbr_writer],
    and of the epoch it waits for. *)
Definition writer_stage (pc : stress_pc) (c : stress_config) : Prop :=
  match pc with
  | WrHide n => exists d, slot n c = Some d /\ visible d <> 0
  | WrRetire n | WrSetPtr n => exists d, slot n c = Some d /\ visible d = 0
  | WrShow n =>
      exists d, slot n c = Some d /\ visible d = 0 /\ ptr d = addr_magic_val
  | _ =>
      match hiding pc with
      | Some n =>
          exists d, slot n c = Some d /\ visible d = 0 /\
            ptr d = addr_magic_val
      | None => True
      end
  end /\
  match wait_epoch pc with
  | Some e => e = global_epoch (qsbr (shared_globals c))
  | None => True
  end.

(** The reader [u] has found the object [n] visible and the writer has
    hidden it since: the writer is in [wait], the record of [u] is among
    those its poll has yet to pass, and it holds an epoch below the one
    the writer waits for. *)
Definition waited_for (l : list loc) (c : stress_config) (u : thread) (n : Z)
  : Prop :=
  exists pcw rem p r,
    threads c !! 0%nat = Some pcw /\
    hiding pcw = Some n /\
    unpassed (mem (qsbr (shared_globals c))) l pcw rem /\
    tls_key (qsbr (shared_globals c)) !! u = Some p /\
    p ∈ rem /\
    mem (qsbr (shared_globals c)) !! p = Some r /\
    forall e, wait_epoch pcw = Some e -> local_epoch r < e.

(** A reader about to read through the pointer of the object [n]: the
    object is visible, or the writer is waiting for this reader. *)
Definition reader_safe (l : list loc) (c : stress_config) (u : thread) (n : Z)
  : Prop :=
  (exists d, slot n c = Some d /\ visible d <> 0) \/ waited_for l c u n.

Definition thread_ok (l : list loc) (c : stress_config) (t : thread)
    (pc : stress_pc) : Prop :=
  (forall n, pc_target pc = Some n -> 0 <= n < DS_COUNT) /\
  (writer_pc pc = true -> t = 0%nat) /\
  (reader_pc pc = true -> t <> 0%nat) /\
  (forall e, pending_epoch pc = Some e ->
     e <> OFFLINE_EPOCH /\ e <= global_epoch (qsbr (shared_globals c))) /\
  (exists p, tls_key (qsbr (shared_globals c)) !! t = Some p /\ p ∈ l) /\
  writer_stage pc c /\
  (exists rem, unpassed (mem (qsbr (shared_globals c))) l pc rem) /\
  (forall n, pc = RdDeref n -> reader_safe l c t n).

(** The registry is the list [l] and does not change during the test; no
    record holds the sentinel or an epoch above the global epoch; an
    object that is visible has its pointer set. *)
Definition stress_inv (l : list loc) (c : stress_config) : Prop :=
  chain (mem (qsbr (shared_globals c))) (qs_list (qsbr (shared_globals c))) l /\
  tls_inj (qsbr (shared_globals c)) /\
  OFFLINE_EPOCH < global_epoch (qsbr (shared_globals c)) /\
  (forall p r, p ∈ l -> mem (qsbr (shared_globals c)) !! p = Some r ->
     local_epoch r <> OFFLINE_EPOCH /\
     local_epoch r <= global_epoch (qsbr (shared_globals c))) /\
  length (ds (shared_globals c)) = Z.to_nat DS_COUNT /\
  (forall i d, ds (shared_globals c) !! i = Some d ->
     visible d <> 0 -> ptr d = addr_magic_val) /\
  (forall t pc, threads c !! t = Some pc -> thread_ok l c t pc).

(** The step of [t] at [pc] does not crash, keeps [stress_inv], and
    advances the global epoch by one at most. *)
Definition step_ok (DEBUG : bool) (l : list loc) (c : stress_config)
    (t : thread) (pc : stress_pc) : Prop :=
  exists pc' g',
    stress_step DEBUG t pc (shared_globals c) = Runs (pc', g') /\
    stress_inv l (mk_stress g' (<[t := pc']> (threads c))) /\
    global_epoch (qsbr (shared_globals c)) <= global_epoch (qsbr g') /\
    global_epoch (qsbr g') <= global_epoch (qsbr (shared_globals c)) + 1.

(** A schedule of the test with a writer and one reader: the writer
    publishes the object 1, the reader finds it visible and is about to
    read through its pointer. *)
Definition publish_then_read : list event :=
  [Step 0%nat; Step 0%nat; Step 0%nat; Step 0%nat; Step 1%nat; Step 1%nat].



(** ** Basic facts *)

Lemma graceb_spec target r : graceb target r = true <-> grace target r.
Proof.
  unfold graceb, grace.
  rewrite orb_true_iff, Z.eqb_eq, Z.leb_le. reflexivity.
Qed.

(** The test of the scan, [local_epoch != 1 && local_epoch < target], is
    the negation of [grace]. *)
Lemma scan_test_spec target r :
  negb (local_epoch r =? 1) && (local_epoch r <? target) = false
  <-> grace target r.
Proof.
  unfold grace, OFFLINE_EPOCH.
  destruct (Z.eqb_spec (local_epoch r) 1), (Z.ltb_spec (local_epoch r) target);
    simpl; split; intros; try tauto; try lia; try discriminate.
Qed.

Lemma scan_test_fails target r :
  ~ grace target r ->
  negb (local_epoch r =? 1) && (local_epoch r <? target) = true.
Proof.
  intros Hg.
  destruct (negb (local_epoch r =? 1) && (local_epoch r <? target)) eqn:E;
    [done|]. apply scan_test_spec in E. contradiction.
Qed.

(** *** Segments of the registry *)

Lemma chain_functional h t l1 l2 : chain h t l1 -> chain h t l2 -> l1 = l2.
Proof.
  unfold chain. revert t l2.
  induction l1 as [|p l1 IH]; intros t [|q l2]; simpl.
  - reflexivity.
  - intros -> [? _]. discriminate.
  - intros [-> _] ?. discriminate.
  - intros [-> (r & Hr & Hc)] [[= <-] (r' & Hr' & Hc')].
    rewrite Hr in Hr'. injection Hr' as <-.
    f_equal. eapply IH; eassumption.
Qed.

Lemma seg_live h t l u q : seg h t l u -> q ∈ l -> is_Some (h !! q).
Proof.
  revert t. induction l as [|p l IH]; intros t Hc Hq; simpl in Hc.
  - inversion Hq.
  - destruct Hc as [-> (r & Hr & Hc)].
    apply elem_of_cons in Hq as [-> | Hq]; [eauto | eapply IH; eauto].
Qed.

(** A segment only depends on the links of the records it visits. *)
Lemma seg_same_links h h' t l u :
  (forall q, q ∈ l -> next <$> (h' !! q) = next <$> (h !! q)) ->
  seg h t l u -> seg h' t l u.
Proof.
  revert t. induction l as [|p l IH]; intros t Hl; simpl; [done|].
  intros [-> (r & Hr & Hs)]. split; [done|].
  pose proof (Hl p ltac:(left)) as Hp. rewrite Hr in Hp. simpl in Hp.
  destruct (h' !! p) as [r'|] eqn:Hr'; [|discriminate].
  injection Hp as Hp. exists r'. split; [done|]. rewrite Hp.
  apply IH; [|done]. intros q Hq. apply Hl. by right.
Qed.

(** Storing an epoch leaves every link as it was, so the registry is the
    same list afterwards. *)
Lemma seg_store_epoch h t l u p r e :
  h !! p = Some r ->
  seg h t l u -> seg (<[p := mk_tls e (next r)]> h) t l u.
Proof.
  intros Hp. apply seg_same_links. intros q _.
  destruct (decide (p = q)) as [<-|Hne].
  - by rewrite lookup_insert_eq, Hp.
  - by rewrite lookup_insert_ne.
Qed.

(** A record that the segment does not visit may change freely. *)
Lemma seg_insert_other h t l u p r :
  p ∉ l -> seg h t l u -> seg (<[p := r]> h) t l u.
Proof.
  intros Hp. apply seg_same_links. intros q Hq.
  rewrite lookup_insert_ne; [done|]. intros <-. contradiction.
Qed.

(** The prefix of a segment up to the first visit of its end point. *)
Lemma seg_first h t l p :
  seg h t l (Some p) -> exists l', seg h t l' (Some p) /\ p ∉ l'.
Proof.
  revert t. induction l as [|q l IH]; intros t; simpl.
  - intros ->. exists []. split; [done|]. apply not_elem_of_nil.
  - intros [-> (r & Hr & Hs)]. destruct (decide (q = p)) as [->|Hne].
    + exists []. split; [done|]. apply not_elem_of_nil.
    + apply IH in Hs as (l' & Hs & Hn). exists (q :: l'). split.
      * simpl. split; [done|]. exists r. done.
      * intros [?|?]%elem_of_cons; congruence.
Qed.

Lemma walk_chain fuel h t l : walk fuel h t = Some l -> chain h t l.
Proof.
  unfold chain. revert t l. induction fuel as [|fuel IH]; intros [p|] l; simpl;
    try discriminate; try (intros [= <-]; done).
  destruct (h !! p) as [r|] eqn:Hr; [|discriminate].
  destruct (walk fuel h (next r)) as [l'|] eqn:Hw; [|discriminate].
  intros [= <-]. simpl. split; [done|]. exists r. split; [done|]. by apply IH.
Qed.

Lemma chain_walk fuel h t l :
  chain h t l -> (length l <= fuel)%nat -> walk fuel h t = Some l.
Proof.
  unfold chain. revert fuel t. induction l as [|p l IH]; intros fuel t; simpl.
  - intros -> _. by destruct fuel.
  - intros [-> (r & Hr & Hc)] Hlen. destruct fuel as [|fuel]; [lia|].
    simpl. rewrite Hr. rewrite (IH fuel) by (done || lia). done.
Qed.

(** *** The registry scan *)

(** On a registry that is a list the scan returns, given one unit of fuel
    per record, and its answer is the conjunction of the test over the
    records. *)
Lemma sync_scan_chain fuel h t l target :
  chain h t l -> (length l <= fuel)%nat ->
  exists b, sync_scan fuel h t target = Ok b /\
    (b = true <->
     Forall (fun q => exists r, h !! q = Some r /\ grace target r) l).
Proof.
  unfold chain. revert fuel t. induction l as [|p l IH]; intros fuel t; simpl.
  - intros -> _. exists true.
    split; [by destruct fuel|]. split; [constructor | done].
  - intros [-> (r & Hr & Hc)] Hlen. destruct fuel as [|fuel]; [lia|].
    simpl. rewrite Hr. simpl.
    destruct (negb (local_epoch r =? 1) && (local_epoch r <? target)) eqn:Ht.
    + exists false. split; [done|]. split; [discriminate|].
      intros HF. apply Forall_cons in HF as [(r' & Hr' & Hg) _].
      rewrite Hr in Hr'. injection Hr' as <-.
      apply scan_test_spec in Hg. congruence.
    + destruct (IH fuel (next r) Hc) as (b & Hb & Hiff); [lia|].
      exists b. split; [done|]. rewrite Hiff. split.
      * intros HF. apply Forall_cons. split; [|done].
        exists r. split; [done|]. by apply scan_test_spec.
      * intros HF. by apply Forall_cons in HF as [_ HF].
Qed.

(** A record that fails the test and is linked through live records makes
    the scan answer false, whatever comes after it. *)
Lemma sync_scan_seg_false fuel h t l p r target :
  seg h t l (Some p) -> h !! p = Some r -> ~ grace target r ->
  (length l < fuel)%nat ->
  sync_scan fuel h t target = Ok false.
Proof.
  intros Hs Hp Hg. revert fuel t Hs.
  induction l as [|q l IH]; intros fuel t; simpl.
  - intros -> Hlen. destruct fuel as [|fuel]; [lia|].
    simpl. rewrite Hp. simpl. by rewrite scan_test_fails.
  - intros [-> (rq & Hq & Hs)] Hlen. destruct fuel as [|fuel]; [lia|].
    simpl. rewrite Hq. simpl.
    destruct (negb (local_epoch rq =? 1) && (local_epoch rq <? target));
      [done|]. apply IH; [done | lia].
Qed.

(** On a cycle whose records all pass the test the scan never leaves the
    loop: no amount of fuel makes it return. *)
Lemma sync_scan_cycle h p c target :
  cycle h p c ->
  Forall (fun q => exists r, h !! q = Some r /\ grace target r) (p :: c) ->
  forall fuel, sync_scan fuel h (Some p) target = NoFuel.
Proof.
  intros Hcyc HF.
  assert (Hgen : forall fuel t l1 l2,
    p :: c = l1 ++ l2 -> seg h t l2 (Some p) ->
    sync_scan fuel h t target = NoFuel).
  { induction fuel as [|fuel IH]; intros t l1 l2 Hsplit Hs.
    - destruct l2 as [|q l2]; simpl in Hs.
      + by subst t.
      + by destruct Hs as [-> _].
    - assert (Hstep : forall q l2' l1', p :: c = l1' ++ q :: l2' ->
        seg h (Some q) (q :: l2') (Some p) ->
        sync_scan (S fuel) h (Some q) target = NoFuel).
      { intros q l2' l1' Hsp [_ (r & Hr & Hs')]. simpl. rewrite Hr. simpl.
        assert (Hq : q ∈ p :: c).
        { rewrite Hsp. apply elem_of_app. right. by left. }
        rewrite Forall_forall in HF. destruct (HF q Hq) as (r' & Hr' & Hg).
        rewrite Hr in Hr'. injection Hr' as <-.
        apply scan_test_spec in Hg. rewrite Hg.
        apply (IH _ (l1' ++ [q]) l2'); [|done].
        by rewrite <- app_assoc. }
      destruct l2 as [|q l2]; simpl in Hs.
      + subst t. apply (Hstep p c []); done.
      + destruct Hs as [-> Hs]. apply (Hstep q l2 l1); [done|].
        split; done. }
  intros fuel. apply (Hgen fuel (Some p) [] (p :: c)); done.
Qed.

(** *** The calls, one by one *)

Lemma checkpoint_registered DEBUG tid qs p r :
  tls_key qs !! tid = Some p -> mem qs !! p = Some r ->
  qsbr_checkpoint DEBUG tid qs =
    Ok (set_mem (<[p := mk_tls (global_epoch qs) (next r)]> (mem qs)) qs).
Proof.
  intros Ht Hp. unfold qsbr_checkpoint, pthread_getspecific, ASSERT.
  rewrite Ht. rewrite bool_decide_true by done.
  rewrite andb_false_r. simpl. unfold store_local_epoch. simpl.
  rewrite Hp. reflexivity.
Qed.

(** [qsbr_checkpoint], [qsbr_thread_offline] and [qsbr_thread_online] are
    one assertion followed by one store of an epoch. *)
Lemma publish_inv DEBUG tid e qs qs' :
  (do _ <- ASSERT DEBUG (bool_decide (pthread_getspecific qs tid ≠ None));
   store_local_epoch (pthread_getspecific qs tid) e qs) = Ok qs' ->
  exists p r, tls_key qs !! tid = Some p /\ mem qs !! p = Some r /\
    qs' = set_mem (<[p := mk_tls e (next r)]> (mem qs)) qs.
Proof.
  unfold pthread_getspecific, ASSERT, store_local_epoch.
  destruct (tls_key qs !! tid) as [p|] eqn:Ht.
  - rewrite bool_decide_true by done. rewrite andb_false_r. simpl.
    destruct (mem qs !! p) as [r|] eqn:Hp; simpl; [|discriminate].
    intros [= <-]. eauto.
  - rewrite bool_decide_false by (intros H; by apply H).
    destruct DEBUG; simpl; discriminate.
Qed.

Lemma publish_registered DEBUG tid e qs p r :
  tls_key qs !! tid = Some p -> mem qs !! p = Some r ->
  (do _ <- ASSERT DEBUG (bool_decide (pthread_getspecific qs tid ≠ None));
   store_local_epoch (pthread_getspecific qs tid) e qs)
  = Ok (set_mem (<[p := mk_tls e (next r)]> (mem qs)) qs).
Proof.
  intros Ht Hp. unfold pthread_getspecific, ASSERT, store_local_epoch.
  rewrite Ht. rewrite bool_decide_true by done. rewrite andb_false_r. simpl.
  rewrite Hp. reflexivity.
Qed.

(** Without a record under the key the assertion fails; where it is
    compiled out, the store goes through NULL. *)
Lemma publish_unregistered DEBUG tid e qs :
  tls_key qs !! tid = None ->
  (do _ <- ASSERT DEBUG (bool_decide (pthread_getspecific qs tid ≠ None));
   store_local_epoch (pthread_getspecific qs tid) e qs)
  = Fault (if DEBUG then AssertFailed else NullDeref).
Proof.
  intros Ht. unfold pthread_getspecific, ASSERT, store_local_epoch.
  rewrite Ht. rewrite bool_decide_false by (intros H; by apply H).
  by destruct DEBUG.
Qed.

Lemma checkpoint_inv DEBUG tid qs qs' :
  qsbr_checkpoint DEBUG tid qs = Ok qs' ->
  exists p r, tls_key qs !! tid = Some p /\ mem qs !! p = Some r /\
    qs' = set_mem (<[p := mk_tls (global_epoch qs) (next r)]> (mem qs)) qs.
Proof. apply publish_inv. Qed.

Lemma thread_offline_inv DEBUG tid qs qs' :
  qsbr_thread_offline DEBUG tid qs = Ok qs' ->
  exists p r, tls_key qs !! tid = Some p /\ mem qs !! p = Some r /\
    qs' = set_mem (<[p := mk_tls 1 (next r)]> (mem qs)) qs.
Proof. apply publish_inv. Qed.

Lemma sync_inv DEBUG fuel tid target qs b qs' :
  qsbr_sync DEBUG fuel tid target qs = Ok (b, qs') ->
  qsbr_checkpoint DEBUG tid qs = Ok qs' /\
  sync_scan fuel (mem qs') (qs_list qs') target = Ok b.
Proof.
  unfold qsbr_sync. destruct (qsbr_checkpoint DEBUG tid qs) as [qs1| |];
    simpl; try discriminate.
  destruct (sync_scan fuel (mem qs1) (qs_list qs1) target) as [b'| |] eqn:Hs;
    simpl; try discriminate.
  intros [= <- <-]. done.
Qed.

Lemma local_epoch_of_store qs tid p r e :
  tls_key qs !! tid = Some p ->
  local_epoch_of (set_mem (<[p := mk_tls e (next r)]> (mem qs)) qs) tid
  = Some e.
Proof.
  intros Ht. unfold local_epoch_of. simpl. rewrite Ht.
  by rewrite lookup_insert_eq.
Qed.

(** *** Registration *)

(** The compare-and-swap loop, run alone, succeeds at its first attempt:
    the head it has just read is still the head. *)
Lemma register_loop_spec fuel t qs r :
  mem qs !! t = Some r ->
  register_loop (S fuel) t qs
  = Ok (set_qs_list (Some t)
          (set_mem (<[t := mk_tls (local_epoch r) (qs_list qs)]> (mem qs)) qs)).
Proof.
  intros Hr. simpl. unfold store_next. simpl. rewrite Hr. simpl.
  unfold atomic_compare_exchange_weak. simpl.
  case_decide; [reflexivity | done].
Qed.

(** What [qsbr_register] does, case by case. *)
Lemma qsbr_register_spec fuel tid m qs :
  qsbr_register (S fuel) tid m qs =
  match tls_key qs !! tid with
  | None =>
      match m with
      | None => Ok (ENOMEM, qs)
      | Some p => Ok (0, registered_state tid p qs)
      end
  | Some t =>
      match mem qs !! t with
      | None => Fault UseAfterFree
      | Some _ => Ok (0, registered_state tid t qs)
      end
  end.
Proof.
  unfold qsbr_register, pthread_getspecific.
  destruct (tls_key qs !! tid) as [t|] eqn:Ht.
  - unfold memset_zero. simpl.
    destruct (mem qs !! t) as [r|] eqn:Hr; simpl; [|done].
    unfold store_next. simpl. rewrite lookup_insert_eq. simpl.
    unfold atomic_compare_exchange_weak. simpl.
    case_decide; [|done]. unfold registered_state, set_qs_list. simpl.
    rewrite insert_insert_eq. by rewrite (insert_id (tls_key qs) tid t).
  - destruct m as [p|]; [|done].
    unfold memset_zero, malloc_at. simpl. rewrite lookup_insert_eq. simpl.
    unfold store_next. simpl. rewrite lookup_insert_eq. simpl.
    unfold atomic_compare_exchange_weak. simpl.
    case_decide; [|done]. unfold registered_state, set_qs_list. simpl.
    by rewrite !insert_insert_eq.
Qed.

(** Without fuel the loop does not even make its first attempt. *)
Lemma qsbr_register_no_fuel tid m qs rc qs' :
  qsbr_register 0 tid m qs = Ok (rc, qs') ->
  tls_key qs !! tid = None /\ m = None /\ rc = ENOMEM /\ qs' = qs.
Proof.
  unfold qsbr_register, pthread_getspecific.
  destruct (tls_key qs !! tid) as [t|] eqn:Ht.
  - unfold memset_zero. simpl. destruct (mem qs !! t); simpl; discriminate.
  - destruct m as [p|].
    + unfold memset_zero, malloc_at. simpl. rewrite lookup_insert_eq. simpl.
      discriminate.
    + intros [= <- <-]. done.
Qed.

Lemma qsbr_register_inv fuel tid m qs rc qs' :
  qsbr_register fuel tid m qs = Ok (rc, qs') ->
  (rc = ENOMEM /\ qs' = qs /\ tls_key qs !! tid = None /\ m = None)
  \/ (rc = 0 /\ exists p, qs' = registered_state tid p qs /\
       ((tls_key qs !! tid = None /\ m = Some p)
        \/ (tls_key qs !! tid = Some p /\ is_Some (mem qs !! p)))).
Proof.
  destruct fuel as [|fuel].
  - intros H. apply qsbr_register_no_fuel in H as (? & ? & ? & ?). left. done.
  - rewrite qsbr_register_spec.
    destruct (tls_key qs !! tid) as [t|] eqn:Ht.
    + destruct (mem qs !! t) as [r|] eqn:Hr; [|discriminate].
      intros [= <- <-]. right. split; [done|]. exists t. split; [done|].
      right. eauto.
    + destruct m as [p|]; intros [= <- <-].
      * right. split; [done|]. exists p. split; [done|]. left. done.
      * left. done.
Qed.

(** *** The effect of a call *)

Lemma publish_published DEBUG tid e qs qs' :
  (do _ <- ASSERT DEBUG (bool_decide (pthread_getspecific qs tid ≠ None));
   store_local_epoch (pthread_getspecific qs tid) e qs) = Ok qs' ->
  published tid e qs qs'.
Proof. apply publish_inv. Qed.

Lemma published_twice tid e qs qs1 qs2 :
  published tid e qs qs1 -> published tid e qs1 qs2 -> qs2 = qs1.
Proof.
  intros (p & r & Ht & Hp & ->) (p' & r' & Ht' & Hp' & ->). simpl in *.
  rewrite Ht in Ht'. injection Ht' as <-.
  rewrite lookup_insert_eq in Hp'. injection Hp' as <-. simpl.
  unfold set_mem. simpl. by rewrite insert_insert_eq.
Qed.

Lemma wait_loop_published DEBUG polls fuel tid e qs qs' :
  global_epoch qs = e ->
  wait_loop DEBUG polls fuel tid e qs = Ok qs' -> published tid e qs qs'.
Proof.
  intros He. revert qs He.
  induction polls as [|polls IH]; intros qs He; simpl; [discriminate|].
  destruct (qsbr_sync DEBUG fuel tid e qs) as [[b qs1]| |] eqn:Hs;
    simpl; try discriminate.
  apply sync_inv in Hs as [Hck _]. apply publish_published in Hck.
  rewrite He in Hck. destruct b.
  - by intros [= <-].
  - intros Hw. apply IH in Hw.
    + by rewrite (published_twice _ _ _ _ _ Hck Hw).
    + destruct Hck as (p & r & _ & _ & ->). done.
Qed.

Lemma exec_effect DEBUG fuel polls o qs v qs' :
  exec DEBUG fuel polls o qs = Ok (v, qs') -> effect o v qs qs'.
Proof.
  destruct o as [tid m|tid|tid|tid| |tid target|tid|tid|tid]; simpl.
  - destruct (qsbr_register fuel tid m qs) as [[rc qs1]| |] eqn:Hr;
      simpl; try discriminate.
    intros [= <- <-].
    apply qsbr_register_inv in Hr as [(-> & H)|(-> & H)]; [left | right]; done.
  - by intros [= <- <-].
  - destruct (qsbr_checkpoint DEBUG tid qs) as [qs1| |] eqn:Hc;
      simpl; try discriminate.
    intros [= <- <-]. split; [done|]. by apply publish_published in Hc.
  - unfold qsbr_get_epoch, pthread_getspecific, ASSERT, local_epoch_of.
    destruct (tls_key qs !! tid) as [p|] eqn:Ht.
    + rewrite bool_decide_true by done. rewrite andb_false_r. simpl.
      destruct (mem qs !! p) as [r|]; simpl; [|discriminate].
      intros [= <- <-]. eauto.
    + rewrite bool_decide_false by (intros H; by apply H).
      destruct DEBUG; simpl; discriminate.
  - by intros [= <- <-].
  - destruct (qsbr_sync DEBUG fuel tid target qs) as [[b qs1]| |] eqn:Hs;
      simpl; try discriminate.
    intros [= <- <-]. apply sync_inv in Hs as [Hc _].
    split; [eauto|]. by apply publish_published in Hc.
  - destruct (qsbr_wait DEBUG polls fuel tid qs) as [qs1| |] eqn:Hw;
      simpl; try discriminate.
    intros [= <- <-]. split; [done|]. unfold qsbr_wait in Hw. simpl in Hw.
    by apply wait_loop_published in Hw.
  - destruct (qsbr_thread_offline DEBUG tid qs) as [qs1| |] eqn:Hc;
      simpl; try discriminate.
    intros [= <- <-]. split; [done|]. by apply publish_published in Hc.
  - destruct (qsbr_thread_online DEBUG tid qs) as [qs1| |] eqn:Hc;
      simpl; try discriminate.
    intros [= <- <-]. split; [done|]. by apply publish_published in Hc.
Qed.

(** *** The global epoch along a call *)

(** Only [qsbr_barrier], and [qsbr_wait] through it, write the global
    epoch. *)
Lemma exec_global_epoch DEBUG fuel polls o qs v qs' :
  exec DEBUG fuel polls o qs = Ok (v, qs') ->
  global_epoch qs' =
    if advances_epoch o then wrap64 (global_epoch qs + 1) else global_epoch qs.
Proof.
  intros Hex. apply exec_effect in Hex.
  destruct o as [tid m|tid|tid|tid| |tid target|tid|tid|tid]; simpl in *.
  - by destruct Hex as [(_ & -> & _)|(_ & p & -> & _)].
  - destruct Hex as [_ ->]. unfold qsbr_unregister, pthread_getspecific.
    by destruct (tls_key qs !! tid).
  - by destruct Hex as (_ & p & r & _ & _ & ->).
  - by destruct Hex as (e & _ & -> & _).
  - by destruct Hex as [_ ->].
  - by destruct Hex as (_ & p & r & _ & _ & ->).
  - by destruct Hex as (_ & p & r & _ & _ & ->).
  - by destruct Hex as (_ & p & r & _ & _ & ->).
  - by destruct Hex as (_ & p & r & _ & _ & ->).
Qed.

(** *** The global epoch along a run *)

Lemma wrap64_small e : epoch_in_range e -> wrap64 e = e.
Proof. intros H. unfold wrap64. by apply Z.mod_small. Qed.

Lemma wrap64_in_range e : epoch_in_range (wrap64 e).
Proof. unfold wrap64, epoch_in_range. by apply Z.mod_pos_bound. Qed.

Lemma barriers_cons o v tr :
  barriers ((o, v) :: tr)
  = ((if advances_epoch o then 1 else 0) + barriers tr)%nat.
Proof. unfold barriers. simpl. by destruct (advances_epoch o). Qed.

(** As long as the counter does not wrap, the global epoch after a run is
    the one before plus the number of barriers issued. *)
Lemma run_global_epoch DEBUG fuel polls G qs tr qs' :
  run_where DEBUG fuel polls G qs tr qs' ->
  0 <= global_epoch qs ->
  global_epoch qs + Z.of_nat (barriers tr) < EPOCH_MODULUS ->
  global_epoch qs' = global_epoch qs + Z.of_nat (barriers tr).
Proof.
  induction 1 as [qs|qs o v qs1 tr qs2 _ _ Hex _ IH]; intros Hlo Hhi.
  - unfold barriers. simpl. lia.
  - rewrite barriers_cons in Hhi |- *.
    apply exec_global_epoch in Hex.
    assert (Hstep : global_epoch qs1
      = global_epoch qs + Z.of_nat (if advances_epoch o then 1 else 0)).
    { rewrite Hex. destruct (advances_epoch o); [|simpl; lia].
      rewrite wrap64_small; [simpl; lia|]. unfold epoch_in_range. lia. }
    rewrite IH; lia.
Qed.

(** Any number of barriers can be issued in a row. *)
Lemma barriers_run DEBUG fuel polls n :
  forall qs, epoch_in_range (global_epoch qs) ->
  run DEBUG fuel polls qs (barrier_trace (global_epoch qs) n)
    (set_global_epoch (wrap64 (global_epoch qs + Z.of_nat n)) qs).
Proof.
  induction n as [|n IH]; intros qs Hr.
  - simpl. rewrite Z.add_0_r, wrap64_small by done.
    destruct qs. apply run_nil.
  - simpl barrier_trace.
    eapply run_cons; [done | done | reflexivity |].
    replace (set_global_epoch (wrap64 (global_epoch qs + Z.of_nat (S n))) qs)
      with (set_global_epoch
              (wrap64 (global_epoch
                         (set_global_epoch (wrap64 (global_epoch qs + 1)) qs)
                       + Z.of_nat n))
              (set_global_epoch (wrap64 (global_epoch qs + 1)) qs)).
    + apply IH. simpl. apply wrap64_in_range.
    + unfold set_global_epoch. simpl. f_equal.
      unfold wrap64. rewrite Z.add_mod_idemp_l by done.
      f_equal. lia.
Qed.

(** *** The records under the key *)

Lemma tls_ok_fresh : tls_ok fresh_qsbr.
Proof.
  split.
  - intros tid p H. simpl in H. by rewrite lookup_empty in H.
  - intros t1 t2 p H. simpl in H. by rewrite lookup_empty in H.
Qed.

Lemma tls_ok_published tid e qs qs' :
  published tid e qs qs' -> tls_ok qs -> tls_ok qs'.
Proof.
  intros (p & r & Ht & Hp & ->) [Hl Hi]. split.
  - intros t q Hq. simpl in *. apply Hl in Hq as [rq Hq].
    destruct (decide (p = q)) as [<-|Hne].
    + rewrite lookup_insert_eq. eauto.
    + rewrite lookup_insert_ne by done. eauto.
  - exact Hi.
Qed.

Lemma tls_ok_set_global_epoch e qs : tls_ok qs -> tls_ok (set_global_epoch e qs).
Proof. intros [Hl Hi]. split; [exact Hl | exact Hi]. Qed.

Lemma tls_ok_registered tid p qs :
  tls_ok qs ->
  (tls_key qs !! tid = None /\ mem qs !! p = None)
  \/ tls_key qs !! tid = Some p ->
  tls_ok (registered_state tid p qs).
Proof.
  intros [Hl Hi] Hcase. split.
  - intros t q. simpl. destruct (decide (tid = t)) as [<-|Hne].
    + rewrite lookup_insert_eq. intros [= <-]. rewrite lookup_insert_eq. eauto.
    + rewrite lookup_insert_ne by done. intros Hq.
      apply Hl in Hq as [rq Hq]. destruct (decide (p = q)) as [<-|Hpq].
      * rewrite lookup_insert_eq. eauto.
      * rewrite lookup_insert_ne by done. eauto.
  - assert (Hown : forall t, t <> tid -> tls_key qs !! t = Some p -> False).
    { intros t Hne Ht. destruct Hcase as [[_ Hfresh]|Htid].
      - apply Hl in Ht as [r Hr]. congruence.
      - apply Hne. eapply Hi; eassumption. }
    intros t1 t2 q. simpl.
    destruct (decide (tid = t1)) as [<-|H1], (decide (tid = t2)) as [<-|H2];
      rewrite ?lookup_insert_eq, ?lookup_insert_ne by done.
    + done.
    + intros [= <-] H. exfalso. eapply Hown; [|exact H]. congruence.
    + intros H [= <-]. exfalso. eapply Hown; [|exact H]. congruence.
    + apply Hi.
Qed.

Lemma tls_ok_unregister tid qs : tls_ok qs -> tls_ok (qsbr_unregister tid qs).
Proof.
  intros [Hl Hi]. unfold qsbr_unregister, pthread_getspecific.
  destruct (tls_key qs !! tid) as [p|] eqn:Ht; simpl; split.
  - intros t q. simpl. destruct (decide (tid = t)) as [<-|Hne].
    + by rewrite lookup_delete_eq.
    + rewrite lookup_delete_ne by done. intros Hq.
      assert (p <> q) by (intros <-; apply Hne; eapply Hi; eassumption).
      rewrite lookup_delete_ne by done. eapply Hl; eassumption.
  - intros t1 t2 q. simpl. intros H1 H2.
    apply lookup_delete_Some in H1 as [_ H1].
    apply lookup_delete_Some in H2 as [_ H2]. eapply Hi; eassumption.
  - intros t q. simpl. intros Hq.
    apply lookup_delete_Some in Hq as [_ Hq]. eapply Hl; eassumption.
  - intros t1 t2 q. simpl. intros H1 H2.
    apply lookup_delete_Some in H1 as [_ H1].
    apply lookup_delete_Some in H2 as [_ H2]. eapply Hi; eassumption.
Qed.

(** Every call keeps the records under the key live and distinct. *)
Lemma exec_tls_ok DEBUG fuel polls o qs v qs' :
  malloc_fresh o qs ->
  exec DEBUG fuel polls o qs = Ok (v, qs') ->
  tls_ok qs -> tls_ok qs'.
Proof.
  intros Hfresh Hex Hok. apply exec_effect in Hex.
  destruct o as [tid m|tid|tid|tid| |tid target|tid|tid|tid]; simpl in *.
  - destruct Hex as [(_ & -> & _)|(_ & p & -> & Hcase)]; [done|].
    apply tls_ok_registered; [done|].
    destruct Hcase as [[Ht ->]|[Ht _]]; [left | right]; done.
  - destruct Hex as [_ ->]. by apply tls_ok_unregister.
  - destruct Hex as [_ H]. eapply tls_ok_published; eassumption.
  - by destruct Hex as (e & _ & -> & _).
  - destruct Hex as [_ ->]. by apply tls_ok_set_global_epoch.
  - destruct Hex as [_ H]. eapply tls_ok_published; eassumption.
  - destruct Hex as [_ H]. eapply tls_ok_published; [eassumption|].
    by apply tls_ok_set_global_epoch.
  - destruct Hex as [_ H]. eapply tls_ok_published; eassumption.
  - destruct Hex as [_ H]. eapply tls_ok_published; eassumption.
Qed.

Lemma run_tls_ok DEBUG fuel polls G qs tr qs' :
  run_where DEBUG fuel polls G qs tr qs' -> tls_ok qs -> tls_ok qs'.
Proof.
  induction 1 as [qs|qs o v qs1 tr qs2 _ Hf Hex _ IH]; [done|].
  intros Hok. apply IH. eapply exec_tls_ok; eassumption.
Qed.

Lemma run_ops_sound DEBUG fuel polls os qs tr qs' :
  run_ops DEBUG fuel polls os qs = Some (tr, qs') ->
  run DEBUG fuel polls qs tr qs'.
Proof.
  revert qs tr. induction os as [|o os IH]; intros qs tr; simpl.
  - intros [= <- <-]. apply run_nil.
  - destruct (malloc_freshb o qs) eqn:Hf; [|discriminate].
    destruct (exec DEBUG fuel polls o qs) as [[v qs1]| |] eqn:Hex;
      try discriminate.
    destruct (run_ops DEBUG fuel polls os qs1) as [[tr' qs2]|] eqn:Hr;
      [|discriminate].
    intros [= <- <-]. eapply run_cons; [done| |exact Hex|by apply IH].
    destruct o as [tid [p|]| | | | | | | |]; simpl in *; try done.
    by destruct (mem qs !! p).
Qed.

(** A call by another thread leaves the record of [R] as it is. *)
Lemma exec_other_record DEBUG fuel polls o qs v qs' R p :
  tls_ok qs ->
  malloc_fresh o qs ->
  exec DEBUG fuel polls o qs = Ok (v, qs') ->
  caller o <> Some R ->
  tls_key qs !! R = Some p ->
  tls_key qs' !! R = Some p /\ mem qs' !! p = mem qs !! p.
Proof.
  intros [Hl Hi] Hfresh Hex Hc HR. apply exec_effect in Hex.
  assert (Hpub : forall tid e qa qb, tid <> R ->
    tls_key qa = tls_key qs -> mem qa = mem qs ->
    published tid e qa qb ->
    tls_key qb !! R = Some p /\ mem qb !! p = mem qs !! p).
  { intros tid e qa qb Hne Hk Hm (q & r & Ht & Hq & ->). simpl.
    rewrite Hk, Hm in *. split; [done|].
    rewrite lookup_insert_ne; [done|]. intros ->. apply Hne.
    eapply Hi; eassumption. }
  destruct o as [tid m|tid|tid|tid| |tid target|tid|tid|tid]; simpl in *;
    try (assert (tid <> R) by congruence).
  - destruct Hex as [(_ & -> & _)|(_ & q & -> & Hcase)]; [done|]. simpl.
    rewrite lookup_insert_ne by done. split; [done|].
    rewrite lookup_insert_ne; [done|]. intros ->.
    destruct Hcase as [[_ ->]|[Ht _]].
    + apply Hl in HR as [r Hr]. congruence.
    + apply H. eapply Hi; eassumption.
  - destruct Hex as [_ ->]. unfold qsbr_unregister, pthread_getspecific.
    destruct (tls_key qs !! tid) as [q|] eqn:Ht; simpl;
      rewrite lookup_delete_ne by done; split; try done.
    rewrite lookup_delete_ne; [done|]. intros ->. apply H.
    eapply Hi; eassumption.
  - destruct Hex as [_ Hex]. by refine (Hpub _ _ _ _ H _ _ Hex).
  - by destruct Hex as (e & _ & -> & _).
  - by destruct Hex as [_ ->].
  - destruct Hex as [_ Hex]. by refine (Hpub _ _ _ _ H _ _ Hex).
  - destruct Hex as [_ Hex]. by refine (Hpub _ _ _ _ H _ _ Hex).
  - destruct Hex as [_ Hex]. by refine (Hpub _ _ _ _ H _ _ Hex).
  - destruct Hex as [_ Hex]. by refine (Hpub _ _ _ _ H _ _ Hex).
Qed.

(** *** The local epoch of a thread along a run *)

(** As long as the counter does not wrap, a call other than the ones by
    which [R] lowers its epoch leaves the local epoch of [R] where it is
    or raises it, and never above the global epoch. *)
Lemma exec_local_epoch DEBUG fuel polls o qs v qs' R e :
  tls_ok qs ->
  malloc_fresh o qs ->
  exec DEBUG fuel polls o qs = Ok (v, qs') ->
  lowers_epoch R o = false ->
  local_epoch_of qs R = Some e ->
  e <= global_epoch qs ->
  0 <= global_epoch qs ->
  global_epoch qs + (if advances_epoch o then 1 else 0) < EPOCH_MODULUS ->
  exists e', local_epoch_of qs' R = Some e' /\ e <= e' /\
    e' <= global_epoch qs'.
Proof.
  intros Hok Hfresh Hex Hlow He Hle Hlo Hhi.
  pose proof (exec_global_epoch _ _ _ _ _ _ _ Hex) as Hg.
  assert (Hg' : global_epoch qs' =
    global_epoch qs + (if advances_epoch o then 1 else 0)).
  { rewrite Hg. destruct (advances_epoch o); [|lia].
    apply wrap64_small. unfold epoch_in_range. lia. }
  destruct (decide (caller o = Some R)) as [Hc|Hc].
  - (* a call by R itself *)
    apply exec_effect in Hex.
    assert (Hpub : forall g qa, published R g qa qs' ->
      exists e', local_epoch_of qs' R = Some e' /\ e' = g).
    { intros g qa (p & r & Ht & Hp & ->). exists g. split; [|done].
      by apply local_epoch_of_store. }
    destruct o as [tid m|tid|tid|tid| |tid target|tid|tid|tid]; simpl in *;
      try discriminate; injection Hc as ->;
      try (rewrite bool_decide_true in Hlow by done; discriminate).
    + destruct Hex as [_ Hex]. apply Hpub in Hex as (e' & -> & ->).
      eexists. split; [done|]. lia.
    + destruct Hex as (e0 & _ & -> & _). exists e. split; [done|]. lia.
    + destruct Hex as [_ Hex]. apply Hpub in Hex as (e' & -> & ->).
      eexists. split; [done|]. lia.
    + destruct Hex as [_ Hex]. apply Hpub in Hex as (e' & -> & ->).
      eexists. split; [done|].
      rewrite wrap64_small by (unfold epoch_in_range; lia). lia.
    + destruct Hex as [_ Hex]. apply Hpub in Hex as (e' & -> & ->).
      eexists. split; [done|]. lia.
  - (* a call by another thread *)
    unfold local_epoch_of in He |- *.
    destruct (tls_key qs !! R) as [p|] eqn:Ht; [|discriminate].
    destruct (exec_other_record _ _ _ _ _ _ _ R p Hok Hfresh Hex Hc Ht)
      as [-> ->].
    destruct (mem qs !! p) as [r|]; [|discriminate].
    injection He as <-. eexists. split; [done|].
    destruct (advances_epoch o); lia.
Qed.

Lemma run_local_epoch DEBUG fuel polls G qs tr qs' R :
  run_where DEBUG fuel polls G qs tr qs' ->
  Forall (fun ev => lowers_epoch R (fst ev) = false) tr ->
  forall e,
  tls_ok qs ->
  local_epoch_of qs R = Some e ->
  e <= global_epoch qs ->
  0 <= global_epoch qs ->
  global_epoch qs + Z.of_nat (barriers tr) < EPOCH_MODULUS ->
  exists e', local_epoch_of qs' R = Some e' /\ e <= e' /\
    e' <= global_epoch qs'.
Proof.
  induction 1 as [qs|qs o v qs1 tr qs2 _ Hf Hex _ IH];
    intros HF e Hok He Hle Hlo Hhi.
  - exists e. split; [done|]. lia.
  - apply Forall_cons in HF as [Ho HF]. simpl in Ho.
    rewrite barriers_cons in Hhi.
    pose proof (exec_global_epoch _ _ _ _ _ _ _ Hex) as Hg.
    destruct (exec_local_epoch _ _ _ _ _ _ _ R e Hok Hf Hex Ho He Hle Hlo)
      as (e1 & He1 & Hle1 & Hge1).
    { destruct (advances_epoch o); lia. }
    assert (Hg1 : global_epoch qs1 =
      global_epoch qs + (if advances_epoch o then 1 else 0)).
    { rewrite Hg. destruct (advances_epoch o); [|lia].
      apply wrap64_small. unfold epoch_in_range. lia. }
    destruct (IH HF e1) as (e2 & He2 & Hle2 & Hge2); try done.
    + eapply exec_tls_ok; eassumption.
    + destruct (advances_epoch o); lia.
    + destruct (advances_epoch o); lia.
    + exists e2. split; [done|]. split; [lia | done].
Qed.

(** *** A record that has not published an epoch yet *)

Lemma waiting_record_weaken R p k k' qs :
  (k <= k')%nat -> waiting_record R p k qs -> waiting_record R p k' qs.
Proof.
  intros Hk (Ht & Hr & l & Hs & Hn & Hlen).
  split; [done|]. split; [done|]. exists l. split; [done|]. split; [done|]. lia.
Qed.


(** The calls of other threads that [undisturbed] allows keep the record
    linked, behind one more record at most. *)
Lemma exec_waiting_record DEBUG fuel polls o qs v qs' R p k :
  tls_ok qs ->
  malloc_fresh o qs ->
  exec DEBUG fuel polls o qs = Ok (v, qs') ->
  undisturbed R o qs ->
  waiting_record R p k qs ->
  waiting_record R p (S k) qs'.
Proof.
  intros Hok Hfresh Hex [Hc Hu] Hw.
  destruct Hw as (Ht & (r & Hr & Hr0) & l & Hs & Hn & Hlen).
  destruct (exec_other_record _ _ _ _ _ _ _ R p Hok Hfresh Hex Hc Ht)
    as [Ht' Hp'].
  split; [done|]. split; [exists r; by rewrite Hp'|].
  apply exec_effect in Hex. destruct Hok as [Hl Hi].
  assert (Hpub : forall tid e qa, tid <> R ->
    tls_key qa = tls_key qs -> mem qa = mem qs -> qs_list qa = qs_list qs ->
    published tid e qa qs' ->
    exists l', seg (mem qs') (qs_list qs') l' (Some p) /\ (p ∉ l') /\
      (length l' <= S k)%nat).
  { intros tid e qa Hne Hk Hm Hq (q & rq & Htq & Hrq & ->). simpl.
    rewrite Hk, Hm, Hq in *. exists l. split; [|split; [done | lia]].
    by apply seg_store_epoch. }
  destruct o as [tid m|tid|tid|tid| |tid target|tid|tid|tid]; simpl in *;
    try (assert (tid <> R) by congruence).
  - destruct Hex as [(_ & -> & _)|(_ & q & -> & Hcase)].
    { exists l. split; [done|]. split; [done | lia]. }
    destruct Hcase as [[_ ->]|[Hq _]]; [|congruence].
    assert (q <> p) by (intros ->; congruence).
    assert (q ∉ l).
    { intros Hin. destruct (seg_live _ _ _ _ _ Hs Hin) as [rq Hrq].
      congruence. }
    exists (q :: l). simpl. split; [|split].
    + split; [done|]. eexists. rewrite lookup_insert_eq. split; [done|].
      simpl. by apply seg_insert_other.
    + intros [?|?]%elem_of_cons; congruence.
    + lia.
  - contradiction.
  - destruct Hex as [_ Hex]. by refine (Hpub _ _ _ H _ _ _ Hex).
  - destruct Hex as (e & _ & -> & _). exists l. split; [done|].
    split; [done | lia].
  - destruct Hex as [_ ->]. exists l. split; [done|]. split; [done | lia].
  - destruct Hex as [_ Hex]. by refine (Hpub _ _ _ H _ _ _ Hex).
  - destruct Hex as [_ Hex]. by refine (Hpub _ _ _ H _ _ _ Hex).
  - destruct Hex as [_ Hex]. by refine (Hpub _ _ _ H _ _ _ Hex).
  - destruct Hex as [_ Hex]. by refine (Hpub _ _ _ H _ _ _ Hex).
Qed.

Lemma run_waiting_record DEBUG fuel polls R p qs tr qs' :
  run_where DEBUG fuel polls (undisturbed R) qs tr qs' ->
  forall k, tls_ok qs -> waiting_record R p k qs ->
  waiting_record R p (k + length tr) qs'.
Proof.
  induction 1 as [qs|qs o v qs1 tr qs2 Hu Hf Hex _ IH]; intros k Hok Hw.
  - simpl. eapply waiting_record_weaken; [|exact Hw]. lia.
  - simpl. replace (k + S (length tr))%nat with (S k + length tr)%nat by lia.
    apply IH.
    + eapply exec_tls_ok; eassumption.
    + eapply exec_waiting_record; eassumption.
Qed.



(** *** A registry that has become a cycle *)

Lemma exec_keeps_links DEBUG fuel polls o qs v qs' :
  exec DEBUG fuel polls o qs = Ok (v, qs') ->
  keeps_links o qs ->
  qs_list qs' = qs_list qs /\
  forall q, next <$> (mem qs' !! q) = next <$> (mem qs !! q).
Proof.
  intros Hex Hk. apply exec_effect in Hex.
  assert (Hpub : forall tid e qa,
    mem qa = mem qs -> qs_list qa = qs_list qs ->
    published tid e qa qs' ->
    qs_list qs' = qs_list qs /\
    forall q, next <$> (mem qs' !! q) = next <$> (mem qs !! q)).
  { intros tid e qa Hm Hq (p & r & Ht & Hp & ->). simpl.
    rewrite Hm, Hq in *. split; [done|]. intros q.
    destruct (decide (p = q)) as [<-|Hne].
    - by rewrite lookup_insert_eq, Hp.
    - by rewrite lookup_insert_ne. }
  destruct o as [tid m|tid|tid|tid| |tid target|tid|tid|tid]; simpl in *;
    try contradiction.
  - destruct Hex as [_ Hex]. by refine (Hpub _ _ _ _ _ Hex).
  - by destruct Hex as (e & _ & -> & _).
  - by destruct Hex as [_ ->].
  - destruct Hex as [_ Hex]. by refine (Hpub _ _ _ _ _ Hex).
  - destruct Hex as [_ Hex]. by refine (Hpub _ _ _ _ _ Hex).
  - destruct Hex as [_ Hex]. by refine (Hpub _ _ _ _ _ Hex).
  - destruct Hex as [_ Hex]. by refine (Hpub _ _ _ _ _ Hex).
Qed.

Lemma run_keeps_links DEBUG fuel polls qs tr qs' :
  run_where DEBUG fuel polls keeps_links qs tr qs' ->
  qs_list qs' = qs_list qs /\
  forall q, next <$> (mem qs' !! q) = next <$> (mem qs !! q).
Proof.
  induction 1 as [qs|qs o v qs1 tr qs2 Hk _ Hex _ IH]; [done|].
  destruct (exec_keeps_links _ _ _ _ _ _ _ Hex Hk) as [Hq Hm].
  destruct IH as [Hq' Hm']. split; [congruence|].
  intros q. by rewrite Hm', Hm.
Qed.

Lemma seg_chain_split h t c u l :
  seg h t c u -> chain h t l -> exists l', l = c ++ l' /\ chain h u l'.
Proof.
  unfold chain. revert t l. induction c as [|q c IH]; intros t l; simpl.
  - intros -> Hl. exists l. done.
  - intros [-> (r & Hr & Hs)] Hl. destruct l as [|q' l]; simpl in Hl.
    + discriminate.
    + destruct Hl as [[= <-] (r' & Hr' & Hl)].
      rewrite Hr in Hr'. injection Hr' as <-.
      destruct (IH _ _ Hs Hl) as (l' & -> & Hl'). exists l'. done.
Qed.

(** A registry that is a cycle is not a list: the walk never ends. *)
Lemma cycle_not_chain h p c l : cycle h p c -> ~ chain h (Some p) l.
Proof.
  intros Hcyc. remember (length l) as n eqn:Hn. revert l Hn.
  induction n as [n IH] using lt_wf_ind. intros l -> Hl.
  destruct (seg_chain_split _ _ _ _ _ Hcyc Hl) as (l' & -> & Hl').
  eapply (IH (length l')); [|reflexivity|exact Hl'].
  rewrite length_app. simpl. lia.
Qed.

(** On a registry that is a cycle through its head, a call of
    [qsbr_sync] after whose checkpoint every record of the cycle passes
    the test does not return, whatever the fuel. *)
Lemma qsbr_sync_cycle DEBUG c_tid target qs qs1 p c :
  qs_list qs = Some p ->
  cycle (mem qs) p c ->
  qsbr_checkpoint DEBUG c_tid qs = Ok qs1 ->
  Forall (fun q => exists r, mem qs1 !! q = Some r /\ grace target r) (p :: c) ->
  forall n, qsbr_sync DEBUG n c_tid target qs = NoFuel.
Proof.
  intros Hhead Hcyc Hck HF n. unfold qsbr_sync. rewrite Hck. cbn [bind].
  destruct (checkpoint_inv _ _ _ _ Hck) as (pc & rc & Ht & Hp & ->).
  simpl in *. rewrite Hhead.
  rewrite (sync_scan_cycle _ p c target); [done| |done].
  unfold cycle. by apply seg_store_epoch.
Qed.

(** *** A record that has been freed *)

(** [qsbr_unregister] frees the record and clears the slot of the key; it
    writes neither the head of the list nor any link. *)
Lemma qsbr_unregister_spec tid qs p :
  tls_key qs !! tid = Some p ->
  qsbr_unregister tid qs
  = mk_qsbr (global_epoch qs) (delete tid (tls_key qs)) (qs_list qs)
            (delete p (mem qs)).
Proof.
  intros Ht. unfold qsbr_unregister, pthread_getspecific. by rewrite Ht.
Qed.

(** So a record that was linked stays linked, behind the same records. *)
Lemma qsbr_unregister_keeps_link tid qs p l :
  tls_key qs !! tid = Some p ->
  seg (mem qs) (qs_list qs) l (Some p) -> p ∉ l ->
  qs_list (qsbr_unregister tid qs) = qs_list qs /\
  seg (mem (qsbr_unregister tid qs)) (qs_list (qsbr_unregister tid qs)) l
    (Some p) /\
  mem (qsbr_unregister tid qs) !! p = None /\
  tls_key (qsbr_unregister tid qs) !! tid = None.
Proof.
  intros Ht Hs Hn. rewrite (qsbr_unregister_spec _ _ _ Ht). simpl.
  split; [done|]. split; [|split].
  - eapply seg_same_links; [|exact Hs]. intros q Hq.
    rewrite lookup_delete_ne; [done|]. intros <-. contradiction.
  - apply lookup_delete_eq.
  - apply lookup_delete_eq.
Qed.

(** A scan that gets as far as a freed record reads freed memory. *)
Lemma sync_scan_seg_freed fuel h t l p target :
  seg h t l (Some p) -> h !! p = None ->
  Forall (fun q => exists r, h !! q = Some r /\ grace target r) l ->
  (length l < fuel)%nat ->
  sync_scan fuel h t target = Fault UseAfterFree.
Proof.
  intros Hs Hp. revert fuel t Hs.
  induction l as [|q l IH]; intros fuel t; simpl.
  - intros -> _ Hlen. destruct fuel as [|fuel]; [lia|]. simpl. by rewrite Hp.
  - intros [-> (rq & Hq & Hs)] HF Hlen. destruct fuel as [|fuel]; [lia|].
    apply Forall_cons in HF as [(r' & Hr' & Hg) HF].
    rewrite Hq in Hr'. injection Hr' as <-.
    simpl. rewrite Hq. simpl. apply scan_test_spec in Hg. rewrite Hg.
    apply IH; [done | done | lia].
Qed.

(** *** Registrations on a registry that is a list *)

Lemma registry_of_fresh : registry_of [] fresh_qsbr.
Proof.
  exists []. split; [done|]. split; [done|]. split; [constructor|].
  split; [|split].
  - intros t [p Hp]. simpl in Hp. by rewrite lookup_empty in Hp.
  - intros t Ht. inversion Ht.
  - intros p Hp. inversion Hp.
Qed.

(** A thread that has no record registers with a fresh record: the record
    goes in front of the list and the rest of the registry is as before. *)
Lemma registry_of_registered ds qs t p :
  registry_of ds qs ->
  t ∉ ds ->
  mem qs !! p = None ->
  registry_of (t :: ds) (registered_state t p qs).
Proof.
  intros (l & Hc & Hlen & Hnd & Hdom & Hthr & Hrec) Ht Hp.
  assert (Hpl : p ∉ l).
  { intros Hin. destruct (seg_live _ _ _ _ _ Hc Hin) as [r Hr]. congruence. }
  exists (p :: l). split; [|split; [|split; [|split; [|split]]]].
  - unfold chain. simpl. split; [done|]. eexists.
    rewrite lookup_insert_eq. split; [done|]. simpl.
    by apply seg_insert_other.
  - simpl. by rewrite Hlen.
  - by constructor.
  - intros t'. simpl. destruct (decide (t = t')) as [<-|Hne].
    + intros _. by left.
    + rewrite lookup_insert_ne by done. intros H. right. by apply Hdom.
  - intros t'. simpl. intros [<-|Hin]%elem_of_cons.
    + exists p, (mk_tls 0 (qs_list qs)). rewrite !lookup_insert_eq.
      split; [done|]. split; [by left|]. done.
    + destruct (Hthr _ Hin) as (q & r & Hq & Hql & Hr & Hr0).
      assert (t <> t') by (intros <-; contradiction).
      assert (p <> q) by (intros <-; contradiction).
      exists q, r. rewrite !lookup_insert_ne by done.
      split; [done|]. split; [by right|]. done.
  - intros q. simpl. intros [->|Hin]%elem_of_cons.
    + exists t. rewrite lookup_insert_eq. split; [by left | done].
    + destruct (Hrec _ Hin) as (t' & Ht' & Hq).
      assert (t <> t') by (intros <-; contradiction).
      exists t'. rewrite lookup_insert_ne by done. split; [by right | done].
Qed.

Lemma registry_of_perm ds ds' qs :
  ds ≡ₚ ds' -> registry_of ds qs -> registry_of ds' qs.
Proof.
  intros Hp (l & Hc & Hlen & Hnd & Hdom & Hthr & Hrec).
  exists l. split; [done|]. split; [by rewrite <- Hp|]. split; [done|].
  split; [|split].
  - intros t Ht. rewrite <- Hp. by apply Hdom.
  - intros t Ht. rewrite <- Hp in Ht. by apply Hthr.
  - intros p Hin. destruct (Hrec _ Hin) as (t & Ht & Hq).
    exists t. by rewrite <- Hp.
Qed.

Lemma run_registrations DEBUG fuel polls ts :
  forall qs qs' ds,
  registry_of ds qs ->
  NoDup (ts.*1) ->
  (forall t, t ∈ ts.*1 -> t ∉ ds) ->
  run DEBUG fuel polls qs (registrations ts) qs' ->
  registry_of (ts.*1 ++ ds) qs'.
Proof.
  induction ts as [|[t m] ts IH]; intros qs qs' ds Hreg Hnd Hnew Hrun.
  - inversion Hrun; subst. exact Hreg.
  - simpl in *. inversion Hrun as [|? ? ? qs1 ? ? _ Hfresh Hex Hrest]; subst.
    apply NoDup_cons in Hnd as [Htn Hnd].
    assert (Htd : t ∉ ds) by (apply Hnew; by left).
    apply exec_effect in Hex. simpl in Hex.
    destruct Hex as [([=] & _)|(_ & p & -> & Hcase)].
    assert (Hnone : tls_key qs !! t = None).
    { destruct (tls_key qs !! t) as [q|] eqn:Hq; [|done].
      destruct Hreg as (l & _ & _ & _ & Hdom & _).
      exfalso. apply Htd. apply Hdom. eauto. }
    destruct Hcase as [[_ ->]|[Hq _]]; [|congruence].
    simpl in Hfresh.
    apply (registry_of_perm (ts.*1 ++ t :: ds)).
    { by rewrite <- Permutation_middle. }
    eapply IH; [|done| |exact Hrest].
    + by apply registry_of_registered.
    + intros t' Hin [->|Hd]%elem_of_cons; [done|].
      eapply Hnew; [right; exact Hin | done].
Qed.

(** The threads register on a fresh instance one after the other, each
    call running from its first step to its last without interruption. *)
Lemma sequential_registrations
    DEBUG fuel polls (ts : list (thread * option loc)) qs' :
  NoDup (ts.*1) ->
  run DEBUG fuel polls fresh_qsbr (registrations ts) qs' ->
  registry_of (ts.*1) qs'.
Proof.
  intros Hnd Hrun.
  pose proof (run_registrations DEBUG fuel polls ts fresh_qsbr qs' []
                registry_of_fresh Hnd) as H.
  rewrite app_nil_r in H. apply H; [|done].
  intros t _ Hin. inversion Hin.
Qed.

(** *** Registration, step by step *)

(** Run without interruption, the steps of a call do what the function
    [qsbr_register] does. *)
Lemma reg_steps_atomic tid m qs :
  reg_steps 4 tid m RegStart qs =
  match qsbr_register 1 tid m qs with
  | Ok (rc, qs') => Ok (RegReturned rc, qs')
  | Fault f => Fault f
  | NoFuel => NoFuel
  end.
Proof.
  unfold qsbr_register. simpl. unfold pthread_getspecific.
  destruct (tls_key qs !! tid) as [t|] eqn:Ht.
  - unfold memset_zero. simpl.
    destruct (mem qs !! t) as [r|] eqn:Hr; simpl; [|done].
    unfold store_next. simpl. rewrite lookup_insert_eq. simpl.
    unfold atomic_compare_exchange_weak. simpl. by case_decide.
  - destruct m as [p|]; [|done].
    unfold memset_zero, malloc_at. simpl. rewrite lookup_insert_eq. simpl.
    unfold store_next. simpl. rewrite lookup_insert_eq. simpl.
    unfold atomic_compare_exchange_weak. simpl. by case_decide.
Qed.

Lemma tls_ok_insert tid p qs g hd r :
  tls_ok qs ->
  (tls_key qs !! tid = None /\ mem qs !! p = None)
  \/ tls_key qs !! tid = Some p ->
  tls_ok (mk_qsbr g (<[tid := p]> (tls_key qs)) hd (<[p := r]> (mem qs))).
Proof.
  intros [Hl Hi] Hcase. split.
  - intros t q. simpl. destruct (decide (tid = t)) as [<-|Hne].
    + rewrite lookup_insert_eq. intros [= <-]. rewrite lookup_insert_eq. eauto.
    + rewrite lookup_insert_ne by done. intros Hq.
      apply Hl in Hq as [rq Hq]. destruct (decide (p = q)) as [<-|Hpq].
      * rewrite lookup_insert_eq. eauto.
      * rewrite lookup_insert_ne by done. eauto.
  - assert (Hown : forall t, t <> tid -> tls_key qs !! t = Some p -> False).
    { intros t Hne Ht. destruct Hcase as [[_ Hfresh]|Htid].
      - apply Hl in Ht as [r' Hr]. congruence.
      - apply Hne. eapply Hi; eassumption. }
    intros t1 t2 q. simpl.
    destruct (decide (tid = t1)) as [<-|H1], (decide (tid = t2)) as [<-|H2];
      rewrite ?lookup_insert_eq, ?lookup_insert_ne by done.
    + done.
    + intros [= <-] H. exfalso. eapply Hown; [|exact H]. congruence.
    + intros H [= <-]. exfalso. eapply Hown; [|exact H]. congruence.
    + apply Hi.
Qed.

Lemma tls_ok_store p r qs :
  tls_ok qs -> is_Some (mem qs !! p) ->
  tls_ok (set_mem (<[p := r]> (mem qs)) qs).
Proof.
  intros [Hl Hi] Hp. split; [|exact Hi].
  intros t q Hq. simpl in *. apply Hl in Hq as [rq Hq].
  destruct (decide (p = q)) as [<-|Hne].
  - rewrite lookup_insert_eq. eauto.
  - rewrite lookup_insert_ne by done. eauto.
Qed.

(** A record that is pending stays so when another record is written and
    the list grows by another record. *)
Lemma pending_other l l' qs qs' t q link :
  pending l qs t q link ->
  tls_key qs' !! t = tls_key qs !! t ->
  mem qs' !! q = mem qs !! q ->
  (q ∉ l -> q ∉ l') ->
  pending l' qs' t q link.
Proof.
  intros (Ht & Hn & r & Hr & H0 & Hlink) Ht' Hq Hl.
  split; [congruence|]. split; [by apply Hl|].
  exists r. split; [congruence|]. done.
Qed.

Lemma race_inv_start ts :
  NoDup ts -> race_inv ts (all_start ts fresh_qsbr).
Proof.
  intros Hnd. exists [], []. simpl.
  assert (Hpcs : forall t pc,
    (list_to_map ((fun t => (t, RegStart)) <$> ts) : gmap thread reg_pc) !! t
      = Some pc <-> t ∈ ts /\ pc = RegStart).
  { intros t pc. rewrite <- elem_of_list_to_map.
    - rewrite list_elem_of_fmap. split.
      + intros (t' & [= -> ->] & Hin). done.
      + intros [Hin ->]. exists t. done.
    - rewrite <- list_fmap_compose. simpl. by rewrite list_fmap_id. }
  split; [done|]. split; [constructor|]. split; [constructor|].
  split; [constructor|]. split; [constructor|]. split; [apply tls_ok_fresh|].
  split; [|split; [|split]].
  - intros t. split.
    + intros [pc Hpc]. by apply Hpcs in Hpc as [? _].
    + intros Hin. exists RegStart. by apply Hpcs.
  - intros t [p Hp]. by rewrite lookup_empty in Hp.
  - intros t. split; [intros H; inversion H|].
    intros H. apply Hpcs in H as [_ [=]].
  - intros t pc Hpc. apply Hpcs in Hpc as [_ ->]. apply lookup_empty.
Qed.

(** Every step of every thread keeps [race_inv]. *)
Lemma race_inv_step ts c tid m pc pc' qs' :
  race_inv ts c ->
  pcs c !! tid = Some pc ->
  has_returned pc = false ->
  reg_malloc_freshb pc m (shared c) = true ->
  reg_step tid m pc (shared c) = Ok (pc', qs') ->
  race_inv ts (mk_config qs' (<[tid := pc']> (pcs c))).
Proof.
  intros (ds & l & Hc & Hnd & Hndl & HF2 & HFl & Hok & Hdom & Htls & Hds & Hpc)
    Htid Hret Hfresh Hstep.
  destruct c as [qs pcs0]. simpl in *.
  assert (Hdom' : forall t, is_Some (<[tid := pc']> pcs0 !! t) <-> t ∈ ts).
  { intros t. rewrite lookup_insert_is_Some. rewrite <- Hdom. split.
    - intros [<-|[_ H]]; eauto.
    - intros H. destruct (decide (tid = t)); [by left | by right]. }
  assert (Htd : tid ∉ ds).
  { intros Hin. apply Hds in Hin. rewrite Htid in Hin.
    injection Hin as ->. discriminate. }
  assert (Hds' : pc' <> RegReturned 0 ->
    forall t, t ∈ ds <-> <[tid := pc']> pcs0 !! t = Some (RegReturned 0)).
  { intros Hpc' t. rewrite Hds. destruct (decide (tid = t)) as [<-|Hne].
    - rewrite lookup_insert_eq, Htid. split; [intros [= ->]|intros [=]]; done.
    - by rewrite lookup_insert_ne. }
  assert (Hlive : forall q, q ∈ l -> is_Some (mem qs !! q)).
  { intros q Hq. eapply seg_live; eassumption. }
  pose proof (Hpc _ _ Htid) as Hme.
  destruct Hok as [Hl Hi].
  (* what the step leaves alone, for the threads other than [tid] *)
  assert (Hothers : forall l',
    (forall t, t <> tid -> tls_key qs' !! t = tls_key qs !! t) ->
    (forall t q, t <> tid -> tls_key qs !! t = Some q ->
       mem qs' !! q = mem qs !! q /\ (q ∉ l -> q ∉ l')) ->
    forall t pc0, t <> tid -> pcs0 !! t = Some pc0 ->
      match pc0 with
      | RegStart => tls_key qs' !! t = None
      | RegLoad p | RegStore p _ => pending l' qs' t p None
      | RegCas p h => pending l' qs' t p (Some h)
      | RegReturned rc => rc = 0 \/ (rc = ENOMEM /\ tls_key qs' !! t = None)
      end).
  { intros l' Hk Hm t pc0 Hne Ht. specialize (Hpc _ _ Ht).
    destruct pc0 as [|p|p h|p h|rc].
    - by rewrite Hk.
    - destruct (Hm t p Hne (proj1 Hpc)) as [? ?].
      eapply pending_other; eauto.
    - destruct (Hm t p Hne (proj1 Hpc)) as [? ?].
      eapply pending_other; eauto.
    - destruct (Hm t p Hne (proj1 Hpc)) as [? ?].
      eapply pending_other; eauto.
    - destruct Hpc as [?|[? ?]]; [by left | right]. by rewrite Hk. }
  destruct pc as [|p|p h|p h|rc]; simpl in *; try discriminate.
  - (* the start of the call *)
    unfold pthread_getspecific in Hstep. rewrite Hme in Hstep.
    destruct m as [p|].
    + destruct (mem qs !! p) as [|] eqn:Hp; [discriminate|].
      unfold memset_zero, malloc_at in Hstep. simpl in Hstep.
      rewrite lookup_insert_eq in Hstep. simpl in Hstep.
      rewrite insert_insert_eq in Hstep. injection Hstep as <- <-.
      assert (Hpl : p ∉ l).
      { intros Hin. apply Hlive in Hin as [r Hr]. congruence. }
      exists ds, l. simpl.
      split; [by apply seg_insert_other|]. split; [done|]. split; [done|].
      split.
      { eapply Forall2_impl; [exact HF2|]. simpl. intros t q Hq.
        rewrite lookup_insert_ne; [done|]. intros <-. congruence. }
      split.
      { rewrite Forall_forall in HFl |- *. intros q Hq.
        rewrite lookup_insert_ne; [by apply HFl|]. intros <-. contradiction. }
      split; [by apply tls_ok_insert; [split|left]|].
      split; [done|]. split; [|split].
      * intros t. destruct (decide (tid = t)) as [<-|Hne].
        -- intros _. apply Hdom. eauto.
        -- rewrite lookup_insert_ne by done. apply Htls.
      * by apply Hds'.
      * intros t pc0. destruct (decide (tid = t)) as [<-|Hne].
        -- rewrite lookup_insert_eq. intros [= <-]. split; [|split; [done|]].
           ++ simpl. by rewrite lookup_insert_eq.
           ++ eexists. simpl. rewrite lookup_insert_eq. done.
        -- rewrite lookup_insert_ne by done.
           apply (Hothers l); [| |congruence].
           ++ intros t' Hne'. simpl. by rewrite lookup_insert_ne.
           ++ intros t' q _ Hq. simpl. split; [|done].
              rewrite lookup_insert_ne; [done|]. intros <-.
              apply Hl in Hq as [r Hr]. congruence.
    + injection Hstep as <- <-. exists ds, l. simpl.
      do 8 (split; [done|]). split.
      * by apply Hds'.
      * intros t pc0. destruct (decide (tid = t)) as [<-|Hne].
        -- rewrite lookup_insert_eq. intros [= <-]. right. done.
        -- rewrite lookup_insert_ne by done. intros H. by apply Hpc.
  - (* the read of the head *)
    injection Hstep as <- <-. exists ds, l. simpl.
    do 8 (split; [done|]). split.
    + by apply Hds'.
    + intros t pc0. destruct (decide (tid = t)) as [<-|Hne].
      * rewrite lookup_insert_eq. intros [= <-]. exact Hme.
      * rewrite lookup_insert_ne by done. intros H. by apply Hpc.
  - (* the write of the link *)
    destruct Hme as (Htp & Hpl & r & Hr & Hr0 & _).
    unfold store_next in Hstep. simpl in Hstep. rewrite Hr in Hstep.
    simpl in Hstep. injection Hstep as <- <-.
    exists ds, l. simpl.
    split; [by apply seg_insert_other|]. split; [done|]. split; [done|].
    split; [done|]. split.
    { rewrite Forall_forall in HFl |- *. intros q Hq.
      rewrite lookup_insert_ne; [by apply HFl|]. intros <-. contradiction. }
    split; [apply tls_ok_store; [split|]; eauto|].
    split; [done|]. split; [done|]. split.
    + by apply Hds'.
    + intros t pc0. destruct (decide (tid = t)) as [<-|Hne].
      * rewrite lookup_insert_eq. intros [= <-]. split; [done|]. split; [done|].
        eexists. simpl. rewrite lookup_insert_eq. by rewrite Hr0.
      * rewrite lookup_insert_ne by done.
        apply (Hothers l); [done| |congruence].
        intros t' q Hne' Hq. simpl. split; [|done].
        rewrite lookup_insert_ne; [done|]. intros <-. apply Hne'.
        eapply Hi; eassumption.
  - (* the compare-and-swap *)
    destruct Hme as (Htp & Hpl & r & Hr & Hr0 & Hnext).
    unfold atomic_compare_exchange_weak in Hstep.
    destruct (decide (qs_list qs = h)) as [Hhead|Hhead]; simpl in Hstep;
      injection Hstep as <- <-.
    + exists (tid :: ds), (p :: l). simpl. split.
      { unfold chain. simpl. split; [done|]. exists r. split; [done|].
        rewrite Hnext, <- Hhead. exact Hc. }
      split; [by constructor|]. split; [by constructor|].
      split; [by constructor|]. split; [constructor; eauto|].
      split; [done|]. split; [done|]. split; [done|]. split.
      * intros t. rewrite elem_of_cons, Hds.
        destruct (decide (tid = t)) as [<-|Hne].
        -- rewrite lookup_insert_eq. split; [done | by left].
        -- rewrite lookup_insert_ne by done. split; [|by right].
           intros [?|?]; congruence.
      * intros t pc0. destruct (decide (tid = t)) as [<-|Hne].
        -- rewrite lookup_insert_eq. intros [= <-]. by left.
        -- rewrite lookup_insert_ne by done.
           apply (Hothers (p :: l)); [done| |congruence].
           intros t' q Hne' Hq. simpl. split; [done|].
           intros Hql [->|?]%elem_of_cons; [|done].
           apply Hne'. eapply Hi; eassumption.
    + exists ds, l. simpl.
      do 8 (split; [done|]). split.
      * by apply Hds'.
      * intros t pc0. destruct (decide (tid = t)) as [<-|Hne].
        -- rewrite lookup_insert_eq. intros [= <-]. split; [done|].
           split; [done|]. exists r. done.
        -- rewrite lookup_insert_ne by done. intros H. by apply Hpc.
Qed.

Lemma race_inv_race ts sched :
  forall c c', race_inv ts c -> race sched c = Some c' -> race_inv ts c'.
Proof.
  induction sched as [|[tid m] sched IH]; intros c c' Hinv; simpl.
  - by intros [= <-].
  - destruct (pcs c !! tid) as [pc|] eqn:Hpc; [|discriminate].
    destruct (has_returned pc) eqn:Hret; [discriminate|].
    destruct (reg_malloc_freshb pc m (shared c)) eqn:Hfresh; [|discriminate].
    destruct (reg_step tid m pc (shared c)) as [[pc' qs']| |] eqn:Hstep;
      try discriminate.
    apply IH. eapply race_inv_step; eassumption.
Qed.

(** When all the threads have returned 0 the registry holds exactly their
    records. *)
Lemma race_inv_all_returned ts c :
  NoDup ts ->
  race_inv ts c ->
  (forall t, t ∈ ts -> pcs c !! t = Some (RegReturned 0)) ->
  registry_of ts (shared c).
Proof.
  intros Hts (ds & l & Hc & Hnd & Hndl & HF2 & HFl & Hok & Hdom & Htls & Hds & _)
    Hall.
  assert (Hperm : ds ≡ₚ ts).
  { apply NoDup_Permutation; [done | done |]. intros t. rewrite Hds. split.
    - intros H. apply Hdom. eauto.
    - apply Hall. }
  apply (registry_of_perm ds); [done|].
  exists l. split; [done|]. split; [symmetry; eapply Forall2_length; eauto|].
  split; [done|]. split; [|split].
  - intros t Ht. rewrite Hperm. by apply Htls.
  - intros t Ht. apply list_elem_of_lookup in Ht as [i Hi].
    destruct (Forall2_lookup_l _ _ _ _ _ HF2 Hi) as (p & Hp & Htp).
    assert (Hpl : p ∈ l) by (eapply list_elem_of_lookup_2; eauto).
    rewrite Forall_forall in HFl. destruct (HFl _ Hpl) as (r & Hr & Hr0).
    exists p, r. done.
  - intros p Hp. apply list_elem_of_lookup in Hp as [i Hi].
    destruct (Forall2_lookup_r _ _ _ _ _ HF2 Hi) as (t & Ht & Htp).
    exists t. split; [|done]. eapply list_elem_of_lookup_2; eauto.
Qed.

(** After a thread whose record is linked has unregistered, a scan by
    another registered thread that gets past the records in front of it
    reads the freed record. *)
Lemma qsbr_sync_after_unregister DEBUG fuel tid c_tid target qs p l qs1 :
  tls_key qs !! tid = Some p ->
  seg (mem qs) (qs_list qs) l (Some p) -> p ∉ l ->
  qsbr_checkpoint DEBUG c_tid (qsbr_unregister tid qs) = Ok qs1 ->
  Forall (fun q => exists r, mem qs1 !! q = Some r /\ grace target r) l ->
  (length l < fuel)%nat ->
  qsbr_sync DEBUG fuel c_tid target (qsbr_unregister tid qs)
  = Fault UseAfterFree.
Proof.
  intros Ht Hs Hn Hck HF Hlen.
  destruct (qsbr_unregister_keeps_link _ _ _ _ Ht Hs Hn)
    as (Hhead & Hs' & Hfreed & _).
  unfold qsbr_sync. rewrite Hck. cbn [bind].
  destruct (checkpoint_inv _ _ _ _ Hck) as (pc & rc & Htc & Hpc & ->).
  simpl in *.
  rewrite (sync_scan_seg_freed fuel _ _ l p target); [done| | |done|done].
  - by apply seg_store_epoch.
  - rewrite lookup_insert_ne; [done|]. intros ->. congruence.
Qed.

(** *** Calls that do return

    A thread that takes its four steps in a row, from the start of its
    call, returns 0: nobody changes the head between its read and its
    compare-and-swap.  So there are schedules in which all the calls
    return, whatever the number of threads. *)

Lemma race_app sched1 sched2 c :
  race (sched1 ++ sched2) c =
  match race sched1 c with
  | Some c1 => race sched2 c1
  | None => None
  end.
Proof.
  revert c. induction sched1 as [|[tid m] sched1 IH]; intros c; simpl; [done|].
  destruct (pcs c !! tid) as [pc|]; [|done].
  destruct (has_returned pc); [done|].
  destruct (reg_malloc_freshb pc m (shared c)); [|done].
  destruct (reg_step tid m pc (shared c)) as [[pc' qs']| |]; done.
Qed.

Lemma race_solo tid p c :
  pcs c !! tid = Some RegStart ->
  tls_key (shared c) !! tid = None ->
  mem (shared c) !! p = None ->
  race [(tid, Some p); (tid, None); (tid, None); (tid, None)] c
  = Some (mk_config (registered_state tid p (shared c))
                    (<[tid := RegReturned 0]> (pcs c))).
Proof.
  intros Hpc Ht Hp. destruct c as [qs pcs0]. simpl in *.
  rewrite Hpc. simpl. rewrite Hp. unfold pthread_getspecific. rewrite Ht.
  unfold memset_zero, malloc_at. simpl. rewrite lookup_insert_eq. simpl.
  rewrite lookup_insert_eq. simpl.
  rewrite lookup_insert_eq. simpl.
  unfold store_next. simpl. rewrite lookup_insert_eq. simpl.
  rewrite lookup_insert_eq. simpl.
  unfold atomic_compare_exchange_weak. simpl.
  case_decide; [|done]. simpl.
  unfold registered_state, set_qs_list. simpl.
  by rewrite !insert_insert_eq.
Qed.

Lemma registrations_can_complete ts todo c :
  race_inv ts c ->
  NoDup todo ->
  (forall t, t ∈ todo -> pcs c !! t = Some RegStart) ->
  exists sched c',
    race sched c = Some c' /\
    (forall t, t ∈ todo -> pcs c' !! t = Some (RegReturned 0)) /\
    (forall t, t ∉ todo -> pcs c' !! t = pcs c !! t).
Proof.
  revert c. induction todo as [|tid todo IH]; intros c Hinv Hnd Hstart.
  - exists [], c. split; [done|]. split; [|done]. intros t Ht. inversion Ht.
  - apply NoDup_cons in Hnd as [Hnotin Hnd].
    assert (Hpc : pcs c !! tid = Some RegStart) by (apply Hstart; by left).
    assert (Ht : tls_key (shared c) !! tid = None).
    { destruct Hinv as (ds & l & _ & _ & _ & _ & _ & _ & _ & _ & _ & H).
      apply (H _ _ Hpc). }
    set (p := fresh (dom (mem (shared c)))).
    assert (Hp : mem (shared c) !! p = None).
    { apply not_elem_of_dom. apply is_fresh. }
    pose proof (race_solo tid p c Hpc Ht Hp) as Hsolo.
    set (c1 := mk_config (registered_state tid p (shared c))
                 (<[tid := RegReturned 0]> (pcs c))) in *.
    destruct (IH c1) as (sched & c' & Hrace & Hdone & Hrest).
    + eapply race_inv_race; [exact Hinv | exact Hsolo].
    + done.
    + intros t Hin. unfold c1. simpl. rewrite lookup_insert_ne.
      * apply Hstart. by right.
      * intros <-. contradiction.
    + exists ([(tid, Some p); (tid, None); (tid, None); (tid, None)] ++ sched),
        c'.
      split; [by rewrite race_app, Hsolo|]. split.
      * intros t [->|Hin]%elem_of_cons; [|by apply Hdone].
        rewrite Hrest by done. unfold c1. simpl. by rewrite lookup_insert_eq.
      * intros t Hin. apply not_elem_of_cons in Hin as [Hne Hin].
        rewrite Hrest by done. unfold c1. simpl. by rewrite lookup_insert_ne.
Qed.

(** For every number of distinct threads there is a schedule after which
    all the calls have returned 0. *)
Lemma registration_race_completes ts :
  NoDup ts ->
  exists sched c,
    race sched (all_start ts fresh_qsbr) = Some c /\
    forall t, t ∈ ts -> pcs c !! t = Some (RegReturned 0).
Proof.
  intros Hnd.
  destruct (registrations_can_complete ts ts (all_start ts fresh_qsbr))
    as (sched & c & Hrace & Hdone & _); [by apply race_inv_start|done| |].
  - intros t Hin. simpl. apply elem_of_list_to_map.
    + rewrite <- list_fmap_compose. simpl. by rewrite list_fmap_id.
    + apply list_elem_of_fmap. exists t. done.
  - exists sched, c. done.
Qed.


(** *** The instances of the examples *)

Lemma run_ops_tls_ok DEBUG fuel polls os tr qs :
  run_ops DEBUG fuel polls os fresh_qsbr = Some (tr, qs) -> tls_ok qs.
Proof.
  intros H. apply run_ops_sound in H.
  eapply run_tls_ok; [exact H | apply tls_ok_fresh].
Qed.

Lemma tls_ok_two_threads : tls_ok two_threads.
Proof.
  apply (run_ops_tls_ok true 1 1
           [OpRegister 0%nat (Some 1%positive);
            OpRegister 1%nat (Some 2%positive)]
           [(OpRegister 0%nat (Some 1%positive), RInt 0);
            (OpRegister 1%nat (Some 2%positive), RInt 0)]).
  reflexivity.
Qed.

(** The offline scenario of the spec: the writer's scan for the epoch of
    its barrier waits for the two readers that are online, and for them
    only.  [qsbr_wait] issues a barrier of its own and polls: as one call
    that nothing interrupts it returns only when every other thread is
    offline. *)
Example offline_threads_do_not_block :
  global_epoch two_readers_offline = 3
  /\ fst <$> run_ops true 5 1 [OpSync 0%nat 3] two_readers_offline
     = Some [(OpSync 0%nat 3, RBool false)]
  /\ fst <$> run_ops true 5 1 [OpCheckpoint 1%nat; OpSync 0%nat 3]
               two_readers_offline
     = Some [(OpCheckpoint 1%nat, RVoid); (OpSync 0%nat 3, RBool false)]
  /\ fst <$> run_ops true 5 1
               [OpCheckpoint 1%nat; OpCheckpoint 2%nat; OpSync 0%nat 3]
               two_readers_offline
     = Some [(OpCheckpoint 1%nat, RVoid); (OpCheckpoint 2%nat, RVoid);
             (OpSync 0%nat 3, RBool true)]
  /\ fst <$> run_ops true 5 1
               [OpThreadOffline 1%nat; OpThreadOffline 2%nat; OpWait 0%nat]
               two_readers_offline
     = Some [(OpThreadOffline 1%nat, RVoid); (OpThreadOffline 2%nat, RVoid);
             (OpWait 0%nat, RVoid)]
  /\ run_ops true 5 100 [OpWait 0%nat] two_readers_offline = None.
Proof. repeat split; vm_compute; reflexivity. Qed.


(** ** The claims *)

(** C1.  A call [qsbr_sync qs target] by a registered thread, on a registry
    that is a list, first performs the caller's checkpoint: the state it
    returns is the one [qsbr_checkpoint] returns, where the caller's local
    epoch is the global epoch and the registry is the same list.  Its
    answer is true if and only if every record of the registry holds the
    sentinel 1 or an epoch that is numerically at least [target]; a record
    holding 1 passes whatever the target is.  One unit of fuel per record
    is enough for the scan to end. *)
Theorem qsbr_sync_correct DEBUG fuel tid target qs p r l :
  tls_key qs !! tid = Some p ->
  mem qs !! p = Some r ->
  chain (mem qs) (qs_list qs) l ->
  (length l <= fuel)%nat ->
  exists qs1 b,
    qsbr_checkpoint DEBUG tid qs = Ok qs1 /\
    local_epoch_of qs1 tid = Some (global_epoch qs) /\
    chain (mem qs1) (qs_list qs1) l /\
    qsbr_sync DEBUG fuel tid target qs = Ok (b, qs1) /\
    (b = true <->
     Forall (fun q => exists rq, mem qs1 !! q = Some rq /\
        (local_epoch rq = OFFLINE_EPOCH \/ target <= local_epoch rq)) l).
Proof.
  intros Ht Hp Hc Hlen.
  pose proof (checkpoint_registered DEBUG tid qs p r Ht Hp) as Hck.
  set (qs1 := set_mem (<[p := mk_tls (global_epoch qs) (next r)]> (mem qs)) qs)
    in *.
  assert (Hc1 : chain (mem qs1) (qs_list qs1) l).
  { unfold qs1, chain. simpl. by apply seg_store_epoch. }
  destruct (sync_scan_chain fuel _ _ l target Hc1 Hlen) as (b & Hb & Hiff).
  exists qs1, b. split; [done|]. split.
  { by apply local_epoch_of_store. }
  split; [done|]. split.
  { unfold qsbr_sync. rewrite Hck. cbn [bind]. rewrite Hb. done. }
  exact Hiff.
Qed.

Lemma qsbr_sync_correct_witness :
  exists qs1 b,
    qsbr_checkpoint true 0%nat two_threads = Ok qs1 /\
    local_epoch_of qs1 0%nat = Some (global_epoch two_threads) /\
    chain (mem qs1) (qs_list qs1) [2%positive; 1%positive] /\
    qsbr_sync true 2 0%nat 2 two_threads = Ok (b, qs1) /\
    (b = true <->
     Forall (fun q => exists rq, mem qs1 !! q = Some rq /\
        (local_epoch rq = OFFLINE_EPOCH \/ 2 <= local_epoch rq))
       [2%positive; 1%positive]).
Proof.
  apply (qsbr_sync_correct true 2 0%nat 2 two_threads 1%positive
           (mk_tls 0 None) [2%positive; 1%positive]).
  - reflexivity.
  - reflexivity.
  - apply (walk_chain 2). reflexivity.
  - simpl. lia.
Defined.

(** C1 as stated, for every state of an instance, fails in states that
    calls do reach.  On a fresh instance the registry is empty, so that
    every record of it passes for every target, and the call stops in the
    caller's checkpoint instead of returning true.  After a thread has
    registered twice the registry is a cycle: the caller's checkpoint
    leaves the one record of the registry with the epoch 2, which passes
    for the target 2, and the call does not return, whatever the fuel. *)
Lemma qsbr_sync_correct_counterexample :
  qsbr_create true 0 = Some fresh_qsbr
  /\ qs_list fresh_qsbr = None
  /\ qsbr_sync true 8 0%nat 3 fresh_qsbr = Fault AssertFailed
  /\ qsbr_sync false 8 0%nat 3 fresh_qsbr = Fault NullDeref
  /\ run_ops true 1 1 [OpRegister 0%nat (Some 1%positive); OpRegister 0%nat None]
       fresh_qsbr
     = Some ([(OpRegister 0%nat (Some 1%positive), RInt 0);
              (OpRegister 0%nat None, RInt 0)], registered_twice)
  /\ qsbr_checkpoint true 0%nat registered_twice
     = Ok (mk_qsbr 2 {[0%nat := 1%positive]} (Some 1%positive)
             {[1%positive := mk_tls 2 (Some 1%positive)]})
  /\ (forall fuel, qsbr_sync true fuel 0%nat 2 registered_twice = NoFuel).
Proof.
  repeat (split; [by vm_compute|]).
  apply (qsbr_sync_cycle true 0%nat 2 registered_twice
           (mk_qsbr 2 {[0%nat := 1%positive]} (Some 1%positive)
              {[1%positive := mk_tls 2 (Some 1%positive)]})
           1%positive []).
  - by vm_compute.
  - split; [done|]. exists (mk_tls 0 (Some 1%positive)).
    split; by vm_compute.
  - by vm_compute.
  - constructor; [|constructor].
    exists (mk_tls 2 (Some 1%positive)). split; [by vm_compute|].
    right. simpl. lia.
Qed.

(** C2.  [qsbr_barrier] adds one to the global epoch, as an unsigned 64-bit
    counter, and returns the value the global epoch has after the
    increment; the key, the list head and every record are as before.
    Below the last value of the type the new epoch is the old one plus
    one. *)
Theorem qsbr_barrier_increments qs :
  global_epoch (snd (qsbr_barrier qs)) = wrap64 (global_epoch qs + 1) /\
  fst (qsbr_barrier qs) = global_epoch (snd (qsbr_barrier qs)) /\
  tls_key (snd (qsbr_barrier qs)) = tls_key qs /\
  qs_list (snd (qsbr_barrier qs)) = qs_list qs /\
  mem (snd (qsbr_barrier qs)) = mem qs /\
  (0 <= global_epoch qs < EPOCH_MODULUS - 1 ->
   global_epoch (snd (qsbr_barrier qs)) = global_epoch qs + 1 /\
   fst (qsbr_barrier qs) = global_epoch qs + 1).
Proof.
  unfold qsbr_barrier, atomic_fetch_add. simpl.
  repeat split; try reflexivity.
  all: unfold wrap64; apply Z.mod_small; lia.
Qed.

(** C3 (as the code has it).  The offline sentinel is the value 1, the
    one [qsbr_thread_offline] stores, and a freshly created instance has
    global epoch 2.  A call that returns
    leaves the global epoch as it was, unless it is [qsbr_barrier] (or
    [qsbr_wait], which calls it), which adds one; so from a global epoch
    of at least 2, and below the last value 2^64 - 1 of the type when the
    call is a barrier, the global epoch after the call is at least 2, is
    not the sentinel and is not smaller than before. *)
Theorem global_epoch_invariant DEBUG fuel polls o qs v qs' :
  exec DEBUG fuel polls o qs = Ok (v, qs') ->
  2 <= global_epoch qs ->
  (advances_epoch o = true -> global_epoch qs < EPOCH_MODULUS - 1) ->
  OFFLINE_EPOCH = 1
  /\ (forall tid qa qb, qsbr_thread_offline DEBUG tid qa = Ok qb ->
        local_epoch_of qb tid = Some 1)
  /\ (forall calloc_ok key_rc qs0,
        qsbr_create calloc_ok key_rc = Some qs0 -> global_epoch qs0 = 2)
  /\ 2 <= global_epoch qs'
  /\ global_epoch qs' <> OFFLINE_EPOCH
  /\ global_epoch qs <= global_epoch qs'
  /\ global_epoch qs' =
       (if advances_epoch o then global_epoch qs + 1 else global_epoch qs).
Proof.
  intros Hex Hlo Hhi. split; [reflexivity|]. split.
  { intros tid qa qb Hoff.
    destruct (thread_offline_inv _ _ _ _ Hoff) as (q & rq & Hq & _ & ->).
    by apply local_epoch_of_store. }
  split.
  { intros ok rc qs0. unfold qsbr_create.
    destruct ok; simpl; [|discriminate].
    destruct (rc =? 0); simpl; [|discriminate]. by intros [= <-]. }
  apply exec_global_epoch in Hex.
  assert (Hg : global_epoch qs' =
    (if advances_epoch o then global_epoch qs + 1 else global_epoch qs)).
  { rewrite Hex. destruct (advances_epoch o); [|done].
    apply wrap64_small. unfold epoch_in_range. specialize (Hhi eq_refl). lia. }
  unfold OFFLINE_EPOCH. rewrite Hg.
  destruct (advances_epoch o); repeat split; lia.
Qed.

Lemma global_epoch_invariant_witness :
  OFFLINE_EPOCH = 1
  /\ (forall tid qa qb, qsbr_thread_offline true tid qa = Ok qb ->
        local_epoch_of qb tid = Some 1)
  /\ (forall calloc_ok key_rc qs0,
        qsbr_create calloc_ok key_rc = Some qs0 -> global_epoch qs0 = 2)
  /\ 2 <= global_epoch (set_global_epoch 3 fresh_qsbr)
  /\ global_epoch (set_global_epoch 3 fresh_qsbr) <> OFFLINE_EPOCH
  /\ global_epoch fresh_qsbr <= global_epoch (set_global_epoch 3 fresh_qsbr)
  /\ global_epoch (set_global_epoch 3 fresh_qsbr) =
       (if advances_epoch OpBarrier
        then global_epoch fresh_qsbr + 1 else global_epoch fresh_qsbr).
Proof.
  apply (global_epoch_invariant true 1 1 OpBarrier fresh_qsbr (REpoch 3)
           (set_global_epoch 3 fresh_qsbr)).
  - reflexivity.
  - simpl. lia.
  - intros _. reflexivity.
Defined.

(** C3 as stated fails at the last value of the counter.  The instance is
    the one a fresh instance becomes after 2^64 - 3 barriers; its global
    epoch is at least 2, and one more barrier returns 0 and leaves the
    global epoch at 0 (from where the next barrier makes it the sentinel
    1). *)
Lemma global_epoch_invariant_counterexample :
  qsbr_create true 0 = Some fresh_qsbr
  /\ run true 1 1 fresh_qsbr
       (barrier_trace (global_epoch fresh_qsbr) (Z.to_nat (2 ^ 64 - 3)))
       last_epoch_qsbr
  /\ 2 <= global_epoch last_epoch_qsbr
  /\ exec true 1 1 OpBarrier last_epoch_qsbr
     = Ok (REpoch 0, set_global_epoch 0 fresh_qsbr)
  /\ global_epoch (set_global_epoch 0 fresh_qsbr) < 2
  /\ exec true 1 1 OpBarrier (set_global_epoch 0 fresh_qsbr)
     = Ok (REpoch OFFLINE_EPOCH, set_global_epoch OFFLINE_EPOCH fresh_qsbr).
Proof.
  split; [reflexivity|]. split.
  { pose proof (barriers_run true 1 1 (Z.to_nat (2 ^ 64 - 3)) fresh_qsbr) as H.
    rewrite Z2Nat.id in H by (vm_compute; discriminate).
    apply H. vm_compute. split; [discriminate | reflexivity]. }
  split; [vm_compute; discriminate|].
  split; [reflexivity|]. split; reflexivity.
Qed.

(** C4 (as the code has it).  Let a thread [R] publish a checkpoint, let
    any calls by any threads follow, and let the 64-bit global epoch not
    wrap around in between (the epoch at the checkpoint plus the number of
    barriers issued since stays below 2^64).  Then the local epoch [R]
    publishes at its next checkpoint is at least the one it published
    before; and if in between [R] has not gone offline (nor registered
    again, nor unregistered), its local epoch has not decreased at any
    point.  [qsbr_thread_offline] sets the local epoch to the sentinel
    1. *)
Theorem local_epoch_monotone DEBUG fuel polls R qs0 qs1 tr qs2 :
  tls_ok qs0 ->
  0 <= global_epoch qs0 ->
  global_epoch qs0 + Z.of_nat (barriers tr) < EPOCH_MODULUS ->
  qsbr_checkpoint DEBUG R qs0 = Ok qs1 ->
  run DEBUG fuel polls qs1 tr qs2 ->
  local_epoch_of qs1 R = Some (global_epoch qs0) /\
  (forall qs3, qsbr_checkpoint DEBUG R qs2 = Ok qs3 ->
     exists e3, local_epoch_of qs3 R = Some e3 /\ global_epoch qs0 <= e3) /\
  (Forall (fun ev => lowers_epoch R (fst ev) = false) tr ->
     exists e2, local_epoch_of qs2 R = Some e2 /\ global_epoch qs0 <= e2) /\
  (forall qs qs', qsbr_thread_offline DEBUG R qs = Ok qs' ->
     local_epoch_of qs' R = Some OFFLINE_EPOCH).
Proof.
  intros Hok Hlo Hhi Hck Hrun.
  pose proof (publish_published _ _ _ _ _ Hck) as Hpub.
  destruct (checkpoint_inv _ _ _ _ Hck) as (p & r & Ht & Hp & Hqs1).
  assert (He1 : local_epoch_of qs1 R = Some (global_epoch qs0)).
  { rewrite Hqs1. by apply local_epoch_of_store. }
  assert (Hg1 : global_epoch qs1 = global_epoch qs0) by (by rewrite Hqs1).
  split; [exact He1|]. split; [|split].
  - intros qs3 Hck3.
    destruct (checkpoint_inv _ _ _ _ Hck3) as (p3 & r3 & Ht3 & Hp3 & ->).
    exists (global_epoch qs2). split; [by apply local_epoch_of_store|].
    rewrite (run_global_epoch _ _ _ _ _ _ _ Hrun); rewrite Hg1; lia.
  - intros HF.
    destruct (run_local_epoch _ _ _ _ _ _ _ R Hrun HF (global_epoch qs0))
      as (e2 & He2 & Hle & _); try (rewrite ?Hg1; done || lia).
    + eapply tls_ok_published; eassumption.
    + exists e2. done.
  - intros qs qs' Hoff.
    destruct (thread_offline_inv _ _ _ _ Hoff) as (q & rq & Hq & _ & ->).
    by apply local_epoch_of_store.
Qed.

Lemma local_epoch_monotone_witness :
  local_epoch_of (final_state true 2 1 [OpCheckpoint 0%nat] two_threads) 0%nat
    = Some (global_epoch two_threads) /\
  (forall qs3,
     qsbr_checkpoint true 0%nat
       (final_state true 2 1
          [OpCheckpoint 0%nat; OpBarrier; OpThreadOffline 0%nat;
           OpCheckpoint 1%nat; OpBarrier] two_threads) = Ok qs3 ->
     exists e3, local_epoch_of qs3 0%nat = Some e3 /\
       global_epoch two_threads <= e3) /\
  (Forall (fun ev => lowers_epoch 0%nat (fst ev) = false)
     (trace_of true 2 1
        [OpBarrier; OpThreadOffline 0%nat; OpCheckpoint 1%nat; OpBarrier]
        (final_state true 2 1 [OpCheckpoint 0%nat] two_threads)) ->
   exists e2,
     local_epoch_of
       (final_state true 2 1
          [OpCheckpoint 0%nat; OpBarrier; OpThreadOffline 0%nat;
           OpCheckpoint 1%nat; OpBarrier] two_threads) 0%nat = Some e2 /\
     global_epoch two_threads <= e2) /\
  (forall qs qs', qsbr_thread_offline true 0%nat qs = Ok qs' ->
     local_epoch_of qs' 0%nat = Some OFFLINE_EPOCH).
Proof.
  apply (local_epoch_monotone true 2 1 0%nat two_threads
           (final_state true 2 1 [OpCheckpoint 0%nat] two_threads)
           (trace_of true 2 1
              [OpBarrier; OpThreadOffline 0%nat; OpCheckpoint 1%nat; OpBarrier]
              (final_state true 2 1 [OpCheckpoint 0%nat] two_threads))).
  - exact tls_ok_two_threads.
  - vm_compute. discriminate.
  - vm_compute. reflexivity.
  - reflexivity.
  - apply (run_ops_sound true 2 1
             [OpBarrier; OpThreadOffline 0%nat; OpCheckpoint 1%nat; OpBarrier]).
    reflexivity.
Defined.

(** C4 as stated fails where the counter wraps.  In the instance a fresh
    instance becomes after thread 0 has registered and 2^64 - 3 barriers
    have been issued, thread 0 publishes 2^64 - 1 at a checkpoint; after
    one more barrier its next checkpoint publishes 0, and it has not gone
    offline in between. *)
Lemma local_epoch_monotone_counterexample :
  run true 1 1 fresh_qsbr
    ((OpRegister 0%nat (Some 1%positive), RInt 0)
       :: barrier_trace (global_epoch one_thread) (Z.to_nat (2 ^ 64 - 3)))
    last_epoch_one_thread
  /\ trace_of true 1 1 [OpCheckpoint 0%nat; OpBarrier; OpCheckpoint 0%nat]
       last_epoch_one_thread
     = [(OpCheckpoint 0%nat, RVoid); (OpBarrier, REpoch 0);
        (OpCheckpoint 0%nat, RVoid)]
  /\ local_epoch_of
       (final_state true 1 1 [OpCheckpoint 0%nat] last_epoch_one_thread) 0%nat
     = Some (2 ^ 64 - 1)
  /\ local_epoch_of
       (final_state true 1 1
          [OpCheckpoint 0%nat; OpBarrier; OpCheckpoint 0%nat]
          last_epoch_one_thread) 0%nat
     = Some 0.
Proof.
  split.
  { eapply run_cons; [done | reflexivity | reflexivity |].
    pose proof (barriers_run true 1 1 (Z.to_nat (2 ^ 64 - 3)) one_thread) as H.
    rewrite Z2Nat.id in H by (vm_compute; discriminate).
    apply H. vm_compute. split; [discriminate | reflexivity]. }
  split; [reflexivity|]. split; reflexivity.
Qed.

(** C5, on the instance where threads 0 and 1 have registered (records 1
    and 2, list 2 -> 1) and thread 0 unregisters.  The record of thread 0
    is freed and its slot under the key is cleared, but the list is not
    touched: record 2 still links to the freed record 1, the registry is
    no longer a list of live records, and the next scan of thread 1, for
    the current epoch, visits the freed record. *)
Theorem qsbr_unregister_leaves_record_linked :
  tls_key two_threads !! 0%nat = Some 1%positive
  /\ chain (mem two_threads) (qs_list two_threads) [2%positive; 1%positive]
  /\ after_unregister = qsbr_unregister 0%nat two_threads
  /\ tls_key after_unregister !! 0%nat = None
  /\ mem after_unregister !! 1%positive = None
  /\ qs_list after_unregister = Some 2%positive
  /\ seg (mem after_unregister) (qs_list after_unregister) [2%positive]
       (Some 1%positive)
  /\ (forall fuel, walk fuel (mem after_unregister) (qs_list after_unregister)
                   = None)
  /\ qsbr_sync true 2 1%nat 2 after_unregister = Fault UseAfterFree
  /\ qsbr_sync false 2 1%nat 2 after_unregister = Fault UseAfterFree.
Proof.
  split; [reflexivity|].
  split; [apply (walk_chain 2); reflexivity|].
  split; [reflexivity|]. split; [reflexivity|]. split; [reflexivity|].
  split; [reflexivity|].
  split; [simpl; split; [reflexivity|]; eexists; split; reflexivity|].
  split; [|split; reflexivity].
  intros [|[|fuel]]; reflexivity.
Qed.

(** C6.  [qsbr_create] returns NULL exactly when [calloc] or
    [pthread_key_create] fails.  [qsbr_register] returns, and what it
    returns is ENOMEM exactly when the calling thread has no record yet
    and [malloc] fails, and 0 in every other case.  No other call returns
    an error code: the value it hands back is void, an epoch or a
    boolean; and for a thread that has a record the calls
    [qsbr_checkpoint], [qsbr_get_epoch], [qsbr_thread_offline] and
    [qsbr_thread_online] do return. *)
Theorem oom_is_the_only_error DEBUG fuel polls :
  (forall calloc_ok key_rc,
     qsbr_create calloc_ok key_rc = None
     <-> (calloc_ok = false \/ key_rc <> 0))
  /\ (forall tid m qs, tls_live qs ->
        exists rc qs',
          qsbr_register (S fuel) tid m qs = Ok (rc, qs') /\
          (rc = ENOMEM <-> (tls_key qs !! tid = None /\ m = None)) /\
          (rc <> ENOMEM -> rc = 0))
  /\ (forall o v qs qs',
        (forall tid m, o <> OpRegister tid m) ->
        exec DEBUG fuel polls o qs = Ok (v, qs') ->
        match v with RInt _ => False | _ => True end)
  /\ (forall tid qs, tls_live qs -> is_Some (tls_key qs !! tid) ->
        is_ok (qsbr_checkpoint DEBUG tid qs) = true /\
        is_ok (qsbr_get_epoch DEBUG tid qs) = true /\
        is_ok (qsbr_thread_offline DEBUG tid qs) = true /\
        is_ok (qsbr_thread_online DEBUG tid qs) = true).
Proof.
  split; [|split; [|split]].
  - intros ok rc. unfold qsbr_create.
    destruct ok; simpl; [|split; [by left | done]].
    destruct (Z.eqb_spec rc 0) as [->|Hne]; simpl.
    + split; [discriminate | intros [?|?]; done].
    + split; [by right | done].
  - intros tid m qs Hl. rewrite qsbr_register_spec.
    destruct (tls_key qs !! tid) as [t|] eqn:Ht.
    + destruct (Hl _ _ Ht) as [r Hr]. rewrite Hr.
      eexists _, _. split; [done|]. split; [|done].
      split; [discriminate | intros [? _]; discriminate].
    + destruct m as [p|]; eexists _, _; (split; [done|]); split; try done.
      split; [discriminate | intros [_ ?]; discriminate].
  - intros o v qs qs' Hnr Hex. apply exec_effect in Hex.
    destruct o as [tid m|tid|tid|tid| |tid target|tid|tid|tid]; simpl in *.
    + exfalso. by eapply Hnr.
    + by destruct Hex as [-> _].
    + by destruct Hex as [-> _].
    + by destruct Hex as (e & -> & _).
    + by destruct Hex as [-> _].
    + by destruct Hex as [[b ->] _].
    + by destruct Hex as [-> _].
    + by destruct Hex as [-> _].
    + by destruct Hex as [-> _].
  - intros tid qs Hl [p Ht]. destruct (Hl _ _ Ht) as [r Hr].
    unfold qsbr_checkpoint, qsbr_thread_offline, qsbr_thread_online.
    rewrite !(publish_registered DEBUG tid _ qs p r Ht Hr).
    repeat split; try done.
    unfold qsbr_get_epoch, pthread_getspecific, ASSERT. rewrite Ht.
    rewrite bool_decide_true by done. rewrite andb_false_r. simpl.
    by rewrite Hr.
Qed.

(** C7 (as the code has it).  On an instance without registered threads
    the caller of [qsbr_sync] has no record under the key, so the
    checkpoint that [qsbr_sync] performs first stops the program, on the
    assertion in a debug build and on the store through NULL otherwise:
    the call returns nothing, for every target.  The scan of the empty
    registry, taken alone, answers true for every target without visiting
    a record. *)
Theorem qsbr_sync_no_threads DEBUG fuel tid target qs :
  tls_key qs = ∅ ->
  qs_list qs = None ->
  qsbr_checkpoint DEBUG tid qs = Fault (if DEBUG then AssertFailed else NullDeref)
  /\ qsbr_sync DEBUG fuel tid target qs
     = Fault (if DEBUG then AssertFailed else NullDeref)
  /\ sync_scan fuel (mem qs) (qs_list qs) target = Ok true.
Proof.
  intros Hk Hl.
  assert (Hck : qsbr_checkpoint DEBUG tid qs
                = Fault (if DEBUG then AssertFailed else NullDeref)).
  { apply publish_unregistered. rewrite Hk. apply lookup_empty. }
  split; [done|]. split.
  - unfold qsbr_sync. rewrite Hck. done.
  - rewrite Hl. by destruct fuel.
Qed.

Lemma qsbr_sync_no_threads_witness :
  qsbr_checkpoint true 0%nat fresh_qsbr = Fault AssertFailed
  /\ qsbr_sync true 8 0%nat 3 fresh_qsbr = Fault AssertFailed
  /\ sync_scan 8 (mem fresh_qsbr) (qs_list fresh_qsbr) 3 = Ok true.
Proof.
  apply (qsbr_sync_no_threads true 8 0%nat 3 fresh_qsbr); reflexivity.
Defined.

(** C7 as stated fails on a fresh instance, in both builds: the call does
    not return true. *)
Lemma qsbr_sync_no_threads_counterexample :
  qsbr_create true 0 = Some fresh_qsbr
  /\ tls_key fresh_qsbr = ∅ /\ qs_list fresh_qsbr = None
  /\ qsbr_sync true 8 0%nat 3 fresh_qsbr = Fault AssertFailed
  /\ qsbr_sync false 8 0%nat 3 fresh_qsbr = Fault NullDeref.
Proof. repeat split. Qed.

(** C8.  Let [n] distinct threads call [qsbr_register] on a fresh
    instance at the same time, their steps interleaved in any way (a
    compare-and-swap that finds the head changed sends its thread round
    the loop again).  When all the calls have returned 0, the registry is
    a list of exactly [n] records, all distinct; every one of the threads
    has its record in the list (once, the records being distinct),
    holding local epoch 0; and every record of the list is the record of
    one of the threads. *)
Theorem registration_race (ts : list thread) sched c :
  NoDup ts ->
  race sched (all_start ts fresh_qsbr) = Some c ->
  (forall t, t ∈ ts -> pcs c !! t = Some (RegReturned 0)) ->
  qsbr_create true 0 = Some fresh_qsbr /\
  exists l,
    chain (mem (shared c)) (qs_list (shared c)) l /\
    length l = length ts /\
    NoDup l /\
    (forall t, t ∈ ts -> exists p r,
       tls_key (shared c) !! t = Some p /\ p ∈ l /\
       mem (shared c) !! p = Some r /\ local_epoch r = 0) /\
    (forall p, p ∈ l -> exists t,
       t ∈ ts /\ tls_key (shared c) !! t = Some p).
Proof.
  intros Hnd Hrace Hall. split; [reflexivity|].
  pose proof (race_inv_race ts sched _ _ (race_inv_start ts Hnd) Hrace) as Hinv.
  destruct (race_inv_all_returned ts c Hnd Hinv Hall)
    as (l & Hc & Hlen & Hndl & _ & Hthr & Hrec).
  exists l. done.
Qed.

Lemma registration_race_witness :
  qsbr_create true 0 = Some fresh_qsbr /\
  exists l,
    chain (mem (shared (race_final contended_schedule
                          (all_start [0%nat; 1%nat] fresh_qsbr))))
          (qs_list (shared (race_final contended_schedule
                              (all_start [0%nat; 1%nat] fresh_qsbr)))) l /\
    length l = length [0%nat; 1%nat] /\
    NoDup l /\
    (forall t, t ∈ [0%nat; 1%nat] -> exists p r,
       tls_key (shared (race_final contended_schedule
                          (all_start [0%nat; 1%nat] fresh_qsbr))) !! t
         = Some p /\ p ∈ l /\
       mem (shared (race_final contended_schedule
                      (all_start [0%nat; 1%nat] fresh_qsbr))) !! p
         = Some r /\ local_epoch r = 0) /\
    (forall p, p ∈ l -> exists t,
       t ∈ [0%nat; 1%nat] /\
       tls_key (shared (race_final contended_schedule
                          (all_start [0%nat; 1%nat] fresh_qsbr))) !! t
         = Some p).
Proof.
  apply (registration_race [0%nat; 1%nat] contended_schedule
           (race_final contended_schedule
              (all_start [0%nat; 1%nat] fresh_qsbr))).
  - compute_done.
  - reflexivity.
  - intros t Ht.
    apply elem_of_cons in Ht as [->|Ht]; [reflexivity|].
    apply elem_of_cons in Ht as [->|Ht]; [reflexivity|].
    inversion Ht.
Defined.

(** In the schedule of the example the compare-and-swap of thread 1 does
    fail, after eight steps, and the registry ends as the list 2 -> 1. *)
Example contended_schedule_retries :
  pcs (race_final (take 8 contended_schedule)
         (all_start [0%nat; 1%nat] fresh_qsbr)) !! 1%nat
    = Some (RegLoad 2%positive)
  /\ walk 2
       (mem (shared (race_final contended_schedule
                       (all_start [0%nat; 1%nat] fresh_qsbr))))
       (qs_list (shared (race_final contended_schedule
                           (all_start [0%nat; 1%nat] fresh_qsbr))))
     = Some [2%positive; 1%positive].
Proof. split; reflexivity. Qed.

(** The registration scenario of the spec with its 64 threads, under the
    round-robin scheduler: every compare-and-swap round lets one thread
    in and sends the others round the loop.  All the calls return 0 and
    the registry is a list of 64 records. *)
Example registration_race_64 :
  let c := race_final
             (round_robin 200 threads64 (all_start threads64 fresh_qsbr))
             (all_start threads64 fresh_qsbr) in
  race (round_robin 200 threads64 (all_start threads64 fresh_qsbr))
       (all_start threads64 fresh_qsbr) = Some c
  /\ forallb (fun t => match pcs c !! t with
                       | Some (RegReturned 0) => true
                       | _ => false
                       end) threads64 = true
  /\ length <$> walk 64 (mem (shared c)) (qs_list (shared c)) = Some 64%nat
  /\ Z.of_nat
       (length (round_robin 200 threads64 (all_start threads64 fresh_qsbr)))
     = 6304.
Proof. vm_compute. repeat split. Qed.




(** C10.  When a thread whose record [p] is linked in the registry
    registers again, [qsbr_register] returns 0 after clearing the record
    and pushing it on the head of the list, without unlinking it first:
    the head is [p], and following [next] from [p] leads back to [p], so
    the registry is a cycle on which [p] is met again and again, and no
    longer a list that ends at NULL.  From
    then on, as long as no call rewrites a link, a call of [qsbr_sync]
    by a registered thread for which every record of the cycle passes the
    grace-period test (after the caller's checkpoint) never leaves the
    scan: it does not return with any amount of fuel. *)
Theorem register_again_makes_cycle DEBUG fuel tid m qs p l :
  tls_key qs !! tid = Some p ->
  is_Some (mem qs !! p) ->
  seg (mem qs) (qs_list qs) l (Some p) ->
  exists qs1 c,
    qsbr_register (S fuel) tid m qs = Ok (0, qs1) /\
    qs_list qs1 = Some p /\
    cycle (mem qs1) p c /\
    (forall l', ~ chain (mem qs1) (qs_list qs1) l') /\
    forall polls tr qs2 c_tid target qs3,
      run_where DEBUG (S fuel) polls keeps_links qs1 tr qs2 ->
      qsbr_checkpoint DEBUG c_tid qs2 = Ok qs3 ->
      Forall (fun q => exists r, mem qs3 !! q = Some r /\ grace target r)
        (p :: c) ->
      forall n, qsbr_sync DEBUG n c_tid target qs2 = NoFuel.
Proof.
  intros Ht [r Hr] Hs.
  destruct (seg_first _ _ _ _ Hs) as (c & Hc & Hn).
  exists (registered_state tid p qs), c.
  assert (Hcyc : cycle (mem (registered_state tid p qs)) p c).
  { unfold cycle. simpl. split; [done|]. eexists.
    rewrite lookup_insert_eq. split; [done|]. simpl.
    by apply seg_insert_other. }
  split; [|split; [done|split; [exact Hcyc|split]]].
  { rewrite qsbr_register_spec, Ht, Hr. done. }
  { intros l'. simpl. by apply cycle_not_chain with (c := c). }
  intros polls tr qs2 c_tid target qs3 Hrun Hck HF n.
  destruct (run_keeps_links _ _ _ _ _ _ Hrun) as [Hq Hm].
  eapply qsbr_sync_cycle; [| |exact Hck|exact HF].
  - rewrite Hq. done.
  - unfold cycle. eapply seg_same_links; [|exact Hcyc].
    intros q _. apply Hm.
Qed.

Lemma register_again_makes_cycle_witness :
  exists qs1 c,
    qsbr_register 1 0%nat None two_threads = Ok (0, qs1) /\
    qs_list qs1 = Some 1%positive /\
    cycle (mem qs1) 1%positive c /\
    (forall l', ~ chain (mem qs1) (qs_list qs1) l') /\
    forall polls tr qs2 c_tid target qs3,
      run_where true 1 polls keeps_links qs1 tr qs2 ->
      qsbr_checkpoint true c_tid qs2 = Ok qs3 ->
      Forall (fun q => exists r, mem qs3 !! q = Some r /\ grace target r)
        (1%positive :: c) ->
      forall n, qsbr_sync true n c_tid target qs2 = NoFuel.
Proof.
  apply (register_again_makes_cycle true 0 0%nat None two_threads 1%positive
           [2%positive]).
  - reflexivity.
  - eexists. reflexivity.
  - simpl. split; [reflexivity|]. eexists. split; reflexivity.
Defined.

(** The same on the instance with two threads: thread 0 registers
    again, both threads publish a checkpoint, and a scan for the
    current epoch is still going round after a thousand records. *)
Example register_again_sync_spins :
  walk 1000
    (mem (final_state true 1 1 [OpRegister 0%nat None] two_threads))
    (qs_list (final_state true 1 1 [OpRegister 0%nat None] two_threads))
  = None
  /\ qsbr_sync true 1000 0%nat 2
       (final_state true 1 1
          [OpRegister 0%nat None; OpCheckpoint 0%nat; OpCheckpoint 1%nat]
          two_threads)
     = NoFuel.
Proof. split; vm_compute; reflexivity. Qed.

(** ** Further properties of qsbr.c *)

(** *** The caller's record *)

Lemma get_epoch_registered DEBUG tid qs p r :
  tls_key qs !! tid = Some p -> mem qs !! p = Some r ->
  qsbr_get_epoch DEBUG tid qs = Ok (local_epoch r).
Proof.
  intros Ht Hp. unfold qsbr_get_epoch, pthread_getspecific, ASSERT.
  rewrite Ht. rewrite bool_decide_true by done. rewrite andb_false_r.
  cbn. by rewrite Hp.
Qed.

Lemma get_epoch_stored DEBUG tid qs p e n :
  tls_key qs !! tid = Some p ->
  qsbr_get_epoch DEBUG tid (set_mem (<[p := mk_tls e n]> (mem qs)) qs) = Ok e.
Proof.
  intros Ht.
  rewrite (get_epoch_registered DEBUG tid _ p (mk_tls e n)); [done|done|].
  simpl. by rewrite lookup_insert_eq.
Qed.

Lemma checkpoint_twice DEBUG tid qs qs1 :
  qsbr_checkpoint DEBUG tid qs = Ok qs1 ->
  qsbr_checkpoint DEBUG tid qs1 = Ok qs1.
Proof.
  intros (p & r & Ht & Hp & ->)%checkpoint_inv.
  erewrite checkpoint_registered; [|exact Ht|simpl; apply lookup_insert_eq].
  simpl. unfold set_mem. simpl. by rewrite insert_insert_eq.
Qed.

(** X1.  [qsbr_get_epoch] reads back what the caller's last call has
    stored in its record and leaves the instance as it is: the value of
    the record for a registered thread, the global epoch after
    [qsbr_checkpoint] and after [qsbr_thread_online], the sentinel 1
    after [qsbr_thread_offline], and 0 after every [qsbr_register] that
    returns 0.  [qsbr_register] does return 0 to a thread that registers
    for the first time and is given memory, and to a thread that has a
    record already. *)
Theorem qsbr_get_epoch_reads_back DEBUG tid qs :
  (forall p r, tls_key qs !! tid = Some p -> mem qs !! p = Some r ->
     qsbr_get_epoch DEBUG tid qs = Ok (local_epoch r) /\
     (exists qs1, qsbr_checkpoint DEBUG tid qs = Ok qs1 /\
        qsbr_get_epoch DEBUG tid qs1 = Ok (global_epoch qs)) /\
     (exists qs1, qsbr_thread_offline DEBUG tid qs = Ok qs1 /\
        qsbr_get_epoch DEBUG tid qs1 = Ok OFFLINE_EPOCH) /\
     (exists qs1, qsbr_thread_online DEBUG tid qs = Ok qs1 /\
        qsbr_get_epoch DEBUG tid qs1 = Ok (global_epoch qs))) /\
  (forall fuel m qs1, qsbr_register fuel tid m qs = Ok (0, qs1) ->
     qsbr_get_epoch DEBUG tid qs1 = Ok 0) /\
  (forall fuel p, tls_key qs !! tid = None ->
     exists qs1, qsbr_register (S fuel) tid (Some p) qs = Ok (0, qs1) /\
       qsbr_get_epoch DEBUG tid qs1 = Ok 0) /\
  (forall fuel m p r, tls_key qs !! tid = Some p -> mem qs !! p = Some r ->
     exists qs1, qsbr_register (S fuel) tid m qs = Ok (0, qs1) /\
       qsbr_get_epoch DEBUG tid qs1 = Ok 0).
Proof.
  assert (Hreg : forall p,
            qsbr_get_epoch DEBUG tid (registered_state tid p qs) = Ok 0).
  { intros p.
    rewrite (get_epoch_registered DEBUG tid _ p (mk_tls 0 (qs_list qs)));
      [done| |]; simpl; by rewrite lookup_insert_eq. }
  split; [|split; [|split]].
  - intros p r Ht Hp.
    split; [exact (get_epoch_registered DEBUG tid qs p r Ht Hp)|].
    split; [|split].
    + eexists. split; [by apply checkpoint_registered|].
      by apply get_epoch_stored.
    + eexists. split; [exact (publish_registered DEBUG tid 1 qs p r Ht Hp)|].
      by apply get_epoch_stored.
    + eexists.
      split; [exact (publish_registered DEBUG tid _ qs p r Ht Hp)|].
      by apply get_epoch_stored.
  - intros fuel m qs1 Hr.
    apply qsbr_register_inv in Hr as [(Hrc & _)|(_ & p & -> & _)];
      [discriminate | apply Hreg].
  - intros fuel p Ht. rewrite qsbr_register_spec, Ht.
    eexists. split; [done | apply Hreg].
  - intros fuel m p r Ht Hp. rewrite qsbr_register_spec, Ht, Hp.
    eexists. split; [done | apply Hreg].
Qed.

Lemma qsbr_get_epoch_reads_back_witness :
  qsbr_get_epoch true 0%nat two_threads = Ok 0 /\
  (exists qs1, qsbr_checkpoint true 0%nat two_threads = Ok qs1 /\
     qsbr_get_epoch true 0%nat qs1 = Ok 2) /\
  (exists qs1, qsbr_thread_offline true 0%nat two_threads = Ok qs1 /\
     qsbr_get_epoch true 0%nat qs1 = Ok 1) /\
  (exists qs1,
     qsbr_register 1 2%nat (Some 3%positive) two_threads = Ok (0, qs1) /\
     qsbr_get_epoch true 2%nat qs1 = Ok 0) /\
  (exists qs1,
     qsbr_register 1 0%nat None
       (final_state true 1 1 [OpCheckpoint 0%nat] two_threads) = Ok (0, qs1) /\
     qsbr_get_epoch true 0%nat qs1 = Ok 0).
Proof.
  destruct (qsbr_get_epoch_reads_back true 0%nat two_threads)
    as (H1 & _ & _ & _).
  destruct (H1 1%positive (mk_tls 0 None) eq_refl eq_refl)
    as (Ha & Hb & Hc & _).
  split; [exact Ha|]. split; [exact Hb|]. split; [exact Hc|]. split.
  - destruct (qsbr_get_epoch_reads_back true 2%nat two_threads)
      as (_ & _ & H3 & _).
    apply (H3 0%nat 3%positive). by vm_compute.
  - destruct (qsbr_get_epoch_reads_back true 0%nat
                (final_state true 1 1 [OpCheckpoint 0%nat] two_threads))
      as (_ & _ & _ & H4).
    apply (H4 0%nat None 1%positive (mk_tls 2 None)); by vm_compute.
Defined.

(** X2.  A thread that has no record under the key (it never registered,
    or it has unregistered) violates the contract of every call that
    reads its record: [qsbr_checkpoint], [qsbr_get_epoch],
    [qsbr_thread_offline], [qsbr_thread_online], [qsbr_sync] and
    [qsbr_wait] all stop the program, on the assertion in a debug build
    and on the dereference of NULL in a release build. *)
Theorem calls_without_record_stop DEBUG fuel polls tid target qs :
  tls_key qs !! tid = None ->
  qsbr_checkpoint DEBUG tid qs = Fault (contract_violation DEBUG) /\
  qsbr_get_epoch DEBUG tid qs = Fault (contract_violation DEBUG) /\
  qsbr_thread_offline DEBUG tid qs = Fault (contract_violation DEBUG) /\
  qsbr_thread_online DEBUG tid qs = Fault (contract_violation DEBUG) /\
  qsbr_sync DEBUG fuel tid target qs = Fault (contract_violation DEBUG) /\
  qsbr_wait DEBUG (S polls) fuel tid qs = Fault (contract_violation DEBUG).
Proof.
  intros Ht.
  assert (Hck : forall qa, tls_key qa = tls_key qs ->
            qsbr_checkpoint DEBUG tid qa = Fault (contract_violation DEBUG)).
  { intros qa Hk. apply publish_unregistered. by rewrite Hk. }
  split; [by apply Hck|]. split.
  { unfold qsbr_get_epoch, pthread_getspecific, ASSERT. rewrite Ht.
    by destruct DEBUG. }
  split; [by apply publish_unregistered|].
  split; [by apply publish_unregistered|]. split.
  - unfold qsbr_sync. by rewrite Hck.
  - unfold qsbr_wait, qsbr_barrier, atomic_fetch_add. simpl.
    unfold qsbr_sync. by rewrite Hck.
Qed.

Lemma calls_without_record_stop_witness :
  qsbr_checkpoint false 0%nat (qsbr_unregister 0%nat two_threads)
    = Fault NullDeref /\
  qsbr_wait true 1 1 0%nat (qsbr_unregister 0%nat two_threads)
    = Fault AssertFailed.
Proof.
  split.
  - apply (calls_without_record_stop false 1 0 0%nat 0
             (qsbr_unregister 0%nat two_threads) eq_refl).
  - apply (calls_without_record_stop true 1 0 0%nat 0
             (qsbr_unregister 0%nat two_threads) eq_refl).
Defined.

(** X3.  Going offline and coming back online leaves the instance in the
    state a single [qsbr_checkpoint] leaves it in: in between the record
    holds the sentinel 1, afterwards the global epoch. *)
Theorem offline_then_online_is_checkpoint DEBUG tid qs qs1 qs2 :
  qsbr_thread_offline DEBUG tid qs = Ok qs1 ->
  qsbr_thread_online DEBUG tid qs1 = Ok qs2 ->
  local_epoch_of qs1 tid = Some OFFLINE_EPOCH /\
  qsbr_checkpoint DEBUG tid qs = Ok qs2 /\
  local_epoch_of qs2 tid = Some (global_epoch qs).
Proof.
  intros (p & r & Ht & Hp & ->)%thread_offline_inv Hon.
  split; [by apply local_epoch_of_store|].
  unfold qsbr_thread_online in Hon.
  erewrite publish_registered in Hon;
    [|exact Ht|simpl; apply lookup_insert_eq].
  injection Hon as <-. simpl.
  rewrite (checkpoint_registered DEBUG tid qs p r Ht Hp).
  unfold set_mem. simpl. rewrite insert_insert_eq. split; [done|].
  unfold local_epoch_of. simpl. rewrite Ht. by rewrite lookup_insert_eq.
Qed.

Lemma offline_then_online_is_checkpoint_witness :
  exists qs1 qs2,
    qsbr_thread_offline true 1%nat two_threads = Ok qs1 /\
    qsbr_thread_online true 1%nat qs1 = Ok qs2 /\
    qsbr_checkpoint true 1%nat two_threads = Ok qs2.
Proof.
  eexists _, _. split; [reflexivity|]. split; [reflexivity|].
  eapply (offline_then_online_is_checkpoint true 1%nat two_threads);
    reflexivity.
Defined.

(** *** Waiting for a grace period *)

Lemma wait_loop_stuck DEBUG fuel tid e qs qs1 :
  qsbr_checkpoint DEBUG tid qs = Ok qs1 ->
  sync_scan fuel (mem qs1) (qs_list qs1) e = Ok false ->
  forall polls, wait_loop DEBUG polls fuel tid e qs = NoFuel.
Proof.
  intros Hck Hs polls. revert qs Hck.
  induction polls as [|polls IH]; intros qs Hck; [done|].
  simpl. unfold qsbr_sync. rewrite Hck. cbn [bind]. rewrite Hs. cbn.
  apply IH. by eapply checkpoint_twice.
Qed.

(** X4.  A call of [qsbr_wait] that no other call interleaves with, by a
    registered thread on a registry that is a list whose records hold no
    epoch above the global epoch: the call returns if and only if every
    record other than the caller's is offline.  When it returns the global
    epoch is one more than before and is the caller's local epoch; when
    it does not, it polls forever. *)
Theorem qsbr_wait_alone DEBUG polls fuel tid qs p r l :
  tls_key qs !! tid = Some p ->
  mem qs !! p = Some r ->
  chain (mem qs) (qs_list qs) l ->
  (length l <= fuel)%nat ->
  0 <= global_epoch qs < EPOCH_MODULUS - 1 ->
  Forall (fun q => forall rq, mem qs !! q = Some rq ->
            local_epoch rq <= global_epoch qs) l ->
  (Forall (fun q => q = p \/ exists rq, mem qs !! q = Some rq /\
             local_epoch rq = OFFLINE_EPOCH) l ->
   exists qs', qsbr_wait DEBUG (S polls) fuel tid qs = Ok qs' /\
     global_epoch qs' = global_epoch qs + 1 /\
     local_epoch_of qs' tid = Some (global_epoch qs + 1)) /\
  (~ Forall (fun q => q = p \/ exists rq, mem qs !! q = Some rq /\
               local_epoch rq = OFFLINE_EPOCH) l ->
   forall n, qsbr_wait DEBUG n fuel tid qs = NoFuel).
Proof.
  intros Ht Hp Hc Hlen Hg Hle.
  assert (Hw : wrap64 (global_epoch qs + 1) = global_epoch qs + 1).
  { apply wrap64_small. unfold epoch_in_range. lia. }
  set (qb := set_global_epoch (global_epoch qs + 1) qs).
  set (qc := set_mem (<[p := mk_tls (global_epoch qs + 1) (next r)]> (mem qs))
               qb).
  assert (Hck : qsbr_checkpoint DEBUG tid qb = Ok qc).
  { exact (checkpoint_registered DEBUG tid qb p r Ht Hp). }
  assert (Hcc : chain (mem qc) (qs_list qc) l).
  { simpl. by apply seg_store_epoch. }
  destruct (sync_scan_chain fuel _ _ _ (global_epoch qs + 1) Hcc Hlen)
    as (b & Hscan & Hb).
  assert (Hiff : b = true <->
    Forall (fun q => q = p \/ exists rq, mem qs !! q = Some rq /\
              local_epoch rq = OFFLINE_EPOCH) l).
  { rewrite Hb, !Forall_forall. split; intros H q Hq.
    - destruct (decide (q = p)) as [->|Hne]; [by left | right].
      destruct (H q Hq) as (rq & Hrq & Hgr). simpl in Hrq.
      rewrite lookup_insert_ne in Hrq by done.
      exists rq. split; [done|].
      rewrite Forall_forall in Hle. specialize (Hle q Hq rq Hrq).
      unfold grace in Hgr. lia.
    - destruct (decide (q = p)) as [->|Hne].
      + eexists. simpl. rewrite lookup_insert_eq. split; [done|].
        right. simpl. lia.
      + destruct (H q Hq) as [?|(rq & Hrq & H1)]; [done|].
        exists rq. simpl. rewrite lookup_insert_ne by done.
        split; [done | by left]. }
  assert (Hwait : forall n, qsbr_wait DEBUG n fuel tid qs
            = wait_loop DEBUG n fuel tid (global_epoch qs + 1) qb).
  { intros n. unfold qsbr_wait, qsbr_barrier, atomic_fetch_add.
    cbn [fst snd]. by rewrite Hw. }
  split.
  - intros Hoff. apply Hiff in Hoff. subst b. exists qc.
    rewrite Hwait. simpl. unfold qsbr_sync. rewrite Hck. cbn [bind].
    rewrite Hscan. cbn. split; [done|]. split; [done|].
    unfold local_epoch_of. simpl. rewrite Ht. by rewrite lookup_insert_eq.
  - intros Hoff n. rewrite Hwait.
    apply (wait_loop_stuck DEBUG fuel tid _ qb qc Hck).
    destruct b; [|done]. exfalso. apply Hoff. by apply Hiff.
Qed.

Lemma qsbr_wait_alone_witness :
  (exists qs', qsbr_wait true 1 5 0%nat
                 (final_state true 5 1
                    [OpThreadOffline 1%nat; OpThreadOffline 2%nat]
                    two_readers_offline) = Ok qs' /\
     global_epoch qs' = 4) /\
  qsbr_wait true 100 5 0%nat two_readers_offline = NoFuel.
Proof.
  split.
  - destruct (qsbr_wait_alone true 0 5 0%nat
                (final_state true 5 1
                   [OpThreadOffline 1%nat; OpThreadOffline 2%nat]
                   two_readers_offline)
                1%positive (mk_tls 0 None)
                [5; 4; 3; 2; 1]%positive) as [H _].
    + by vm_compute.
    + by vm_compute.
    + apply (walk_chain 5). by vm_compute.
    + simpl. lia.
    + by vm_compute.
    + repeat (constructor;
        [intros rq Hrq; vm_compute in Hrq; injection Hrq as <-;
         by vm_compute|]).
      constructor.
    + destruct H as (qs' & H1 & H2 & _).
      * repeat (constructor;
          [first [by left | right; eexists; split; by vm_compute]|]).
        constructor.
      * exists qs'. split; [exact H1 | exact H2].
  - destruct (qsbr_wait_alone true 0 5 0%nat two_readers_offline
                1%positive (mk_tls 0 None)
                [5; 4; 3; 2; 1]%positive) as [_ H].
    + by vm_compute.
    + by vm_compute.
    + apply (walk_chain 5). by vm_compute.
    + simpl. lia.
    + by vm_compute.
    + repeat (constructor;
        [intros rq Hrq; vm_compute in Hrq; injection Hrq as <-;
         by vm_compute|]).
      constructor.
    + apply H. intros HF.
      apply Forall_cons in HF as [_ HF]. apply Forall_cons in HF as [_ HF].
      apply Forall_cons in HF as [HF _].
      destruct HF as [HF|(rq & Hrq & HF)]; [discriminate|].
      vm_compute in Hrq. injection Hrq as <-. vm_compute in HF. discriminate.
Defined.

Lemma sync_scan_smaller_target fuel h target target' :
  target' <= target ->
  forall t, sync_scan fuel h t target = Ok true ->
  sync_scan fuel h t target' = Ok true.
Proof.
  intros Hle. induction fuel as [|fuel IH]; intros [p|]; simpl; try done.
  destruct (h !! p) as [r|]; [|done]. cbn.
  destruct (negb (local_epoch r =? 1) && (local_epoch r <? target)) eqn:E;
    [done|].
  intros Hs. apply scan_test_spec in E.
  assert (E' : grace target' r) by (unfold grace in *; lia).
  apply scan_test_spec in E'. rewrite E'. by apply IH.
Qed.

(** X5.  The answer of [qsbr_sync] is monotone in the target: when a call
    answers true for a target, the same call answers true for every
    smaller target, with the same state; and the call made again in the
    state it returned answers true again and changes nothing. *)
Theorem qsbr_sync_smaller_target DEBUG fuel tid target target' qs qs' :
  target' <= target ->
  qsbr_sync DEBUG fuel tid target qs = Ok (true, qs') ->
  qsbr_sync DEBUG fuel tid target' qs = Ok (true, qs') /\
  qsbr_sync DEBUG fuel tid target qs' = Ok (true, qs').
Proof.
  intros Hle [Hck Hs]%sync_inv. unfold qsbr_sync. split.
  - rewrite Hck. cbn [bind].
    by rewrite (sync_scan_smaller_target _ _ _ _ Hle _ Hs).
  - rewrite (checkpoint_twice _ _ _ _ Hck). cbn [bind]. by rewrite Hs.
Qed.

Lemma qsbr_sync_smaller_target_witness :
  exists qs',
    qsbr_sync true 5 0%nat 2 readers_online = Ok (true, qs') /\
    qsbr_sync true 5 0%nat 1 readers_online = Ok (true, qs') /\
    qsbr_sync true 5 0%nat 2 qs' = Ok (true, qs').
Proof.
  eexists. split; [by vm_compute|].
  apply (qsbr_sync_smaller_target true 5 0%nat 2 1 readers_online);
    [lia | by vm_compute].
Defined.

(** *** Unregistering *)

Lemma qsbr_unregister_no_record tid qs :
  tls_key qs !! tid = None -> qsbr_unregister tid qs = qs.
Proof.
  destruct qs as [g k hd h]. simpl. intros Hk.
  unfold qsbr_unregister, pthread_getspecific, pthread_setspecific,
    set_tls_key. simpl. rewrite Hk. simpl. by rewrite delete_id.
Qed.

Lemma qsbr_unregister_frame tid qs :
  global_epoch (qsbr_unregister tid qs) = global_epoch qs /\
  qs_list (qsbr_unregister tid qs) = qs_list qs /\
  (forall t, t <> tid ->
     tls_key (qsbr_unregister tid qs) !! t = tls_key qs !! t) /\
  (forall q, tls_key qs !! tid <> Some q ->
     mem (qsbr_unregister tid qs) !! q = mem qs !! q) /\
  (forall q rq, mem (qsbr_unregister tid qs) !! q = Some rq ->
     mem qs !! q = Some rq).
Proof.
  unfold qsbr_unregister, pthread_getspecific, pthread_setspecific.
  destruct (tls_key qs !! tid) as [p|] eqn:Ht; simpl.
  - split; [done|]. split; [done|]. split; [|split].
    + intros t Hne. by rewrite lookup_delete_ne.
    + intros q Hq. rewrite lookup_delete_ne; [done|]. congruence.
    + by intros q rq [_ ?]%lookup_delete_Some.
  - split; [done|]. split; [done|]. split; [|done].
    intros t Hne. by rewrite lookup_delete_ne.
Qed.

(** X6.  [qsbr_unregister] by a thread that has no record does nothing
    ([free(NULL)], and the slot of the key is NULL already); so a second
    [qsbr_unregister] in a row frees nothing twice.  Whoever calls it, the
    records and slots of the other threads, the head of the registry and
    the global epoch stay what they were. *)
Theorem qsbr_unregister_twice tid qs :
  (tls_key qs !! tid = None -> qsbr_unregister tid qs = qs) /\
  qsbr_unregister tid (qsbr_unregister tid qs) = qsbr_unregister tid qs /\
  global_epoch (qsbr_unregister tid qs) = global_epoch qs /\
  qs_list (qsbr_unregister tid qs) = qs_list qs /\
  (forall t, t <> tid ->
     tls_key (qsbr_unregister tid qs) !! t = tls_key qs !! t) /\
  (forall q, tls_key qs !! tid <> Some q ->
     mem (qsbr_unregister tid qs) !! q = mem qs !! q).
Proof.
  split; [apply qsbr_unregister_no_record|]. split.
  { apply qsbr_unregister_no_record.
    unfold qsbr_unregister, pthread_setspecific. simpl.
    apply lookup_delete_eq. }
  destruct (qsbr_unregister_frame tid qs) as (H1 & H2 & H3 & H4 & _).
  done.
Qed.

(** *** What the calls of other threads leave alone *)

(** X7.  Only its owner writes a record: along a run in which thread [R]
    makes no call, the slot of [R] under the key and the whole record of
    [R] (its local epoch and its link) stay what they were, whatever the
    other threads call. *)
Theorem only_owner_writes_record DEBUG fuel polls R p qs tr qs' :
  run DEBUG fuel polls qs tr qs' ->
  tls_ok qs ->
  tls_key qs !! R = Some p ->
  Forall (fun ev => caller (fst ev) <> Some R) tr ->
  tls_key qs' !! R = Some p /\ mem qs' !! p = mem qs !! p.
Proof.
  induction 1 as [qs|qs o v qs1 tr qs2 _ Hf Hex _ IH]; intros Hok Ht Hall;
    [done|].
  apply Forall_cons in Hall as [Hc Hall]. simpl in Hc.
  destruct (exec_other_record _ _ _ _ _ _ _ R p Hok Hf Hex Hc Ht) as [Ht1 Hp1].
  destruct IH as [Ht2 Hp2]; [by eapply exec_tls_ok|done|done|].
  split; [done|]. by rewrite Hp2.
Qed.

Lemma only_owner_writes_record_witness :
  tls_key (final_state true 5 1
             [OpCheckpoint 0%nat; OpBarrier; OpRegister 2%nat (Some 3%positive);
              OpSync 0%nat 3; OpUnregister 0%nat] two_threads) !! 1%nat
    = Some 2%positive /\
  mem (final_state true 5 1
         [OpCheckpoint 0%nat; OpBarrier; OpRegister 2%nat (Some 3%positive);
          OpSync 0%nat 3; OpUnregister 0%nat] two_threads) !! 2%positive
    = mem two_threads !! 2%positive.
Proof.
  apply (only_owner_writes_record true 5 1 1%nat 2%positive two_threads
           (trace_of true 5 1
              [OpCheckpoint 0%nat; OpBarrier;
               OpRegister 2%nat (Some 3%positive);
               OpSync 0%nat 3; OpUnregister 0%nat] two_threads)).
  - apply (run_ops_sound true 5 1
             [OpCheckpoint 0%nat; OpBarrier;
              OpRegister 2%nat (Some 3%positive);
              OpSync 0%nat 3; OpUnregister 0%nat]).
    by vm_compute.
  - apply tls_ok_two_threads.
  - by vm_compute.
  - vm_compute. repeat (constructor; [discriminate|]). constructor.
Defined.

(** X8.  In every state that calls reach from a fresh instance, the
    record a thread has under the key is allocated, and no two threads
    have the same record. *)
Theorem records_live_and_distinct DEBUG fuel polls tr qs :
  run DEBUG fuel polls fresh_qsbr tr qs ->
  tls_live qs /\ tls_inj qs.
Proof.
  intros Hrun. exact (run_tls_ok _ _ _ _ _ _ _ Hrun tls_ok_fresh).
Qed.

Lemma records_live_and_distinct_witness :
  tls_live after_unregister /\ tls_inj after_unregister.
Proof.
  apply (records_live_and_distinct true 1 1
           (trace_of true 1 1
              [OpRegister 0%nat (Some 1%positive);
               OpRegister 1%nat (Some 2%positive); OpUnregister 0%nat]
              fresh_qsbr)).
  apply (run_ops_sound true 1 1
           [OpRegister 0%nat (Some 1%positive);
            OpRegister 1%nat (Some 2%positive); OpUnregister 0%nat]).
  by vm_compute.
Defined.

(** *** Local epochs stay below the global epoch *)

Lemma epochs_bounded_published tid e qs qs' :
  published tid e qs qs' ->
  0 <= e <= global_epoch qs ->
  epochs_bounded qs -> epochs_bounded qs'.
Proof.
  intros (p & r & Ht & Hp & ->) He [Hg Hb]. split; [done|].
  intros q rq. simpl. destruct (decide (q = p)) as [->|Hne].
  - rewrite lookup_insert_eq. intros [= <-]. simpl. lia.
  - rewrite lookup_insert_ne by done. apply Hb.
Qed.

Lemma epochs_bounded_set_global_epoch e qs :
  global_epoch qs <= e ->
  epochs_bounded qs -> epochs_bounded (set_global_epoch e qs).
Proof.
  intros He [Hg Hb]. split; simpl; [lia|].
  intros q rq Hq. specialize (Hb q rq Hq). lia.
Qed.

Lemma exec_epochs_bounded DEBUG fuel polls o qs v qs' :
  exec DEBUG fuel polls o qs = Ok (v, qs') ->
  global_epoch qs + (if advances_epoch o then 1 else 0) < EPOCH_MODULUS ->
  epochs_bounded qs -> epochs_bounded qs'.
Proof.
  intros Hex%exec_effect Hlt Hb.
  assert (Hg : OFFLINE_EPOCH < global_epoch qs) by apply Hb.
  unfold OFFLINE_EPOCH in Hg.
  assert (Hw : advances_epoch o = true ->
            wrap64 (global_epoch qs + 1) = global_epoch qs + 1).
  { intros E. rewrite E in Hlt. apply wrap64_small.
    unfold epoch_in_range. lia. }
  destruct o as [tid m|tid|tid|tid| |tid target|tid|tid|tid]; simpl in *.
  - destruct Hex as [(_ & -> & _)|(_ & q & -> & _)]; [done|].
    destruct Hb as [_ Hb]. split; [done|]. intros q' rq. simpl.
    destruct (decide (q' = q)) as [->|Hne].
    + rewrite lookup_insert_eq. intros [= <-]. simpl. lia.
    + rewrite lookup_insert_ne by done. apply Hb.
  - destruct Hex as [_ ->]. destruct Hb as [_ Hb].
    destruct (qsbr_unregister_frame tid qs) as (Hge & _ & _ & _ & Hsub).
    split; [unfold OFFLINE_EPOCH; lia|]. rewrite Hge.
    intros q rq Hq. apply (Hb q). by apply Hsub.
  - destruct Hex as [_ Hex]. eapply epochs_bounded_published; [done| |done].
    lia.
  - by destruct Hex as (e & _ & -> & _).
  - destruct Hex as [_ ->]. rewrite Hw by done.
    apply epochs_bounded_set_global_epoch; [lia | done].
  - destruct Hex as [_ Hex]. eapply epochs_bounded_published; [done| |done].
    lia.
  - destruct Hex as [_ Hex]. rewrite Hw in Hex by done.
    eapply epochs_bounded_published; [done| |].
    + simpl. lia.
    + apply epochs_bounded_set_global_epoch; [lia | done].
  - destruct Hex as [_ Hex]. eapply epochs_bounded_published; [done| |done].
    unfold OFFLINE_EPOCH. lia.
  - destruct Hex as [_ Hex]. eapply epochs_bounded_published; [done| |done].
    lia.
Qed.

Lemma run_epochs_bounded DEBUG fuel polls G qs tr qs' :
  run_where DEBUG fuel polls G qs tr qs' ->
  global_epoch qs + Z.of_nat (barriers tr) < EPOCH_MODULUS ->
  epochs_bounded qs -> epochs_bounded qs'.
Proof.
  induction 1 as [qs|qs o v qs1 tr qs2 _ _ Hex _ IH]; intros Hlt Hb; [done|].
  rewrite barriers_cons in Hlt.
  assert (Hg : OFFLINE_EPOCH < global_epoch qs) by apply Hb.
  unfold OFFLINE_EPOCH in Hg.
  pose proof (exec_global_epoch _ _ _ _ _ _ _ Hex) as Hge.
  apply IH.
  - rewrite Hge. destruct (advances_epoch o).
    + rewrite wrap64_small; [lia|]. unfold epoch_in_range. lia.
    + simpl in Hlt. lia.
  - eapply exec_epochs_bounded; [done| |done].
    destruct (advances_epoch o); lia.
Qed.

(** X9.  As long as the epoch counter has not wrapped round, no record
    holds an epoch above the global epoch: in every state that calls reach
    from a fresh instance, the local epoch of every allocated record is
    between 0 and the global epoch, and the global epoch is 2 plus the
    number of barriers issued. *)
Theorem local_epochs_bounded_by_global DEBUG fuel polls tr qs :
  run DEBUG fuel polls fresh_qsbr tr qs ->
  2 + Z.of_nat (barriers tr) < EPOCH_MODULUS ->
  global_epoch qs = 2 + Z.of_nat (barriers tr) /\
  forall p r, mem qs !! p = Some r -> 0 <= local_epoch r <= global_epoch qs.
Proof.
  intros Hrun Hlt. split.
  - by apply (run_global_epoch _ _ _ _ _ _ _ Hrun).
  - eapply (run_epochs_bounded _ _ _ _ _ _ _ Hrun); [done|].
    split; [done|]. intros p r. simpl. by rewrite lookup_empty.
Qed.

Lemma local_epochs_bounded_by_global_witness :
  global_epoch two_readers_offline = 3 /\
  forall p r, mem two_readers_offline !! p = Some r ->
    0 <= local_epoch r <= global_epoch two_readers_offline.
Proof.
  apply (local_epochs_bounded_by_global true 1 1
    (trace_of true 1 1
    [OpRegister 0%nat (Some 1%positive); OpRegister 1%nat (Some 2%positive);
     OpRegister 2%nat (Some 3%positive); OpRegister 3%nat (Some 4%positive);
     OpRegister 4%nat (Some 5%positive);
     OpCheckpoint 1%nat; OpCheckpoint 2%nat; OpCheckpoint 3%nat;
     OpCheckpoint 4%nat;
     OpThreadOffline 3%nat; OpThreadOffline 4%nat; OpBarrier] fresh_qsbr)).
  - apply (run_ops_sound true 1 1
    [OpRegister 0%nat (Some 1%positive); OpRegister 1%nat (Some 2%positive);
     OpRegister 2%nat (Some 3%positive); OpRegister 3%nat (Some 4%positive);
     OpRegister 4%nat (Some 5%positive);
     OpCheckpoint 1%nat; OpCheckpoint 2%nat; OpCheckpoint 3%nat;
     OpCheckpoint 4%nat;
     OpThreadOffline 3%nat; OpThreadOffline 4%nat; OpBarrier]).
    by vm_compute.
  - by vm_compute.
Defined.

(** *** A reader that has not yet passed a quiescent state *)

Lemma stale_record_weaken R p e k k' qs :
  (k <= k')%nat -> stale_record R p e k qs -> stale_record R p e k' qs.
Proof.
  intros Hk (Ht & Hr & l & Hs & Hn & Hlen).
  split; [done|]. split; [done|]. exists l. split; [done|]. split; [done|]. lia.
Qed.

Lemma exec_stale_record DEBUG fuel polls o qs v qs' R p e k :
  tls_ok qs ->
  malloc_fresh o qs ->
  exec DEBUG fuel polls o qs = Ok (v, qs') ->
  undisturbed R o qs ->
  stale_record R p e k qs ->
  stale_record R p e (S k) qs'.
Proof.
  intros Hok Hfresh Hex [Hc Hu] Hw.
  destruct Hw as (Ht & (r & Hr & Hr0) & l & Hs & Hn & Hlen).
  destruct (exec_other_record _ _ _ _ _ _ _ R p Hok Hfresh Hex Hc Ht)
    as [Ht' Hp'].
  split; [done|]. split; [exists r; by rewrite Hp'|].
  apply exec_effect in Hex. destruct Hok as [Hl Hi].
  assert (Hpub : forall tid e qa, tid <> R ->
    tls_key qa = tls_key qs -> mem qa = mem qs -> qs_list qa = qs_list qs ->
    published tid e qa qs' ->
    exists l', seg (mem qs') (qs_list qs') l' (Some p) /\ (p ∉ l') /\
      (length l' <= S k)%nat).
  { intros tid e' qa Hne Hk Hm Hq (q & rq & Htq & Hrq & ->). simpl.
    rewrite Hk, Hm, Hq in *. exists l. split; [|split; [done | lia]].
    by apply seg_store_epoch. }
  destruct o as [tid m|tid|tid|tid| |tid target|tid|tid|tid]; simpl in *;
    try (assert (tid <> R) by congruence).
  - destruct Hex as [(_ & -> & _)|(_ & q & -> & Hcase)].
    { exists l. split; [done|]. split; [done | lia]. }
    destruct Hcase as [[_ ->]|[Hq _]]; [|congruence].
    assert (q <> p) by (intros ->; congruence).
    assert (q ∉ l).
    { intros Hin. destruct (seg_live _ _ _ _ _ Hs Hin) as [rq Hrq].
      congruence. }
    exists (q :: l). simpl. split; [|split].
    + split; [done|]. eexists. rewrite lookup_insert_eq. split; [done|].
      simpl. by apply seg_insert_other.
    + intros [?|?]%elem_of_cons; congruence.
    + lia.
  - contradiction.
  - destruct Hex as [_ Hex]. by refine (Hpub _ _ _ H _ _ _ Hex).
  - destruct Hex as (e' & _ & -> & _). exists l. split; [done|].
    split; [done | lia].
  - destruct Hex as [_ ->]. exists l. split; [done|]. split; [done | lia].
  - destruct Hex as [_ Hex]. by refine (Hpub _ _ _ H _ _ _ Hex).
  - destruct Hex as [_ Hex]. by refine (Hpub _ _ _ H _ _ _ Hex).
  - destruct Hex as [_ Hex]. by refine (Hpub _ _ _ H _ _ _ Hex).
  - destruct Hex as [_ Hex]. by refine (Hpub _ _ _ H _ _ _ Hex).
Qed.

Lemma run_stale_record DEBUG fuel polls R p e qs tr qs' :
  run_where DEBUG fuel polls (undisturbed R) qs tr qs' ->
  forall k, tls_ok qs -> stale_record R p e k qs ->
  stale_record R p e (k + length tr) qs'.
Proof.
  induction 1 as [qs|qs o v qs1 tr qs2 Hu Hf Hex _ IH]; intros k Hok Hw.
  - simpl. eapply stale_record_weaken; [|exact Hw]. lia.
  - simpl. replace (k + S (length tr))%nat with (S k + length tr)%nat by lia.
    apply IH.
    + eapply exec_tls_ok; eassumption.
    + eapply exec_stale_record; eassumption.
Qed.

(** X10.  A grace period is not over while a reader has not passed a
    quiescent state.  Thread [R] is online, its record is linked in the
    registry and holds an epoch [e] below [target].  As long as [R] makes
    no call, whatever the other threads call in between (short of
    unregistering or registering again), every [qsbr_sync] for [target]
    by another registered thread returns, and returns false. *)
Theorem sync_waits_for_stale_reader
    DEBUG fuel polls n R c p e target k qs tr qs' :
  tls_ok qs ->
  stale_record R p e k qs ->
  e <> OFFLINE_EPOCH ->
  e < target ->
  run_where DEBUG fuel polls (undisturbed R) qs tr qs' ->
  c <> R ->
  is_Some (tls_key qs' !! c) ->
  (k + length tr < n)%nat ->
  exists qs'', qsbr_sync DEBUG n c target qs' = Ok (false, qs'') /\
    stale_record R p e (k + length tr) qs''.
Proof.
  intros Hok Hst He Hlt Hrun Hc [pc Hpc] Hn.
  pose proof (run_tls_ok _ _ _ _ _ _ _ Hrun Hok) as [Hl Hi].
  destruct (run_stale_record _ _ _ _ _ _ _ _ _ Hrun k Hok Hst)
    as (Ht & (r & Hr & Hre) & l & Hs & Hnl & Hlen).
  destruct (Hl _ _ Hpc) as [rc Hrc].
  assert (pc <> p) by (intros ->; apply Hc; eapply Hi; eassumption).
  eexists. unfold qsbr_sync.
  rewrite (checkpoint_registered DEBUG c qs' pc rc Hpc Hrc). cbn [bind].
  erewrite (sync_scan_seg_false n _ _ l p r target).
  - simpl. split; [done|]. split; [done|]. split.
    + exists r. simpl. by rewrite lookup_insert_ne.
    + exists l. simpl. split; [by apply seg_store_epoch | done].
  - simpl. by apply seg_store_epoch.
  - simpl. by rewrite lookup_insert_ne.
  - unfold grace. lia.
  - lia.
Qed.

Lemma sync_waits_for_stale_reader_witness :
  exists qs'',
    qsbr_sync true 5 0%nat 3
      (final_state true 5 1
         [OpCheckpoint 0%nat; OpRegister 2%nat (Some 3%positive);
          OpCheckpoint 2%nat] readers_online)
    = Ok (false, qs'') /\
    stale_record 1%nat 2%positive 2 3 qs''.
Proof.
  apply (sync_waits_for_stale_reader true 5 1 5 1%nat 0%nat 2%positive 2 3
           0 readers_online
           (trace_of true 5 1
              [OpCheckpoint 0%nat; OpRegister 2%nat (Some 3%positive);
               OpCheckpoint 2%nat] readers_online)).
  - apply (run_ops_tls_ok true 1 1
      [OpRegister 0%nat (Some 1%positive); OpRegister 1%nat (Some 2%positive);
       OpCheckpoint 0%nat; OpCheckpoint 1%nat; OpBarrier]
      (trace_of true 1 1
      [OpRegister 0%nat (Some 1%positive); OpRegister 1%nat (Some 2%positive);
       OpCheckpoint 0%nat; OpCheckpoint 1%nat; OpBarrier] fresh_qsbr)).
    by vm_compute.
  - split; [by vm_compute|]. split; [eexists; split; by vm_compute|].
    exists []. split; [by vm_compute|]. split; [apply not_elem_of_nil|].
    simpl. lia.
  - discriminate.
  - lia.
  - repeat (eapply run_cons;
              [split; [discriminate | exact I || reflexivity]
              | exact I || reflexivity | reflexivity |]).
    apply run_nil.
  - discriminate.
  - eexists. reflexivity.
  - vm_compute. lia.
Defined.

(** *** Registration at the head of the registry *)

(** X11.  A first registration pushes the caller's record at the head of
    the registry: the call returns 0, the registry is the new record
    followed by the records it held before, the record is cleared and is
    the one under the caller's key, and nothing else changes (the global
    epoch, the slots and the records of the other threads). *)
Theorem qsbr_register_pushes_front fuel tid p qs l :
  tls_key qs !! tid = None ->
  mem qs !! p = None ->
  chain (mem qs) (qs_list qs) l ->
  exists qs',
    qsbr_register (S fuel) tid (Some p) qs = Ok (0, qs') /\
    chain (mem qs') (qs_list qs') (p :: l) /\
    tls_key qs' !! tid = Some p /\
    mem qs' !! p = Some (mk_tls 0 (qs_list qs)) /\
    global_epoch qs' = global_epoch qs /\
    (forall t, t <> tid -> tls_key qs' !! t = tls_key qs !! t) /\
    (forall q, q <> p -> mem qs' !! q = mem qs !! q).
Proof.
  intros Ht Hp Hc. rewrite qsbr_register_spec, Ht.
  eexists. split; [done|]. simpl.
  assert (p ∉ l).
  { intros Hin. destruct (seg_live _ _ _ _ _ Hc Hin) as [r Hr]. congruence. }
  split; [|split; [|split; [|split; [|split]]]].
  - split; [done|]. eexists. rewrite lookup_insert_eq. split; [done|].
    simpl. by apply seg_insert_other.
  - by rewrite lookup_insert_eq.
  - by rewrite lookup_insert_eq.
  - done.
  - intros t Hne. by rewrite lookup_insert_ne.
  - intros q Hne. by rewrite lookup_insert_ne.
Qed.

Lemma qsbr_register_pushes_front_witness :
  exists qs',
    qsbr_register 1 2%nat (Some 3%positive) two_threads = Ok (0, qs') /\
    chain (mem qs') (qs_list qs') [3; 2; 1]%positive.
Proof.
  destruct (qsbr_register_pushes_front 0 2%nat 3%positive two_threads
              [2; 1]%positive) as (qs' & H1 & H2 & _).
  - by vm_compute.
  - by vm_compute.
  - apply (walk_chain 2). by vm_compute.
  - exists qs'. split; [exact H1 | exact H2].
Defined.

(** X12.  A registration that fails changes nothing: when
    [qsbr_register] returns a value other than 0, the instance is the one
    it was called on, and the same thread registers successfully as soon
    as the allocator has memory again. *)
Theorem qsbr_register_failure_changes_nothing fuel tid m qs rc qs' :
  qsbr_register fuel tid m qs = Ok (rc, qs') ->
  rc <> 0 ->
  qs' = qs /\
  forall fuel' p, mem qs !! p = None ->
    exists qs2, qsbr_register (S fuel') tid (Some p) qs' = Ok (0, qs2) /\
      tls_key qs2 !! tid = Some p.
Proof.
  intros [(-> & -> & Ht & ->)|(-> & _)]%qsbr_register_inv Hrc; [|done].
  split; [done|]. intros fuel' p Hp.
  rewrite qsbr_register_spec, Ht. eexists. split; [done|].
  simpl. by rewrite lookup_insert_eq.
Qed.

Lemma qsbr_register_failure_changes_nothing_witness :
  qsbr_register 1 2%nat None two_threads = Ok (ENOMEM, two_threads) /\
  exists qs2,
    qsbr_register 1 2%nat (Some 3%positive) two_threads = Ok (0, qs2) /\
    tls_key qs2 !! 2%nat = Some 3%positive.
Proof.
  split; [by vm_compute|].
  destruct (qsbr_register_failure_changes_nothing 1 2%nat None two_threads
              ENOMEM two_threads) as [_ H].
  - by vm_compute.
  - discriminate.
  - apply (H 0%nat 3%positive). by vm_compute.
Defined.

(** *** Barriers *)

(** X13.  Until the counter wraps round, no two barriers return the same
    epoch: a barrier issued after a run returns the epoch of a barrier
    issued before the run, plus the number of barriers of the run, plus
    one. *)
Theorem barrier_epochs_increase DEBUG fuel polls G qs tr qs' :
  0 <= global_epoch qs ->
  global_epoch qs + Z.of_nat (barriers tr) + 1 < EPOCH_MODULUS - 1 ->
  run_where DEBUG fuel polls G (snd (qsbr_barrier qs)) tr qs' ->
  fst (qsbr_barrier qs') =
    fst (qsbr_barrier qs) + Z.of_nat (barriers tr) + 1 /\
  fst (qsbr_barrier qs) < fst (qsbr_barrier qs').
Proof.
  intros Hg Hlt Hrun.
  assert (Hw : wrap64 (global_epoch qs + 1) = global_epoch qs + 1).
  { apply wrap64_small. unfold epoch_in_range. lia. }
  apply run_global_epoch in Hrun; unfold qsbr_barrier, atomic_fetch_add in *;
    simpl in *; rewrite ?Hw in *; try lia.
  rewrite Hrun.
  rewrite (wrap64_small (global_epoch qs + 1 + Z.of_nat (barriers tr) + 1)).
  - lia.
  - unfold epoch_in_range. lia.
Qed.

Lemma barrier_epochs_increase_witness :
  fst (qsbr_barrier
         (final_state true 5 1 [OpCheckpoint 0%nat; OpBarrier; OpWait 0%nat]
            (snd (qsbr_barrier one_thread)))) = 6 /\
  fst (qsbr_barrier one_thread) = 3.
Proof.
  destruct (barrier_epochs_increase true 5 1 (fun _ _ => True) one_thread
    (trace_of true 5 1 [OpCheckpoint 0%nat; OpBarrier; OpWait 0%nat]
       (snd (qsbr_barrier one_thread)))
    (final_state true 5 1 [OpCheckpoint 0%nat; OpBarrier; OpWait 0%nat]
       (snd (qsbr_barrier one_thread)))) as [H _].
  - by vm_compute.
  - by vm_compute.
  - apply (run_ops_sound true 5 1
             [OpCheckpoint 0%nat; OpBarrier; OpWait 0%nat]).
    by vm_compute.
  - split; [exact H | by vm_compute].
Defined.

(** *** A record that is handed out again *)



(** ** The stress test *)

(** *** The steps of a checkpoint *)

Lemma checkpoint_load_registered DEBUG id qs p :
  tls_key qs !! id = Some p ->
  checkpoint_load DEBUG id qs = Ok (global_epoch qs).
Proof.
  intros Ht. unfold checkpoint_load, pthread_getspecific, ASSERT.
  rewrite Ht. rewrite bool_decide_true by done. by rewrite andb_false_r.
Qed.

Lemma checkpoint_store_registered id e qs p r :
  tls_key qs !! id = Some p -> mem qs !! p = Some r ->
  checkpoint_store id e qs
  = Ok (set_mem (<[p := mk_tls e (next r)]> (mem qs)) qs).
Proof.
  intros Ht Hp. unfold checkpoint_store, pthread_getspecific, store_local_epoch.
  rewrite Ht. simpl. by rewrite Hp.
Qed.

(** The two halves of a checkpoint, run without interruption, are the
    call [qsbr_checkpoint]. *)
Lemma checkpoint_steps DEBUG id qs :
  (do e <- checkpoint_load DEBUG id qs; checkpoint_store id e qs)
  = qsbr_checkpoint DEBUG id qs.
Proof.
  unfold checkpoint_load, checkpoint_store, qsbr_checkpoint.
  by destruct (ASSERT DEBUG _) as [[]| |].
Qed.

(** X15.  A checkpoint is not atomic: it reads the global epoch and then
    writes it to the caller's record.  When a barrier falls between the
    two, the checkpoint publishes the epoch from before the barrier, so
    that, although it completes after the barrier, a [qsbr_sync] for the
    barrier's epoch by another thread still returns false; the thread's
    next checkpoint publishes the barrier's epoch. *)
Theorem checkpoint_overlapping_barrier DEBUG n tid c p l e qs :
  tls_ok qs ->
  tls_key qs !! tid = Some p ->
  seg (mem qs) (qs_list qs) l (Some p) ->
  (length l < n)%nat ->
  c <> tid ->
  is_Some (tls_key qs !! c) ->
  OFFLINE_EPOCH < global_epoch qs < EPOCH_MODULUS - 1 ->
  checkpoint_load DEBUG tid qs = Ok e ->
  exists qs2 qs3 qs4,
    checkpoint_store tid e (snd (qsbr_barrier qs)) = Ok qs2 /\
    global_epoch qs2 = fst (qsbr_barrier qs) /\
    local_epoch_of qs2 tid = Some (fst (qsbr_barrier qs) - 1) /\
    qsbr_sync DEBUG n c (fst (qsbr_barrier qs)) qs2 = Ok (false, qs3) /\
    qsbr_checkpoint DEBUG tid qs3 = Ok qs4 /\
    local_epoch_of qs4 tid = Some (fst (qsbr_barrier qs)).
Proof.
  intros [Hl Hi] Ht Hs Hlen Hc [pc Hpc] Hg Hload.
  destruct (Hl _ _ Ht) as [r Hr]. destruct (Hl _ _ Hpc) as [rc Hrc].
  rewrite (checkpoint_load_registered DEBUG tid qs p Ht) in Hload.
  injection Hload as <-.
  assert (Hw : wrap64 (global_epoch qs + 1) = global_epoch qs + 1).
  { apply wrap64_small. unfold epoch_in_range, OFFLINE_EPOCH in *. lia. }
  assert (Hne : pc <> p) by (intros ->; apply Hc; by apply (Hi c tid p)).
  unfold qsbr_barrier, atomic_fetch_add. cbn [fst snd]. rewrite Hw.
  set (qb := set_global_epoch (global_epoch qs + 1) qs).
  rewrite (checkpoint_store_registered tid _ qb p r Ht Hr).
  set (q2 := set_mem (<[p := mk_tls (global_epoch qs) (next r)]> (mem qb)) qb).
  assert (Hp2 : mem q2 !! p = Some (mk_tls (global_epoch qs) (next r))).
  { simpl. by rewrite lookup_insert_eq. }
  assert (Hc2 : mem q2 !! pc = Some rc).
  { simpl. by rewrite lookup_insert_ne. }
  set (q3 := set_mem (<[pc := mk_tls (global_epoch q2) (next rc)]> (mem q2)) q2).
  assert (Hsync : qsbr_sync DEBUG n c (global_epoch qs + 1) q2 = Ok (false, q3)).
  { unfold qsbr_sync.
    rewrite (checkpoint_registered DEBUG c q2 pc rc Hpc Hc2). cbn [bind].
    fold q3.
    rewrite (sync_scan_seg_false n (mem q3) (qs_list q3) l p
               (mk_tls (global_epoch qs) (next r)) (global_epoch qs + 1));
      try done.
    - simpl. apply seg_store_epoch; [by rewrite lookup_insert_ne|].
      by apply seg_store_epoch.
    - simpl. rewrite lookup_insert_ne by done. by rewrite lookup_insert_eq.
    - unfold grace, OFFLINE_EPOCH in *. simpl. lia. }
  assert (Hp3 : mem q3 !! p = Some (mk_tls (global_epoch qs) (next r))).
  { simpl. rewrite lookup_insert_ne by done. by rewrite lookup_insert_eq. }
  eexists q2, q3, _. split; [done|]. split; [done|]. split.
  { unfold local_epoch_of. simpl. rewrite Ht, lookup_insert_eq.
    f_equal. simpl. lia. }
  split; [done|]. split.
  { exact (checkpoint_registered DEBUG tid q3 p _ Ht Hp3). }
  unfold local_epoch_of. simpl. rewrite Ht, lookup_insert_eq. done.
Qed.

Lemma checkpoint_overlapping_barrier_witness :
  exists qs2 qs3 qs4,
    checkpoint_store 1%nat 3 (snd (qsbr_barrier readers_online)) = Ok qs2 /\
    global_epoch qs2 = 4 /\
    local_epoch_of qs2 1%nat = Some 3 /\
    qsbr_sync true 5 0%nat 4 qs2 = Ok (false, qs3) /\
    qsbr_checkpoint true 1%nat qs3 = Ok qs4 /\
    local_epoch_of qs4 1%nat = Some 4.
Proof.
  apply (checkpoint_overlapping_barrier true 5 1%nat 0%nat 2%positive []
           3 readers_online).
  - apply (run_ops_tls_ok true 1 1
      [OpRegister 0%nat (Some 1%positive); OpRegister 1%nat (Some 2%positive);
       OpCheckpoint 0%nat; OpCheckpoint 1%nat; OpBarrier]
      (trace_of true 1 1
      [OpRegister 0%nat (Some 1%positive); OpRegister 1%nat (Some 2%positive);
       OpCheckpoint 0%nat; OpCheckpoint 1%nat; OpBarrier] fresh_qsbr)).
    by vm_compute.
  - by vm_compute.
  - by vm_compute.
  - simpl. lia.
  - discriminate.
  - eexists. reflexivity.
  - by vm_compute.
  - by vm_compute.
Defined.

(** *** The objects *)

(** A reader that reads through the pointer of a retired object crashes:
    this is the step that a grace period has to exclude. *)
Example reader_of_retired_object_crashes :
  stress_step true 1%nat (RdDeref 1)
    (mk_globals two_threads (replicate 4 (mk_ds NULL 0 0)) false)
  = Crashes NullPointer.
Proof. reflexivity. Qed.

Lemma next_target_range n : 0 <= next_target n < DS_COUNT.
Proof.
  unfold next_target, DS_COUNT, wrap32. change (4 - 1) with (Z.ones 2).
  rewrite Z.land_ones by lia. apply Z.mod_pos_bound. lia.
Qed.

Lemma slot_in_range l c n :
  stress_inv l c -> 0 <= n < DS_COUNT -> exists d, slot n c = Some d.
Proof.
  intros (_ & _ & _ & _ & Hlen & _) Hn. apply lookup_lt_is_Some_2.
  rewrite Hlen. unfold DS_COUNT in *. lia.
Qed.

Lemma writer_stage_other pc c : writer_pc pc = false -> writer_stage pc c.
Proof. by destruct pc. Qed.

Lemma writer_stage_same pc c c' :
  ds (shared_globals c') = ds (shared_globals c) ->
  global_epoch (qsbr (shared_globals c'))
  = global_epoch (qsbr (shared_globals c)) ->
  writer_stage pc c -> writer_stage pc c'.
Proof.
  intros Hds Hg. unfold writer_stage, slot. by rewrite Hds, Hg.
Qed.

Lemma unpassed_same_links h h' l pc rem :
  (forall t k, chain h t k -> chain h' t k) ->
  unpassed h l pc rem -> unpassed h' l pc rem.
Proof.
  intros Hc. destruct pc; simpl; try done. intros [? ?]. split; [done|].
  by apply Hc.
Qed.

(** A step that leaves the objects, the writer and the record of [u]
    alone leaves [u] safe. *)
Lemma reader_safe_frame l c c' u n :
  ds (shared_globals c') = ds (shared_globals c) ->
  threads c' !! 0%nat = threads c !! 0%nat ->
  tls_key (qsbr (shared_globals c')) = tls_key (qsbr (shared_globals c)) ->
  (forall t k, chain (mem (qsbr (shared_globals c))) t k ->
               chain (mem (qsbr (shared_globals c'))) t k) ->
  (forall p, tls_key (qsbr (shared_globals c)) !! u = Some p ->
     mem (qsbr (shared_globals c')) !! p = mem (qsbr (shared_globals c)) !! p) ->
  reader_safe l c u n -> reader_safe l c' u n.
Proof.
  intros Hds Hw Hk Hc Hm [Hv|(pcw & rem & p & r & H1 & H2 & H3 & H4 & H5 & H6 & H7)].
  - left. unfold slot. by rewrite Hds.
  - right. exists pcw, rem, p, r. rewrite Hw, Hk, (Hm p H4).
    repeat (split; [done|]). split; [|done].
    by eapply unpassed_same_links.
Qed.

Lemma thread_ok_frame l c c' u pc :
  thread_ok l c u pc ->
  tls_key (qsbr (shared_globals c')) = tls_key (qsbr (shared_globals c)) ->
  global_epoch (qsbr (shared_globals c))
  <= global_epoch (qsbr (shared_globals c')) ->
  writer_stage pc c' ->
  (forall h k, chain (mem (qsbr (shared_globals c))) h k ->
               chain (mem (qsbr (shared_globals c'))) h k) ->
  (forall n, pc = RdDeref n -> reader_safe l c u n -> reader_safe l c' u n) ->
  thread_ok l c' u pc.
Proof.
  intros (H1 & H2 & H3 & H4 & H5 & H6 & [rem H7] & H8) Hk Hg Hw Hch Hr.
  split; [done|]. split; [done|]. split; [done|]. split.
  { intros e He. destruct (H4 e He). split; [done | lia]. }
  split; [by rewrite Hk|]. split; [done|].
  split; [exists rem; by eapply unpassed_same_links|].
  intros n ->. apply (Hr n eq_refl). by apply H8.
Qed.

(** While the writer is not in [wait], a reader about to read through a
    pointer has its object visible. *)
Lemma reader_safe_visible l c u n pcw :
  threads c !! 0%nat = Some pcw -> hiding pcw = None ->
  reader_safe l c u n ->
  exists d, slot n c = Some d /\ visible d <> 0.
Proof.
  intros Hw Hh [Hv|(pcw' & rem & p & r & H1 & H2 & _)]; [done|].
  congruence.
Qed.

(** What a step of the writer has to keep for a reader: the object of the
    reader stays visible, or the writer still waits for the reader. *)
Lemma reader_safe_step l c c' u n pcw pcw' :
  threads c !! 0%nat = Some pcw ->
  threads c' !! 0%nat = Some pcw' ->
  ds (shared_globals c') = ds (shared_globals c) ->
  tls_key (qsbr (shared_globals c')) = tls_key (qsbr (shared_globals c)) ->
  hiding pcw' = hiding pcw ->
  (forall p, tls_key (qsbr (shared_globals c)) !! u = Some p ->
     mem (qsbr (shared_globals c')) !! p = mem (qsbr (shared_globals c)) !! p) ->
  (forall rem p r,
     unpassed (mem (qsbr (shared_globals c))) l pcw rem -> p ∈ rem ->
     tls_key (qsbr (shared_globals c)) !! u = Some p ->
     mem (qsbr (shared_globals c)) !! p = Some r ->
     (forall e, wait_epoch pcw = Some e -> local_epoch r < e) ->
     exists rem',
       unpassed (mem (qsbr (shared_globals c'))) l pcw' rem' /\ p ∈ rem' /\
       forall e, wait_epoch pcw' = Some e -> local_epoch r < e) ->
  reader_safe l c u n -> reader_safe l c' u n.
Proof.
  intros Hw Hw' Hds Hk Hh Hm Hrem
    [Hv|(pcw0 & rem & p & r & H1 & H2 & H3 & H4 & H5 & H6 & H7)].
  - left. unfold slot. by rewrite Hds.
  - right. rewrite Hw in H1. injection H1 as <-.
    destruct (Hrem rem p r H3 H5 H4 H6 H7) as (rem' & Hu & Hin & He).
    exists pcw', rem', p, r. rewrite Hk, (Hm p H4), Hh.
    by repeat (split; [done|]).
Qed.

(** The invariant after a step, from what the step changes. *)
Lemma stress_inv_step l c t pc' g' :
  stress_inv l c ->
  tls_key (qsbr g') = tls_key (qsbr (shared_globals c)) ->
  qs_list (qsbr g') = qs_list (qsbr (shared_globals c)) ->
  (forall h k, chain (mem (qsbr (shared_globals c))) h k ->
               chain (mem (qsbr g')) h k) ->
  global_epoch (qsbr (shared_globals c)) <= global_epoch (qsbr g') ->
  (forall p r, p ∈ l -> mem (qsbr g') !! p = Some r ->
     local_epoch r <> OFFLINE_EPOCH /\ local_epoch r <= global_epoch (qsbr g')) ->
  length (ds g') = Z.to_nat DS_COUNT ->
  (forall i d, ds g' !! i = Some d -> visible d <> 0 ->
     ptr d = addr_magic_val) ->
  thread_ok l (mk_stress g' (<[t := pc']> (threads c))) t pc' ->
  (forall u pcu, u <> t -> threads c !! u = Some pcu -> thread_ok l c u pcu ->
     writer_stage pcu (mk_stress g' (<[t := pc']> (threads c))) /\
     forall n, pcu = RdDeref n -> reader_safe l c u n ->
       reader_safe l (mk_stress g' (<[t := pc']> (threads c))) u n) ->
  stress_inv l (mk_stress g' (<[t := pc']> (threads c))).
Proof.
  intros (Hc & Hi & Hg & He & Hlen & Hv & Hth) Hk Hhd Hch Hge He' Hlen' Hv'
    Hown Hoth.
  split; [simpl; rewrite Hhd; by apply Hch|].
  split; [unfold tls_inj; simpl; rewrite Hk; apply Hi|].
  split; [simpl; lia|]. split; [done|]. split; [done|]. split; [done|].
  intros u pcu. simpl. destruct (decide (u = t)) as [->|Hne].
  - rewrite lookup_insert_eq. by intros [= <-].
  - rewrite lookup_insert_ne by done. intros Hu.
    destruct (Hoth u pcu Hne Hu (Hth u pcu Hu)) as [Hws Hrs].
    apply (thread_ok_frame l c _ u pcu (Hth u pcu Hu)); done.
Qed.

Lemma reader_safe_idle l c c' u n pcw :
  threads c !! 0%nat = Some pcw -> hiding pcw = None ->
  (forall i d, ds (shared_globals c) !! i = Some d -> visible d <> 0 ->
     exists d', ds (shared_globals c') !! i = Some d' /\ visible d' <> 0) ->
  reader_safe l c u n -> reader_safe l c' u n.
Proof.
  intros Hw Hh Hds Hr.
  destruct (reader_safe_visible _ _ _ _ _ Hw Hh Hr) as (d & Hd & Hv).
  left. by apply (Hds _ d).
Qed.

(** A step that changes nothing but the place of the thread that takes
    it. *)
Lemma stress_inv_local l c t pc pc' :
  stress_inv l c ->
  threads c !! t = Some pc ->
  thread_ok l (mk_stress (shared_globals c) (<[t := pc']> (threads c))) t pc' ->
  (t = 0%nat -> forall u n, u <> 0%nat ->
     threads c !! u = Some (RdDeref n) ->
     reader_safe l c u n ->
     reader_safe l (mk_stress (shared_globals c) (<[t := pc']> (threads c)))
       u n) ->
  stress_inv l (mk_stress (shared_globals c) (<[t := pc']> (threads c))).
Proof.
  intros Hinv Ht Hown Hrd.
  pose proof Hinv as (Hc & Hi & Hg & He & Hlen & Hv & Hth).
  apply stress_inv_step; try done.
  intros u pcu Hne Hu Hok. split; [apply (writer_stage_same pcu c); [done | done | apply Hok]|].
  intros n -> Hs. destruct (decide (t = 0%nat)) as [->|Hw].
  - by apply Hrd.
  - apply (reader_safe_frame l c); try done.
    simpl. by rewrite lookup_insert_ne.
Qed.

(** The second half of a checkpoint: the thread [t] writes the epoch [e]
    to its record. *)
Lemma stress_inv_store l c t pc pc' p r e :
  stress_inv l c ->
  threads c !! t = Some pc ->
  tls_key (qsbr (shared_globals c)) !! t = Some p ->
  mem (qsbr (shared_globals c)) !! p = Some r ->
  e <> OFFLINE_EPOCH ->
  e <= global_epoch (qsbr (shared_globals c)) ->
  thread_ok l
    (mk_stress
       (set_qsbr (set_mem (<[p := mk_tls e (next r)]>
                             (mem (qsbr (shared_globals c))))
                    (qsbr (shared_globals c))) (shared_globals c))
       (<[t := pc']> (threads c))) t pc' ->
  (t = 0%nat -> forall u n, u <> 0%nat ->
     threads c !! u = Some (RdDeref n) ->
     reader_safe l c u n ->
     reader_safe l
       (mk_stress
          (set_qsbr (set_mem (<[p := mk_tls e (next r)]>
                                (mem (qsbr (shared_globals c))))
                       (qsbr (shared_globals c))) (shared_globals c))
          (<[t := pc']> (threads c))) u n) ->
  stress_inv l
    (mk_stress
       (set_qsbr (set_mem (<[p := mk_tls e (next r)]>
                             (mem (qsbr (shared_globals c))))
                    (qsbr (shared_globals c))) (shared_globals c))
       (<[t := pc']> (threads c))).
Proof.
  intros Hinv Ht Hp Hr He1 Hle Hown Hrd.
  pose proof Hinv as (Hc & Hi & Hg & He & Hlen & Hv & Hth).
  apply stress_inv_step; try done.
  - intros h k. simpl. by apply seg_store_epoch.
  - simpl. intros q rq Hq. destruct (decide (q = p)) as [->|Hne].
    + rewrite lookup_insert_eq. by intros [= <-].
    + rewrite lookup_insert_ne by done. by apply He.
  - intros u pcu Hne Hu Hok. split; [apply (writer_stage_same pcu c); [done | done | apply Hok]|].
    intros n -> Hs. destruct (decide (t = 0%nat)) as [->|Hw].
    + by apply Hrd.
    + apply (reader_safe_frame l c); try done.
      * simpl. by rewrite lookup_insert_ne.
      * intros h k. simpl. by apply seg_store_epoch.
      * simpl. intros q Hq. rewrite lookup_insert_ne; [done|].
        intros ->. apply Hne. by apply (Hi u t q).
Qed.

Lemma thread_ok_next l c c' t pc pc' :
  thread_ok l c t pc ->
  tls_key (qsbr (shared_globals c')) = tls_key (qsbr (shared_globals c)) ->
  (forall n, pc_target pc' = Some n -> 0 <= n < DS_COUNT) ->
  (writer_pc pc' = true -> t = 0%nat) ->
  (reader_pc pc' = true -> t <> 0%nat) ->
  (forall e, pending_epoch pc' = Some e ->
     e <> OFFLINE_EPOCH /\ e <= global_epoch (qsbr (shared_globals c'))) ->
  writer_stage pc' c' ->
  (exists rem, unpassed (mem (qsbr (shared_globals c'))) l pc' rem) ->
  (forall n, pc' = RdDeref n -> reader_safe l c' t n) ->
  thread_ok l c' t pc'.
Proof.
  intros (_ & _ & _ & _ & Hp & _) Hk H1 H2 H3 H4 H5 H6 H7.
  repeat (split; [done|]). split; [by rewrite Hk|]. done.
Qed.

Lemma writer_stage_hiding pc c n :
  writer_stage pc c -> hiding pc = Some n ->
  exists d, slot n c = Some d /\ visible d = 0 /\ ptr d = addr_magic_val.
Proof. intros [H _] Hh. destruct pc; simpl in *; by simplify_eq. Qed.

Ltac stress_start_case Hinv Ht :=
  let Hc := fresh "Hc" in let Hi := fresh "Hi" in let Hg := fresh "Hg" in
  let He := fresh "He" in let Hlen := fresh "Hlen" in
  let Hv := fresh "Hv" in let Hth := fresh "Hth" in
  pose proof Hinv as (Hc & Hi & Hg & He & Hlen & Hv & Hth);
  let Hok := fresh "Hok" in pose proof (Hth _ _ Ht) as Hok;
  let T1 := fresh "T1" in let T2 := fresh "T2" in let T3 := fresh "T3" in
  let T4 := fresh "T4" in let T6 := fresh "T6" in let T7 := fresh "T7" in
  let p := fresh "p" in let Hp := fresh "Hp" in let Hpl := fresh "Hpl" in
  let r := fresh "r" in let Hr := fresh "Hr" in
  let T8 := fresh "T8" in
  pose proof Hok as (T1 & T2 & T3 & T4 & (p & Hp & Hpl) & T6 & T8 & T7);
  destruct (seg_live _ _ _ _ _ Hc Hpl) as [r Hr].

(** *** The steps that every thread takes *)

Lemma step_ok_AtLoop DEBUG l c t n :
  stress_inv l c -> threads c !! t = Some (AtLoop n) ->
  step_ok DEBUG l c t (AtLoop n).
Proof.
  intros Hinv Ht. stress_start_case Hinv Ht.
  assert (Hrd : forall pc', t = 0%nat -> forall u k, u <> 0%nat ->
            threads c !! u = Some (RdDeref k) ->
            reader_safe l c u k ->
            reader_safe l
              (mk_stress (shared_globals c) (<[t := pc']> (threads c))) u k).
  { intros pc' -> u k _ _. apply (reader_safe_idle l c _ u k (AtLoop n));
      [done | done | eauto]. }
  unfold step_ok, stress_step. destruct (stop (shared_globals c)).
  { eexists _, _. split; [done|]. split; [|lia].
    apply (stress_inv_local l c t (AtLoop n)); [done | done | | apply Hrd].
    by apply (thread_ok_next l c _ t (AtLoop n)). }
  destruct (Nat.eqb_spec t 0) as [->|Hne].
  - eexists _, _. split; [done|]. split; [|lia].
    apply (stress_inv_local l c _ (AtLoop n)); [done | done | | apply Hrd].
    apply (thread_ok_next l c _ _ (AtLoop n)); try done.
    intros k [= <-]. apply next_target_range.
  - eexists _, _. split; [done|]. split; [|lia].
    apply (stress_inv_local l c _ (AtLoop n)); [done | done | | apply Hrd].
    apply (thread_ok_next l c _ _ (AtLoop n)); try done.
    intros k [= <-]. apply next_target_range.
Qed.

Lemma step_ok_AtBarrier DEBUG l c t :
  stress_inv l c -> threads c !! t = Some AtBarrier ->
  step_ok DEBUG l c t AtBarrier.
Proof.
  intros Hinv Ht. stress_start_case Hinv Ht.
  eexists _, _. split; [done|]. split; [|lia].
  apply (stress_inv_local l c t AtBarrier); [done | done | |].
  - by apply (thread_ok_next l c _ t AtBarrier).
  - intros -> u k _ _. apply (reader_safe_idle l c _ u k AtBarrier);
      [done | done | eauto].
Qed.

Lemma step_ok_FinCkLoad DEBUG l c t :
  stress_inv l c -> threads c !! t = Some FinCkLoad ->
  step_ok DEBUG l c t FinCkLoad.
Proof.
  intros Hinv Ht. stress_start_case Hinv Ht.
  unfold step_ok, stress_step.
  rewrite (checkpoint_load_registered DEBUG t _ p Hp). simpl.
  eexists _, _. split; [done|]. split; [|lia].
  apply (stress_inv_local l c t FinCkLoad); [done | done | |].
  - apply (thread_ok_next l c _ t FinCkLoad); try done.
    intros e [= <-]. simpl. unfold OFFLINE_EPOCH in *. lia.
  - intros -> u k _ _. apply (reader_safe_idle l c _ u k FinCkLoad);
      [done | done | eauto].
Qed.

Lemma step_ok_FinCkStore DEBUG l c t e :
  stress_inv l c -> threads c !! t = Some (FinCkStore e) ->
  step_ok DEBUG l c t (FinCkStore e).
Proof.
  intros Hinv Ht. stress_start_case Hinv Ht.
  destruct (T4 e eq_refl) as [He1 He2].
  unfold step_ok, stress_step.
  rewrite (checkpoint_store_registered t e _ p r Hp Hr). simpl.
  eexists _, _. split; [done|]. split; [|simpl; lia].
  apply (stress_inv_store l c t (FinCkStore e)); try done.
  - by apply (thread_ok_next l c _ t (FinCkStore e)).
  - intros -> u k _ _. apply (reader_safe_idle l c _ u k (FinCkStore e));
      [done | done | eauto].
Qed.

(** *** The steps of a reader *)

Lemma step_ok_RdVisible DEBUG l c t n :
  stress_inv l c -> threads c !! t = Some (RdVisible n) ->
  step_ok DEBUG l c t (RdVisible n).
Proof.
  intros Hinv Ht. stress_start_case Hinv Ht.
  destruct (slot_in_range l c n Hinv (T1 n eq_refl)) as [d Hd].
  unfold step_ok, stress_step, ds_get. unfold slot in Hd. rewrite Hd. simpl.
  assert (t <> 0%nat) by by apply T3.
  destruct (Z.eqb_spec (visible d) 0) as [Hz|Hnz]; simpl.
  - eexists _, _. split; [done|]. split; [|lia].
    apply (stress_inv_local l c t (RdVisible n)); [done | done | | done].
    by apply (thread_ok_next l c _ t (RdVisible n)).
  - eexists _, _. split; [done|]. split; [|lia].
    apply (stress_inv_local l c t (RdVisible n)); [done | done | | done].
    apply (thread_ok_next l c _ t (RdVisible n)); try done.
    intros k [= <-]. left. exists d. done.
Qed.

Lemma step_ok_RdDeref DEBUG l c t n :
  stress_inv l c -> threads c !! t = Some (RdDeref n) ->
  step_ok DEBUG l c t (RdDeref n).
Proof.
  intros Hinv Ht. stress_start_case Hinv Ht.
  assert (t <> 0%nat) by by apply T3.
  assert (Hd : exists d, slot n c = Some d /\ ptr d = addr_magic_val).
  { destruct (T7 n eq_refl) as [(d & Hd & Hvis)|Hwait].
    - exists d. split; [done|]. by apply (Hv (Z.to_nat n)).
    - destruct Hwait as (pcw & rem & q & rq & Hw & Hh & _).
      destruct (Hth _ _ Hw) as (_ & _ & _ & _ & _ & Hws & _ & _).
      destruct (writer_stage_hiding _ _ _ Hws Hh) as (d & Hd & _ & Hptr).
      by exists d. }
  destruct Hd as (d & Hd & Hptr).
  unfold step_ok, stress_step, ds_get. unfold slot in Hd. rewrite Hd. simpl.
  rewrite Hptr. simpl.
  eexists _, _. split; [done|]. split; [|lia].
  apply (stress_inv_local l c t (RdDeref n)); [done | done | | done].
  by apply (thread_ok_next l c _ t (RdDeref n)).
Qed.

Lemma step_ok_RdCkLoad DEBUG l c t n :
  stress_inv l c -> threads c !! t = Some (RdCkLoad n) ->
  step_ok DEBUG l c t (RdCkLoad n).
Proof.
  intros Hinv Ht. stress_start_case Hinv Ht.
  assert (t <> 0%nat) by by apply T3.
  unfold step_ok, stress_step.
  rewrite (checkpoint_load_registered DEBUG t _ p Hp). simpl.
  eexists _, _. split; [done|]. split; [|lia].
  apply (stress_inv_local l c t (RdCkLoad n)); [done | done | | done].
  apply (thread_ok_next l c _ t (RdCkLoad n)); try done.
  intros e [= <-]. simpl. unfold OFFLINE_EPOCH in *. lia.
Qed.

Lemma step_ok_RdCkStore DEBUG l c t n e :
  stress_inv l c -> threads c !! t = Some (RdCkStore n e) ->
  step_ok DEBUG l c t (RdCkStore n e).
Proof.
  intros Hinv Ht. stress_start_case Hinv Ht.
  assert (t <> 0%nat) by by apply T3.
  destruct (T4 e eq_refl) as [He1 He2].
  unfold step_ok, stress_step.
  rewrite (checkpoint_store_registered t e _ p r Hp Hr). simpl.
  eexists _, _. split; [done|]. split; [|simpl; lia].
  apply (stress_inv_store l c t (RdCkStore n e)); try done.
  by apply (thread_ok_next l c _ t (RdCkStore n e)).
Qed.

(** *** The steps of the writer *)

Lemma seg_app_inv h t l1 l2 u :
  seg h t (l1 ++ l2) u -> exists v, seg h t l1 v /\ seg h v l2 u.
Proof.
  revert t. induction l1 as [|q l1 IH]; intros t; simpl.
  - intros Hs. by exists t.
  - intros (-> & r & Hr & Hs). destruct (IH _ Hs) as (v & H1 & H2).
    exists v. split; [|done]. split; [done|]. by exists r.
Qed.

(** The invariant after a step of the writer. *)
Lemma stress_inv_writer l c pc pc' g' :
  stress_inv l c ->
  threads c !! 0%nat = Some pc ->
  tls_key (qsbr g') = tls_key (qsbr (shared_globals c)) ->
  qs_list (qsbr g') = qs_list (qsbr (shared_globals c)) ->
  (forall h k, chain (mem (qsbr (shared_globals c))) h k ->
               chain (mem (qsbr g')) h k) ->
  global_epoch (qsbr (shared_globals c)) <= global_epoch (qsbr g') ->
  (forall p r, p ∈ l -> mem (qsbr g') !! p = Some r ->
     local_epoch r <> OFFLINE_EPOCH /\ local_epoch r <= global_epoch (qsbr g')) ->
  length (ds g') = Z.to_nat DS_COUNT ->
  (forall i d, ds g' !! i = Some d -> visible d <> 0 ->
     ptr d = addr_magic_val) ->
  thread_ok l (mk_stress g' (<[0%nat := pc']> (threads c))) 0%nat pc' ->
  (forall u n, u <> 0%nat -> threads c !! u = Some (RdDeref n) ->
     thread_ok l c u (RdDeref n) ->
     reader_safe l c u n ->
     reader_safe l (mk_stress g' (<[0%nat := pc']> (threads c))) u n) ->
  stress_inv l (mk_stress g' (<[0%nat := pc']> (threads c))).
Proof.
  intros Hinv Ht Hk Hhd Hch Hge He' Hlen' Hv' Hown Hrd.
  apply stress_inv_step; try done.
  intros u pcu Hne Hu Hok. split.
  - apply writer_stage_other. destruct (writer_pc pcu) eqn:E; [|done].
    destruct Hok as (_ & H2 & _). by specialize (H2 E).
  - intros n -> Hs. by apply Hrd.
Qed.

Lemma step_ok_WrVisible DEBUG l c t n :
  stress_inv l c -> threads c !! t = Some (WrVisible n) ->
  step_ok DEBUG l c t (WrVisible n).
Proof.
  intros Hinv Ht. stress_start_case Hinv Ht.
  assert (t = 0%nat) as -> by by apply T2.
  destruct (slot_in_range l c n Hinv (T1 n eq_refl)) as [d Hd].
  assert (Hrd : forall pc' u k, u <> 0%nat ->
            threads c !! u = Some (RdDeref k) ->
            reader_safe l c u k ->
            reader_safe l
              (mk_stress (shared_globals c) (<[0%nat := pc']> (threads c)))
              u k).
  { intros pc' u k _ _. apply (reader_safe_idle l c _ u k (WrVisible n));
      [done | done | eauto]. }
  unfold step_ok, stress_step, ds_get. pose proof Hd as Hd'.
  unfold slot in Hd'. rewrite Hd'. simpl.
  destruct (Z.eqb_spec (visible d) 0) as [Hz|Hnz]; simpl.
  - eexists _, _. split; [done|]. split; [|lia].
    apply (stress_inv_local l c _ (WrVisible n)); [done | done | |].
    + apply (thread_ok_next l c _ _ (WrVisible n)); try done.
      split; [|done]. by exists d.
    + intros _. apply Hrd.
  - eexists _, _. split; [done|]. split; [|lia].
    apply (stress_inv_local l c _ (WrVisible n)); [done | done | |].
    + apply (thread_ok_next l c _ _ (WrVisible n)); try done.
      split; [|done]. by exists d.
    + intros _. apply Hrd.
Qed.

Lemma ds_set_lookup n d' g i d :
  ds g !! Z.to_nat n = Some d ->
  ds (ds_set n d' g) !! i
  = if decide (i = Z.to_nat n) then Some d' else ds g !! i.
Proof.
  intros Hd. simpl. case_decide as E.
  - subst i. apply list_lookup_insert_eq. by eapply lookup_lt_Some.
  - by apply list_lookup_insert_ne.
Qed.

(** A write to an object by the writer outside [wait] that leaves a
    visible object visible. *)
Lemma stress_inv_ds l c pc pc' n d d' :
  stress_inv l c ->
  threads c !! 0%nat = Some pc ->
  hiding pc = None ->
  slot n c = Some d ->
  (visible d' <> 0 -> ptr d' = addr_magic_val) ->
  (visible d <> 0 -> visible d' <> 0) ->
  thread_ok l (mk_stress (ds_set n d' (shared_globals c))
                 (<[0%nat := pc']> (threads c))) 0%nat pc' ->
  stress_inv l (mk_stress (ds_set n d' (shared_globals c))
                  (<[0%nat := pc']> (threads c))).
Proof.
  intros Hinv Ht Hh Hd Hd' Hvis Hown.
  pose proof Hinv as (Hc & Hi & Hg & He & Hlen & Hv & Hth).
  apply (stress_inv_writer l c pc); try done.
  - simpl. by rewrite length_insert.
  - intros i e. rewrite (ds_set_lookup n d' _ i d Hd). case_decide.
    + by intros [= <-].
    + apply Hv.
  - intros u k _ _ _. apply (reader_safe_idle l c _ u k pc); [done | done |].
    intros i e Hi' He'. simpl shared_globals.
    rewrite (ds_set_lookup n d' _ i d Hd). case_decide as E.
    + subst i. unfold slot in Hd. rewrite Hd in Hi'. injection Hi' as <-.
      exists d'. split; [done|]. by apply Hvis.
    + by exists e.
Qed.

Lemma step_ok_WrRetire DEBUG l c t n :
  stress_inv l c -> threads c !! t = Some (WrRetire n) ->
  step_ok DEBUG l c t (WrRetire n).
Proof.
  intros Hinv Ht. stress_start_case Hinv Ht.
  assert (t = 0%nat) as -> by by apply T2.
  destruct T6 as [(d & Hd & Hvis) _].
  unfold step_ok, stress_step, ds_get. pose proof Hd as Hd'.
  unfold slot in Hd'. rewrite Hd'. simpl.
  eexists _, _. split; [done|]. split; [|simpl; lia].
  apply (stress_inv_ds l c (WrRetire n) _ n d); try done.
  by apply (thread_ok_next l c _ _ (WrRetire n)).
Qed.

Lemma step_ok_WrSetPtr DEBUG l c t n :
  stress_inv l c -> threads c !! t = Some (WrSetPtr n) ->
  step_ok DEBUG l c t (WrSetPtr n).
Proof.
  intros Hinv Ht. stress_start_case Hinv Ht.
  assert (t = 0%nat) as -> by by apply T2.
  destruct T6 as [(d & Hd & Hvis) _].
  unfold step_ok, stress_step, ds_get. pose proof Hd as Hd'.
  unfold slot in Hd'. rewrite Hd'. simpl.
  eexists _, _. split; [done|]. split; [|simpl; lia].
  apply (stress_inv_ds l c (WrSetPtr n) _ n d); try done.
  apply (thread_ok_next l c _ _ (WrSetPtr n)); try done.
  split; [|done]. eexists. unfold slot. simpl shared_globals.
  rewrite (ds_set_lookup n _ _ _ d Hd'). rewrite decide_True by done.
  done.
Qed.

Lemma step_ok_WrShow DEBUG l c t n :
  stress_inv l c -> threads c !! t = Some (WrShow n) ->
  step_ok DEBUG l c t (WrShow n).
Proof.
  intros Hinv Ht. stress_start_case Hinv Ht.
  assert (t = 0%nat) as -> by by apply T2.
  destruct T6 as [(d & Hd & Hvis & Hptr) _].
  unfold step_ok, stress_step, ds_get, assert. pose proof Hd as Hd'.
  unfold slot in Hd'. rewrite Hd'. simpl. rewrite Hvis. simpl.
  rewrite andb_false_r. simpl.
  eexists _, _. split; [done|]. split; [|simpl; lia].
  apply (stress_inv_ds l c (WrShow n) _ n d); try done.
  by apply (thread_ok_next l c _ _ (WrShow n)).
Qed.

Lemma step_ok_WrHide DEBUG l c t n :
  stress_inv l c -> threads c !! t = Some (WrHide n) ->
  step_ok DEBUG l c t (WrHide n).
Proof.
  intros Hinv Ht. stress_start_case Hinv Ht.
  assert (t = 0%nat) as -> by by apply T2.
  destruct T6 as [(d & Hd & Hvis) _].
  assert (Hptr : ptr d = addr_magic_val) by by apply (Hv (Z.to_nat n)).
  unfold step_ok, stress_step, ds_get, assert. pose proof Hd as Hd'.
  unfold slot in Hd'. rewrite Hd'. simpl.
  destruct (Z.eqb_spec (visible d) 0) as [?|_]; [done|]. simpl.
  rewrite andb_false_r. simpl.
  eexists _, _. split; [done|]. split; [|simpl; lia].
  apply (stress_inv_writer l c (WrHide n)); try done.
  - simpl. by rewrite length_insert.
  - intros i e. rewrite (ds_set_lookup n _ _ i d Hd'). case_decide.
    + by intros [= <-].
    + apply Hv.
  - apply (thread_ok_next l c _ _ (WrHide n)); try done.
    split; [|done]. eexists. unfold slot. simpl shared_globals.
    rewrite (ds_set_lookup n _ _ _ d Hd'). rewrite decide_True by done.
    done.
  - intros u k Hu0 Hu Huok Hs.
    destruct (reader_safe_visible _ _ _ _ _ Ht eq_refl Hs) as (e & He' & Hve).
    destruct Huok as (U1 & _ & _ & _ & (q & Hq & Hql) & _).
    destruct (decide (k = n)) as [->|Hkn].
    + right. destruct (seg_live _ _ _ _ _ Hc Hql) as [rq Hrq].
      exists (WrBarrier n), l, q, rq. simpl.
      rewrite lookup_insert_eq. done.
    + left. exists e. split; [|done]. unfold slot. simpl shared_globals.
      rewrite (ds_set_lookup n _ _ _ d Hd'). rewrite decide_False; [done|].
      specialize (U1 k eq_refl). specialize (T1 n eq_refl). lia.
Qed.

Lemma step_ok_WrBarrier DEBUG l c t n :
  stress_inv l c -> threads c !! t = Some (WrBarrier n) ->
  global_epoch (qsbr (shared_globals c)) + 1 < EPOCH_MODULUS ->
  step_ok DEBUG l c t (WrBarrier n).
Proof.
  intros Hinv Ht Hlt. stress_start_case Hinv Ht.
  assert (t = 0%nat) as -> by by apply T2.
  destruct T6 as [(d & Hd & Hvis & Hptr) _].
  assert (Hw : wrap64 (global_epoch (qsbr (shared_globals c)) + 1)
               = global_epoch (qsbr (shared_globals c)) + 1).
  { apply wrap64_small. unfold epoch_in_range, OFFLINE_EPOCH in *. lia. }
  unfold step_ok, stress_step, qsbr_barrier, atomic_fetch_add.
  rewrite Hw. eexists _, _. split; [done|]. split; [|simpl; lia].
  apply (stress_inv_writer l c (WrBarrier n)); try done.
  - simpl. lia.
  - simpl. intros q rq Hq Hrq. destruct (He q rq Hq Hrq). split; [done | lia].
  - apply (thread_ok_next l c _ _ (WrBarrier n)); try done.
    split; [|done]. by exists d.
  - intros u k Hu0 Hu Huok.
    apply (reader_safe_step l c _ u k (WrBarrier n)
             (WrSyncLoad n (global_epoch (qsbr (shared_globals c)) + 1)));
      try done.
    + simpl. by rewrite lookup_insert_eq.
    + simpl. intros rem q rq -> Hq Hkq Hrq _. exists l.
      split; [done|]. split; [done|]. intros e [= <-].
      destruct (He q rq Hq Hrq). lia.
Qed.

Lemma step_ok_WrSyncLoad DEBUG l c t n e :
  stress_inv l c -> threads c !! t = Some (WrSyncLoad n e) ->
  step_ok DEBUG l c t (WrSyncLoad n e).
Proof.
  intros Hinv Ht. stress_start_case Hinv Ht.
  assert (t = 0%nat) as -> by by apply T2.
  destruct T6 as [(d & Hd & Hvis & Hptr) Hwe].
  unfold step_ok, stress_step.
  rewrite (checkpoint_load_registered DEBUG _ _ p Hp). simpl.
  eexists _, _. split; [done|]. split; [|lia].
  apply (stress_inv_local l c _ (WrSyncLoad n e)); [done | done | |].
  - apply (thread_ok_next l c _ _ (WrSyncLoad n e)); try done.
    + intros v [= <-]. simpl. unfold OFFLINE_EPOCH in *. lia.
    + split; [|done]. by exists d.
  - intros _ u k Hu0 Hu.
    apply (reader_safe_step l c _ u k (WrSyncLoad n e)
             (WrSyncStore n e (global_epoch (qsbr (shared_globals c)))));
      try done.
    + simpl. by rewrite lookup_insert_eq.
    + simpl. intros rem q rq -> Hq Hkq Hrq Hlt. by exists l.
Qed.

Lemma step_ok_WrSyncStore DEBUG l c t n e v :
  stress_inv l c -> threads c !! t = Some (WrSyncStore n e v) ->
  step_ok DEBUG l c t (WrSyncStore n e v).
Proof.
  intros Hinv Ht. stress_start_case Hinv Ht.
  assert (t = 0%nat) as -> by by apply T2.
  destruct T6 as [(d & Hd & Hvis & Hptr) Hwe].
  destruct (T4 v eq_refl) as [He1 He2].
  unfold step_ok, stress_step.
  rewrite (checkpoint_store_registered _ v _ p r Hp Hr). simpl.
  eexists _, _. split; [done|]. split; [|simpl; lia].
  apply (stress_inv_store l c _ (WrSyncStore n e v)); try done.
  - apply (thread_ok_next l c _ _ (WrSyncStore n e v)); try done.
    split; [|done]. by exists d.
  - intros _ u k Hu0 Hu.
    apply (reader_safe_step l c _ u k (WrSyncStore n e v) (WrSyncHead n e));
      try done.
    + simpl. by rewrite lookup_insert_eq.
    + simpl. intros q Hq. rewrite lookup_insert_ne; [done|].
      intros ->. apply Hu0. by apply (Hi u 0%nat q).
    + simpl. intros rem q rq -> Hq Hkq Hrq Hlt. by exists l.
Qed.

Lemma step_ok_WrSyncHead DEBUG l c t n e :
  stress_inv l c -> threads c !! t = Some (WrSyncHead n e) ->
  step_ok DEBUG l c t (WrSyncHead n e).
Proof.
  intros Hinv Ht. stress_start_case Hinv Ht.
  assert (t = 0%nat) as -> by by apply T2.
  destruct T6 as [(d & Hd & Hvis & Hptr) Hwe].
  unfold step_ok, stress_step.
  eexists _, _. split; [done|]. split; [|lia].
  apply (stress_inv_local l c _ (WrSyncHead n e)); [done | done | |].
  - apply (thread_ok_next l c _ _ (WrSyncHead n e)); try done.
    + split; [|done]. by exists d.
    + exists l. simpl. split; [by exists []|done].
  - intros _ u k Hu0 Hu.
    apply (reader_safe_step l c _ u k (WrSyncHead n e)
             (WrScan n e (qs_list (qsbr (shared_globals c)))));
      try done.
    + simpl. by rewrite lookup_insert_eq.
    + simpl. intros rem q rq -> Hq Hkq Hrq Hlt. exists l.
      split; [|done]. split; [by exists []|done].
Qed.

Lemma step_ok_WrScan DEBUG l c t n e h :
  stress_inv l c -> threads c !! t = Some (WrScan n e h) ->
  step_ok DEBUG l c t (WrScan n e h).
Proof.
  intros Hinv Ht. stress_start_case Hinv Ht.
  assert (t = 0%nat) as -> by by apply T2.
  destruct T6 as [(d & Hd & Hvis & Hptr) Hwe].
  destruct T8 as (rem0 & [l0 Hl0] & Hrem0). simpl in Hwe.
  unfold step_ok, stress_step. destruct h as [q|].
  - destruct rem0 as [|q' rem0]; [done|].
    destruct Hrem0 as ([= <-] & rq & Hrq & Hnext).
    simpl. rewrite Hrq. simpl.
    assert (Hql : q ∈ l).
    { rewrite Hl0. apply elem_of_app. right. apply elem_of_cons. by left. }
    destruct (He q rq Hql Hrq) as [Hne1 _].
    destruct (Z.eqb_spec (local_epoch rq) 1) as [?|_]; [done|]. simpl.
    eexists _, _. split; [done|]. split; [|lia].
    apply (stress_inv_local l c _ (WrScan n e (Some q))); [done | done | |].
    + apply (thread_ok_next l c _ _ (WrScan n e (Some q))); try done.
      * split; [|done]. by exists d.
      * exists (q :: rem0). simpl. by exists l0, rem0.
    + intros _ u k Hu0 Hu.
      apply (reader_safe_step l c _ u k (WrScan n e (Some q))
               (WrScanLess n e q)); try done.
      * simpl. by rewrite lookup_insert_eq.
      * simpl. intros rem p' rp' [[l1 Hl1] Hch] Hp' Hkp Hrp Hlt.
        exists rem. split; [|done].
        destruct rem as [|q2 rem]; [done|].
        destruct Hch as ([= <-] & _). by exists l1, rem.
  - eexists _, _. split; [done|]. split; [|lia].
    apply (stress_inv_local l c _ (WrScan n e None)); [done | done | |].
    + apply (thread_ok_next l c _ _ (WrScan n e None)); try done.
      * split; [|done]. by exists d.
      * by exists l.
    + intros _ u k Hu0 Hu Hs.
      destruct Hs as [Hs|(pcw & rem & p' & rp' & H1 & _ & H3 & _ & H5 & _)].
      * left. exact Hs.
      * assert (Some pcw = Some (WrScan n e None)) as [= ->]
          by (etrans; [symmetry; exact H1 | exact Ht]).
        destruct H3 as [_ Hch].
        destruct rem; [|by destruct Hch]. by apply elem_of_nil in H5.
Qed.

Lemma chain_suffix h hd l l1 q rem rq :
  chain h hd l -> l = l1 ++ q :: rem -> h !! q = Some rq ->
  chain h (next rq) rem.
Proof.
  intros Hc -> Hq. apply seg_app_inv in Hc as (v & _ & Hs).
  destruct Hs as (_ & r' & Hr' & Hs). by simplify_eq.
Qed.

Lemma step_ok_WrScanLess DEBUG l c t n e q :
  stress_inv l c -> threads c !! t = Some (WrScanLess n e q) ->
  step_ok DEBUG l c t (WrScanLess n e q).
Proof.
  intros Hinv Ht. stress_start_case Hinv Ht.
  assert (t = 0%nat) as -> by by apply T2.
  destruct T6 as [(d & Hd & Hvis & Hptr) Hwe].
  destruct T8 as (rem0 & l1 & l2 & Hl & ->). simpl in Hwe.
  assert (Hql : q ∈ l).
  { rewrite Hl. apply elem_of_app. right. apply elem_of_cons. by left. }
  destruct (seg_live _ _ _ _ _ Hc Hql) as [rq Hrq].
  unfold step_ok, stress_step. simpl. rewrite Hrq. simpl.
  destruct (Z.ltb_spec (local_epoch rq) e) as [Hlt|Hge].
  - eexists _, _. split; [done|]. split; [|lia].
    apply (stress_inv_local l c _ (WrScanLess n e q)); [done | done | |].
    + apply (thread_ok_next l c _ _ (WrScanLess n e q)); try done.
      * split; [|done]. by exists d.
      * by exists l.
    + intros _ u k Hu0 Hu.
      apply (reader_safe_step l c _ u k (WrScanLess n e q) (WrSyncLoad n e));
        try done.
      * simpl. by rewrite lookup_insert_eq.
      * simpl. intros rem p' rp' (k1 & k2 & Hk & ->) Hp' Hkp Hrp Hlt'.
        exists l. split; [done|]. split; [|done].
        rewrite Hk. apply elem_of_app. by right.
  - eexists _, _. split; [done|]. split; [|lia].
    apply (stress_inv_local l c _ (WrScanLess n e q)); [done | done | |].
    + apply (thread_ok_next l c _ _ (WrScanLess n e q)); try done.
      * split; [|done]. by exists d.
      * exists l2. simpl. by exists l1.
    + intros _ u k Hu0 Hu.
      apply (reader_safe_step l c _ u k (WrScanLess n e q) (WrScanNext n e q));
        try done.
      * simpl. by rewrite lookup_insert_eq.
      * simpl. intros rem p' rp' (k1 & k2 & Hk & ->) Hp' Hkp Hrp Hlt'.
        exists k2. split; [by exists k1|]. split; [|done].
        apply elem_of_cons in Hp' as [->|Hin]; [|done].
        rewrite Hrq in Hrp. injection Hrp as <-.
        specialize (Hlt' e eq_refl). lia.
Qed.

Lemma step_ok_WrScanNext DEBUG l c t n e q :
  stress_inv l c -> threads c !! t = Some (WrScanNext n e q) ->
  step_ok DEBUG l c t (WrScanNext n e q).
Proof.
  intros Hinv Ht. stress_start_case Hinv Ht.
  assert (t = 0%nat) as -> by by apply T2.
  destruct T6 as [(d & Hd & Hvis & Hptr) Hwe].
  destruct T8 as (rem0 & l1 & Hl). simpl in Hwe.
  assert (Hql : q ∈ l).
  { rewrite Hl. apply elem_of_app. right. apply elem_of_cons. by left. }
  destruct (seg_live _ _ _ _ _ Hc Hql) as [rq Hrq].
  unfold step_ok, stress_step. simpl. rewrite Hrq. simpl.
  eexists _, _. split; [done|]. split; [|lia].
  apply (stress_inv_local l c _ (WrScanNext n e q)); [done | done | |].
  - apply (thread_ok_next l c _ _ (WrScanNext n e q)); try done.
    + split; [|done]. by exists d.
    + exists rem0. simpl. split.
      * exists (l1 ++ [q]). by rewrite <- app_assoc.
      * by apply (chain_suffix _ (qs_list (qsbr (shared_globals c))) l l1 q
                    rem0 rq).
  - intros _ u k Hu0 Hu.
    apply (reader_safe_step l c _ u k (WrScanNext n e q)
             (WrScan n e (next rq))); try done.
    + simpl. by rewrite lookup_insert_eq.
    + simpl. intros rem p' rp' (k1 & Hk) Hp' Hkp Hrp Hlt'.
      exists rem. split; [|done]. split.
      * exists (k1 ++ [q]). by rewrite <- app_assoc.
      * by apply (chain_suffix _ (qs_list (qsbr (shared_globals c))) l k1 q
                    rem rq).
Qed.

(** *** Every step *)

Lemma stress_step_ok DEBUG l c t pc :
  stress_inv l c ->
  threads c !! t = Some pc ->
  (forall n, pc = WrBarrier n ->
     global_epoch (qsbr (shared_globals c)) + 1 < EPOCH_MODULUS) ->
  step_ok DEBUG l c t pc.
Proof.
  intros Hinv Ht Hlt. destruct pc.
  - by apply step_ok_AtLoop.
  - by apply step_ok_WrVisible.
  - by apply step_ok_WrHide.
  - apply step_ok_WrBarrier; [done | done | by eapply Hlt].
  - by apply step_ok_WrSyncLoad.
  - by apply step_ok_WrSyncStore.
  - by apply step_ok_WrSyncHead.
  - by apply step_ok_WrScan.
  - by apply step_ok_WrScanLess.
  - by apply step_ok_WrScanNext.
  - by apply step_ok_WrRetire.
  - by apply step_ok_WrSetPtr.
  - by apply step_ok_WrShow.
  - by apply step_ok_RdVisible.
  - by apply step_ok_RdDeref.
  - by apply step_ok_RdCkLoad.
  - by apply step_ok_RdCkStore.
  - by apply step_ok_FinCkLoad.
  - by apply step_ok_FinCkStore.
  - by apply step_ok_AtBarrier.
Qed.

(** *** Every schedule *)

Lemma stress_inv_ding l c :
  stress_inv l c ->
  stress_inv l (mk_stress (ding (shared_globals c)) (threads c)).
Proof. destruct c as [[qs d s] th]. intros H. exact H. Qed.

Lemma stress_run_inv DEBUG l sched :
  forall c,
  stress_inv l c ->
  global_epoch (qsbr (shared_globals c)) + Z.of_nat (length sched)
  < EPOCH_MODULUS ->
  exists c', stress_run DEBUG sched c = Runs c' /\ stress_inv l c'.
Proof.
  induction sched as [|[id|] sched IH]; intros c Hinv Hlt.
  - by exists c.
  - simpl. destruct (threads c !! id) as [pc|] eqn:Ht.
    + destruct (stress_step_ok DEBUG l c id pc Hinv Ht)
        as (pc' & g' & -> & Hinv' & _ & Hg').
      { intros _ _. simpl length in Hlt. lia. }
      simpl. apply IH; [done|]. simpl in *. lia.
    + apply IH; [done|]. simpl length in Hlt. lia.
  - simpl. apply IH; [by apply stress_inv_ding|].
    simpl length in Hlt. simpl. lia.
Qed.

Lemma stress_inv_start ts qs :
  registry_of ts qs ->
  tls_ok qs ->
  OFFLINE_EPOCH < global_epoch qs ->
  exists l, stress_inv l (stress_start ts qs).
Proof.
  intros (l & Hc & _ & _ & _ & Hts & Hl) [_ Hi] Hg. exists l.
  split; [done|]. split; [done|]. split; [done|]. split.
  { simpl. intros p r Hp Hr. destruct (Hl p Hp) as (t & Ht & Htp).
    destruct (Hts t Ht) as (p' & r' & Htp' & _ & Hr' & H0).
    simplify_eq. rewrite H0. unfold OFFLINE_EPOCH in *. lia. }
  split; [done|]. split.
  { unfold stress_start. cbn [shared_globals ds].
    intros i d [-> _]%lookup_replicate. done. }
  intros t pc Ht. simpl in Ht.
  apply elem_of_list_to_map_2 in Ht.
  apply list_elem_of_fmap in Ht as (t' & [= -> ->] & Hin).
  destruct (Hts t' Hin) as (p & r & Hp & Hpl & _).
  split; [intros n [= <-]; unfold DS_COUNT; lia|].
  split; [done|]. split; [done|]. split; [done|].
  split; [by exists p|]. split; [done|]. split; [by exists l | done].
Qed.

(** The writer does retire objects: with one reader, the writer publishes
    the four objects, hides the object 1 and issues its barrier; the reader
    goes round its loop once; the poll of the writer then finds both
    records up to date, and the writer sets the pointer to NULL. *)
Example writer_retires_object :
  exists c,
    stress_run true
      (replicate 20 (Step 0%nat) ++ replicate 4 (Step 1%nat) ++
       replicate 11 (Step 0%nat))
      (stress_start [0%nat; 1%nat] two_threads) = Runs c /\
    threads c !! 0%nat = Some (AtLoop 1) /\
    slot 1 c = Some (mk_ds NULL 0 0) /\
    global_epoch (qsbr (shared_globals c)) = 3.
Proof. eexists. split; [by vm_compute|]. by vm_compute. Qed.

(** X16.  The stress test is safe.  All the threads have registered (the
    registry holds exactly their records) and run the loop of
    [qsbr_stress], interleaved in any way at the granularity of their
    accesses to shared memory, with the alarm going off at any time.  As
    long as the epoch counter does not wrap round, no step stops the
    program: no call of qsbr.c asserts or touches a freed record, the
    writer's assertions hold, and no reader reads through a NULL pointer,
    because in every state reached a reader that is about to read through
    the pointer of an object finds it set.  That is, the writer retires
    an object only after every reader that found it visible has passed a
    checkpoint. *)
Theorem qsbr_stress_never_crashes DEBUG ts qs sched :
  registry_of ts qs ->
  tls_ok qs ->
  OFFLINE_EPOCH < global_epoch qs ->
  global_epoch qs + Z.of_nat (length sched) < EPOCH_MODULUS ->
  exists c,
    stress_run DEBUG sched (stress_start ts qs) = Runs c /\
    forall u n, threads c !! u = Some (RdDeref n) ->
      exists d, slot n c = Some d /\ ptr d = addr_magic_val.
Proof.
  intros Hreg Hok Hg Hlt.
  destruct (stress_inv_start ts qs Hreg Hok Hg) as [l Hinv].
  destruct (stress_run_inv DEBUG l sched _ Hinv Hlt) as (c & Hrun & Hinv').
  exists c. split; [done|]. intros u n Hu.
  destruct (step_ok_RdDeref DEBUG l c u n Hinv' Hu) as (pc' & g' & Hstep & _).
  unfold stress_step, ds_get in Hstep. unfold slot.
  destruct (ds (shared_globals c) !! Z.to_nat n) as [d|]; [|done].
  exists d. split; [done|]. simpl in Hstep. by destruct (ptr d).
Qed.

Lemma registry_of_two_threads : registry_of [0%nat; 1%nat] two_threads.
Proof.
  apply (sequential_registrations true 1 1
           [(0%nat, Some 1%positive); (1%nat, Some 2%positive)]).
  - compute_done.
  - apply (run_ops_sound true 1 1
             [OpRegister 0%nat (Some 1%positive);
              OpRegister 1%nat (Some 2%positive)]).
    by vm_compute.
Qed.

Lemma qsbr_stress_never_crashes_witness :
  exists c,
    stress_run true publish_then_read (stress_start [0%nat; 1%nat] two_threads)
      = Runs c /\
    threads c !! 1%nat = Some (RdDeref 1) /\
    exists d, slot 1 c = Some d /\ ptr d = addr_magic_val.
Proof.
  destruct (qsbr_stress_never_crashes true [0%nat; 1%nat] two_threads
              publish_then_read) as (c & Hrun & Hsafe).
  - exact registry_of_two_threads.
  - exact tls_ok_two_threads.
  - by vm_compute.
  - by vm_compute.
  - exists c. split; [exact Hrun|].
    assert (Hc : threads c !! 1%nat = Some (RdDeref 1)).
    { vm_compute in Hrun. injection Hrun as <-. by vm_compute. }
    split; [exact Hc | exact (Hsafe 1%nat 1 Hc)].
Defined.

(** *** From [qsbr_create] to the end of the test *)

Lemma reg_step_global_epoch tid m pc qs pc' qs' :
  reg_step tid m pc qs = Ok (pc', qs') -> global_epoch qs' = global_epoch qs.
Proof.
  destruct pc as [|t|t h|t h|rc]; simpl.
  - unfold memset_zero, pthread_getspecific.
    destruct (tls_key qs !! tid) as [t|].
    + simpl. destruct (mem qs !! t); [|done]. simpl. by intros [= <- <-].
    + destruct m as [p|]; [|by intros [= <- <-]].
      simpl. rewrite lookup_insert_eq. simpl. by intros [= <- <-].
  - by intros [= <- <-].
  - unfold store_next. simpl. destruct (mem qs !! t); [|done]. simpl.
    by intros [= <- <-].
  - unfold atomic_compare_exchange_weak. case_decide; by intros [= <- <-].
  - by intros [= <- <-].
Qed.

Lemma race_global_epoch sched :
  forall c c', race sched c = Some c' ->
  global_epoch (shared c') = global_epoch (shared c).
Proof.
  induction sched as [|[tid m] sched IH]; intros c c'; simpl.
  - by intros [= <-].
  - destruct (pcs c !! tid) as [pc|]; [|done].
    destruct (has_returned pc); [done|].
    destruct (reg_malloc_freshb pc m (shared c)); [|done].
    destruct (reg_step tid m pc (shared c)) as [[pc' qs']| |] eqn:E; [|done..].
    intros Hr. rewrite (IH _ _ Hr). simpl.
    by eapply reg_step_global_epoch.
Qed.

(** X17.  The test from its start.  [main] creates the instance, and the
    threads of [run_test] register at the same time, interleaved in any
    way; once every registration has returned 0 they are past the pthread
    barrier and run the loop, interleaved in any way.  Whatever the two
    schedules, the test does not crash, and no reader reads through a
    NULL pointer. *)
Theorem qsbr_stress_from_create
    DEBUG calloc_ok key_rc qs0 ts reg_sched c_reg sched :
  qsbr_create calloc_ok key_rc = Some qs0 ->
  NoDup ts ->
  race reg_sched (all_start ts qs0) = Some c_reg ->
  (forall t, t ∈ ts -> pcs c_reg !! t = Some (RegReturned 0)) ->
  2 + Z.of_nat (length sched) < EPOCH_MODULUS ->
  exists c,
    stress_run DEBUG sched (stress_start ts (shared c_reg)) = Runs c /\
    forall u n, threads c !! u = Some (RdDeref n) ->
      exists d, ds (shared_globals c) !! Z.to_nat n = Some d /\
        ptr d = addr_magic_val.
Proof.
  intros Hcr Hnd Hrace Hret Hlt.
  assert (qs0 = fresh_qsbr) as ->.
  { unfold qsbr_create in Hcr. destruct calloc_ok; [|done].
    destruct (key_rc =? 0); [|done]. by injection Hcr as <-. }
  pose proof (race_inv_race ts reg_sched _ _ (race_inv_start ts Hnd) Hrace)
    as Hinv.
  pose proof (race_inv_all_returned ts c_reg Hnd Hinv Hret) as Hreg.
  pose proof (race_global_epoch _ _ _ Hrace) as Hge. simpl in Hge.
  assert (Hok : tls_ok (shared c_reg)).
  { by destruct Hinv as (? & ? & _ & _ & _ & _ & _ & Hok & _). }
  destruct (stress_inv_start ts _ Hreg Hok) as [l Hsi].
  { rewrite Hge. by unfold OFFLINE_EPOCH. }
  destruct (stress_run_inv DEBUG l sched _ Hsi) as (c & Hrun & Hinv').
  { simpl. rewrite Hge. lia. }
  exists c. split; [done|]. intros u n Hu.
  destruct (step_ok_RdDeref DEBUG l c u n Hinv' Hu) as (pc' & g' & Hstep & _).
  unfold stress_step, ds_get in Hstep.
  destruct (ds (shared_globals c) !! Z.to_nat n) as [d|]; [|done].
  exists d. split; [done|]. simpl in Hstep. by destruct (ptr d).
Qed.

Lemma qsbr_stress_from_create_witness :
  exists c,
    stress_run false publish_then_read
      (stress_start [0%nat; 1%nat]
         (shared (race_final contended_schedule
                    (all_start [0%nat; 1%nat] fresh_qsbr))))
    = Runs c /\
    exists d, ds (shared_globals c) !! 1%nat = Some d /\
      ptr d = addr_magic_val.
Proof.
  destruct (qsbr_stress_from_create false true 0 fresh_qsbr [0%nat; 1%nat]
              contended_schedule
              (race_final contended_schedule
                 (all_start [0%nat; 1%nat] fresh_qsbr))
              publish_then_read) as (c & Hrun & Hsafe).
  - reflexivity.
  - compute_done.
  - by vm_compute.
  - intros t Ht. apply elem_of_cons in Ht as [->|Ht]; [by vm_compute|].
    apply elem_of_cons in Ht as [->|Ht]; [by vm_compute|].
    by apply elem_of_nil in Ht.
  - by vm_compute.
  - exists c. split; [exact Hrun|].
    apply (Hsafe 1%nat 1).
    vm_compute in Hrun. injection Hrun as <-. by vm_compute.
Defined.

(** *** A wait that never ends *)





